(** * pinecone-context: a shallow embedding of the indexing and retrieval core

    The development follows the JavaScript sources:
    - [src/embeddings.js]  : [chunkText];
    - [src/context.js]     : [generateId], [storeContext], [searchContext],
                             [getRelevantContext], [formatContextForPrompt],
                             [storeConversation], [storeDocumentation],
                             [getLanguageFromPath];
    - the MCP server       : [getCached], [setCache], [generateEmbedding],
                             [searchContext], [indexText] and the
                             [pinecone_search] tool;
    - the scripts          : [parseArgs].

    JavaScript strings are sequences of UTF-16 code units, modelled as lists
    of [N]; numbers that count characters or milliseconds are integers [Z].
    Loops that the source writes with [while] are given fuel, and every
    statement that a call returns is proved with an explicit amount of fuel. *)

From Stdlib Require Import Ascii String.
From Stdlib Require Import ZArith NArith List Bool Lia Permutation.
Import ListNotations.

Set Implicit Arguments.

#[local] Open Scope Z_scope.

(* ===================================================================== *)
(** ** JavaScript strings *)
(* ===================================================================== *)

Module JS.

(** A string is its sequence of UTF-16 code units. *)
Definition jsstring := list N.

(** Literals: the code units of an ASCII text. *)
Fixpoint lit (s : string) : jsstring :=
  match s with
  | EmptyString => []
  | String c r => N_of_ascii c :: lit r
  end.

Definition LF : N := 10%N.

(** [s.length] *)
Definition length (s : jsstring) : Z := Z.of_nat (List.length s).

Definition code_eqb : N -> N -> bool := N.eqb.

Fixpoint eqb (a b : jsstring) : bool :=
  match a, b with
  | [], [] => true
  | x :: a', y :: b' => code_eqb x y && eqb a' b'
  | _, _ => false
  end.

(** [s.slice(start, end)]: negative offsets count from the end of the
    string, all offsets are clamped to [0, s.length], and an empty range
    gives the empty string. *)
Definition slice_bound (len i : Z) : Z :=
  if i <? 0 then Z.max (len + i) 0 else Z.min i len.

Definition slice (s : jsstring) (start stop : Z) : jsstring :=
  let len := length s in
  let from := slice_bound len start in
  let to := slice_bound len stop in
  firstn (Z.to_nat (to - from)) (skipn (Z.to_nat from) s).

(** White space and line terminators, as [String.prototype.trim] removes
    them. *)
Definition is_ws (c : N) : bool :=
  existsb (N.eqb c)
    [9; 10; 11; 12; 13; 32; 160; 5760; 8232; 8233; 8239; 8287; 12288; 65279]%N
  || ((8192 <=? c) && (c <=? 8202))%N.

Fixpoint trimStart (s : jsstring) : jsstring :=
  match s with
  | c :: r => if is_ws c then trimStart r else s
  | [] => []
  end.

Definition trimEnd (s : jsstring) : jsstring := rev (trimStart (rev s)).

(** [s.trim()] *)
Definition trim (s : jsstring) : jsstring := trimEnd (trimStart s).

(** [is_prefix p s]: the code units of [p] are the first ones of [s]. *)
Fixpoint is_prefix (p s : jsstring) : bool :=
  match p, s with
  | [], _ => true
  | x :: p', y :: s' => code_eqb x y && is_prefix p' s'
  | _ :: _, [] => false
  end.

(** The largest index [i <= k] at which [search] occurs in [s], or -1. *)
Fixpoint lastIndexOf_from (s search : jsstring) (k : nat) : Z :=
  if is_prefix search (skipn k s) then Z.of_nat k
  else match k with
       | O => -1
       | S k' => lastIndexOf_from s search k'
       end.

(** [s.lastIndexOf(search, position)]: the position is clamped to
    [0, s.length - search.length]; the result is the largest index not
    above it where [search] occurs, and -1 when there is none. *)
Definition lastIndexOf (s search : jsstring) (position : Z) : Z :=
  let hi := Z.min (Z.max position 0) (length s - length search) in
  if hi <? 0 then -1 else lastIndexOf_from s search (Z.to_nat hi).

(** Decimal digits of a natural number, most significant first; the
    recursion is bounded by the number of binary digits. *)
Fixpoint digits_fuel (fuel : nat) (n : N) (acc : jsstring) : jsstring :=
  match fuel with
  | O => acc
  | S f =>
      let acc' := (48 + n mod 10)%N :: acc in
      if (n <? 10)%N then acc' else digits_fuel f (n / 10)%N acc'
  end.

Definition digits (n : N) : jsstring :=
  digits_fuel (S (N.to_nat (N.log2 n))) n [].

(** [String(z)] for an integer [z]. *)
Definition toString (z : Z) : jsstring :=
  match z with
  | Zneg p => 45%N :: digits (Npos p)
  | _ => digits (Z.to_N z)
  end.

End JS.

Import JS.

(* ===================================================================== *)
(** ** src/embeddings.js: the chunker *)
(* ===================================================================== *)

Module Embeddings.

(** [const breakPoints = ['\n\n', '\n', '. ', '! ', '? ']] *)
Definition breakPoints : list jsstring :=
  [ [LF; LF]; [LF]; lit ". "; lit "! "; lit "? " ].

(** The [for (const bp of breakPoints)] loop: the first break point whose
    last occurrence at or before [stop] lies beyond the middle of the
    window moves the end just behind it.  The source compares
    [lastBreak > start + maxChunkSize / 2] in real arithmetic; for integer
    sizes that is [2 * lastBreak > 2 * start + maxChunkSize]. *)
Fixpoint findBreak (text : jsstring) (start maxChunkSize stop : Z)
    (bps : list jsstring) : Z :=
  match bps with
  | [] => stop
  | bp :: rest =>
      let lastBreak := lastIndexOf text bp stop in
      if 2 * lastBreak >? 2 * start + maxChunkSize
      then lastBreak + JS.length bp
      else findBreak text start maxChunkSize stop rest
  end.

(** The end offset chosen by one iteration of the [while] loop. *)
Definition chunkEnd (text : jsstring) (maxChunkSize start : Z) : Z :=
  let stop := start + maxChunkSize in
  if stop <? JS.length text
  then findBreak text start maxChunkSize stop breakPoints
  else stop.

(** The chunk pushed by one iteration. *)
Definition chunkAt (text : jsstring) (maxChunkSize start : Z) : jsstring :=
  trim (slice text start (chunkEnd text maxChunkSize start)).

(** [start = end - overlap] *)
Definition nextStart (text : jsstring) (maxChunkSize overlap start : Z) : Z :=
  chunkEnd text maxChunkSize start - overlap.

(** The [while (start < text.length)] loop.  [None] means that the fuel
    ran out before the loop condition became false. *)
Fixpoint chunkLoop (fuel : nat) (text : jsstring) (maxChunkSize overlap : Z)
    (start : Z) (chunks : list jsstring) : option (list jsstring) :=
  if start <? JS.length text then
    match fuel with
    | O => None
    | S fuel' =>
        chunkLoop fuel' text maxChunkSize overlap
          (nextStart text maxChunkSize overlap start)
          (chunks ++ [chunkAt text maxChunkSize start])
    end
  else Some chunks.

Definition nonEmpty (c : jsstring) : bool := JS.length c >? 0.

(** [chunkText(text, maxChunkSize, overlap)] *)
Definition chunkText (fuel : nat) (text : jsstring)
    (maxChunkSize overlap : Z) : option (list jsstring) :=
  option_map (filter nonEmpty) (chunkLoop fuel text maxChunkSize overlap 0 []).

(** The defaults [maxChunkSize = 1000, overlap = 100]; with them the loop
    needs no more iterations than the text has code units (see
    [chunkText_default_returns]). *)
Definition chunkText_default (text : jsstring) : option (list jsstring) :=
  chunkText (List.length text) text 1000 100.

End Embeddings.

Import Embeddings.

(* ===================================================================== *)
(** ** JavaScript objects, JSON and the digest *)
(* ===================================================================== *)

Module Obj.

(** Metadata values are scalars: [null], booleans, strings and numbers.
    A number is an integer, of a size that [String] writes in plain
    decimal, or [NaN]. *)
Inductive jsvalue : Type :=
| JNull
| JBool (b : bool)
| JNum (z : Z)
| JNaN
| JStr (s : jsstring).

(** An object is the list of its own properties in property order.  All
    keys written by the sources are ordinary names (none is an array
    index), so a new key goes to the end and an existing key keeps its
    place. *)
Definition jsobject := list (jsstring * jsvalue).

(** [o[k]]; [None] is [undefined]. *)
Fixpoint get (k : jsstring) (o : jsobject) : option jsvalue :=
  match o with
  | [] => None
  | (k', v) :: r => if JS.eqb k k' then Some v else get k r
  end.

(** [o[k] = v] *)
Fixpoint set (k : jsstring) (v : jsvalue) (o : jsobject) : jsobject :=
  match o with
  | [] => [(k, v)]
  | (k', v') :: r =>
      if JS.eqb k k' then (k', v) :: r else (k', v') :: set k v r
  end.

(** [{ ...target, ...source }]: the properties of [source] are assigned
    in order. *)
Definition spread (source target : jsobject) : jsobject :=
  fold_left (fun o kv => set (fst kv) (snd kv) o) source target.

(** Truthiness of a value that may be [undefined]. *)
Definition truthy (v : option jsvalue) : bool :=
  match v with
  | None | Some JNull | Some JNaN => false
  | Some (JBool b) => b
  | Some (JNum z) => negb (z =? 0)
  | Some (JStr s) => negb (JS.eqb s [])
  end.

(** [String(v)], as a template literal and a property key coerce it. *)
Definition show (v : option jsvalue) : jsstring :=
  match v with
  | None => lit "undefined"
  | Some JNull => lit "null"
  | Some (JBool true) => lit "true"
  | Some (JBool false) => lit "false"
  | Some (JNum z) => toString z
  | Some JNaN => lit "NaN"
  | Some (JStr s) => s
  end.

End Obj.

Import Obj.

Module Json.

Definition hexDigit (n : N) : N :=
  nth (N.to_nat n) (lit "0123456789abcdef") 48%N.

(** [\uXXXX] with four lower-case hexadecimal digits. *)
Definition unicodeEscape (c : N) : jsstring :=
  lit "\u" ++ [hexDigit (c / 4096 mod 16); hexDigit (c / 256 mod 16);
               hexDigit (c / 16 mod 16); hexDigit (c mod 16)]%N.

Definition isLead (c : N) : bool := ((55296 <=? c) && (c <=? 56319))%N.
Definition isTrail (c : N) : bool := ((56320 <=? c) && (c <=? 57343))%N.

(** The escape of one code unit that is not part of a surrogate pair. *)
Definition escapeUnit (c : N) : jsstring :=
  if (c =? 8)%N then lit "\b"
  else if (c =? 9)%N then lit "\t"
  else if (c =? 10)%N then lit "\n"
  else if (c =? 12)%N then lit "\f"
  else if (c =? 13)%N then lit "\r"
  else if (c =? 34)%N then [92; 34]%N
  else if (c =? 92)%N then lit "\\"
  else if (c <? 32)%N || isLead c || isTrail c then unicodeEscape c
  else [c].

(** The body of [QuoteJSONString]: a surrogate pair is copied, every
    other code unit is escaped on its own. *)
Fixpoint escape (s : jsstring) : jsstring :=
  match s with
  | [] => []
  | c :: r =>
      match r with
      | d :: r' =>
          if isLead c && isTrail d
          then c :: d :: escape r'
          else escapeUnit c ++ escape r
      | [] => escapeUnit c
      end
  end.

Definition quote (s : jsstring) : jsstring := [34%N] ++ escape s ++ [34%N].

(** [JSON.stringify] of a scalar; a number that is not finite is written
    [null]. *)
Definition stringifyValue (v : jsvalue) : jsstring :=
  match v with
  | JNull | JNaN => lit "null"
  | JBool true => lit "true"
  | JBool false => lit "false"
  | JNum z => toString z
  | JStr s => quote s
  end.

Definition stringifyProperty (kv : jsstring * jsvalue) : jsstring :=
  quote (fst kv) ++ lit ":" ++ stringifyValue (snd kv).

Fixpoint join (sep : jsstring) (parts : list jsstring) : jsstring :=
  match parts with
  | [] => []
  | [p] => p
  | p :: rest => p ++ sep ++ join sep rest
  end.

(** [JSON.stringify(o)] for an object of scalars. *)
Definition stringify (o : jsobject) : jsstring :=
  lit "{" ++ join (lit ",") (map stringifyProperty o) ++ lit "}".

End Json.

(** The digest of [crypto.createHash('md5').update(s).digest('hex')]:
    the string is encoded in UTF-8 and hashed with MD5 (RFC 1321). *)
Module Md5.

#[local] Open Scope N_scope.

(** UTF-8 of a UTF-16 string: a surrogate pair is one code point of four
    bytes, a lone surrogate is replaced by U+FFFD. *)
Definition utf8Point (p : N) : list N :=
  if p <? 128 then [p]
  else if p <? 2048 then [192 + p / 64; 128 + p mod 64]
  else if p <? 65536
  then [224 + p / 4096; 128 + p / 64 mod 64; 128 + p mod 64]
  else [240 + p / 262144; 128 + p / 4096 mod 64;
        128 + p / 64 mod 64; 128 + p mod 64].

Fixpoint utf8 (s : jsstring) : list N :=
  match s with
  | [] => []
  | c :: r =>
      if Json.isLead c then
        match r with
        | d :: r' =>
            if Json.isTrail d
            then utf8Point (65536 + (c - 55296) * 1024 + (d - 56320))
                 ++ utf8 r'
            else utf8Point 65533 ++ utf8 r
        | [] => utf8Point 65533
        end
      else if Json.isTrail c then utf8Point 65533 ++ utf8 r
      else utf8Point c ++ utf8 r
  end.

Definition mask32 : N := 4294967295.
Definition add32 (a b : N) : N := N.land (a + b) mask32.
Definition not32 (a : N) : N := N.lxor (N.land a mask32) mask32.
Definition rotl32 (x c : N) : N :=
  N.land (N.lor (N.shiftl x c) (N.shiftr x (32 - c))) mask32.

(** Per-round shift amounts and the sine table. *)
Definition shifts : list N :=
  [7; 12; 17; 22; 7; 12; 17; 22; 7; 12; 17; 22; 7; 12; 17; 22;
   5; 9; 14; 20; 5; 9; 14; 20; 5; 9; 14; 20; 5; 9; 14; 20;
   4; 11; 16; 23; 4; 11; 16; 23; 4; 11; 16; 23; 4; 11; 16; 23;
   6; 10; 15; 21; 6; 10; 15; 21; 6; 10; 15; 21; 6; 10; 15; 21].

Definition sines : list N :=
  [3614090360; 3905402710; 606105819; 3250441966; 4118548399; 1200080426;
   2821735955; 4249261313; 1770035416; 2336552879; 4294925233; 2304563134;
   1804603682; 4254626195; 2792965006; 1236535329; 4129170786; 3225465664;
   643717713; 3921069994; 3593408605; 38016083; 3634488961; 3889429448;
   568446438; 3275163606; 4107603335; 1163531501; 2850285829; 4243563512;
   1735328473; 2368359562; 4294588738; 2272392833; 1839030562; 4259657740;
   2763975236; 1272893353; 4139469664; 3200236656; 681279174; 3936430074;
   3572445317; 76029189; 3654602809; 3873151461; 530742520; 3299628645;
   4096336452; 1126891415; 2878612391; 4237533241; 1700485571; 2399980690;
   4293915773; 2240044497; 1873313359; 4264355552; 2734768916; 1309151649;
   4149444226; 3174756917; 718787259; 3951481745].

(** The four chaining words. *)
Record state : Type := mkState { wa : N; wb : N; wc : N; wd : N }.

Definition init : state :=
  mkState 1732584193 4023233417 2562383102 271733878.

(** Padding: a 1 bit, zeros up to 56 modulo 64, the bit length on 64 bits
    in little-endian order. *)
Definition le_bytes (n : nat) (x : N) : list N :=
  map (fun i => N.shiftr x (8 * N.of_nat i) mod 256) (seq 0 n).

Definition pad (msg : list N) : list N :=
  let len := N.of_nat (List.length msg) in
  msg ++ [128] ++ repeat 0 (N.to_nat ((119 - len mod 64) mod 64))
      ++ le_bytes 8 ((8 * len) mod 18446744073709551616).

(** Little-endian 32-bit words. *)
Fixpoint words (bs : list N) : list N :=
  match bs with
  | b0 :: b1 :: b2 :: b3 :: r =>
      (b0 + 256 * b1 + 65536 * b2 + 16777216 * b3) :: words r
  | _ => []
  end.

(** One of the 64 operations on a block [m] of 16 words. *)
Definition step (m : list N) (st : state) (i : nat) : state :=
  let n := N.of_nat i in
  let '(mkState a b c d) := st in
  let '(f, g) :=
    if n <? 16 then (N.lor (N.land b c) (N.land (not32 b) d), n)
    else if n <? 32
    then (N.lor (N.land d b) (N.land (not32 d) c), (5 * n + 1) mod 16)
    else if n <? 48 then (N.lxor b (N.lxor c d), (3 * n + 5) mod 16)
    else (N.lxor c (N.lor b (not32 d)), (7 * n) mod 16) in
  let f' := add32 (add32 (add32 f a) (nth i sines 0))
                  (nth (N.to_nat g) m 0) in
  mkState d (add32 b (rotl32 f' (nth i shifts 0))) b c.

Definition block (st : state) (m : list N) : state :=
  let r := fold_left (step m) (seq 0 64) st in
  mkState (add32 (wa st) (wa r)) (add32 (wb st) (wb r))
          (add32 (wc st) (wc r)) (add32 (wd st) (wd r)).

(** The blocks of 16 words, in order; [n] counts them. *)
Fixpoint blocks (n : nat) (ws : list N) (st : state) : state :=
  match n with
  | O => st
  | S n' => blocks n' (skipn 16 ws) (block st (firstn 16 ws))
  end.

Definition digest (msg : list N) : list N :=
  let ws := words (pad msg) in
  let st := blocks (List.length ws / 16) ws init in
  le_bytes 4 (wa st) ++ le_bytes 4 (wb st)
    ++ le_bytes 4 (wc st) ++ le_bytes 4 (wd st).

Definition hexByte (b : N) : jsstring :=
  [Json.hexDigit (b / 16 mod 16); Json.hexDigit (b mod 16)].

(** [.digest('hex')] *)
Definition hex (bytes : list N) : jsstring := flat_map hexByte bytes.

Definition md5hex (s : jsstring) : jsstring := hex (digest (utf8 s)).

End Md5.

(* ===================================================================== *)
(** ** src/context.js: store, search and aggregate *)
(* ===================================================================== *)

Module Context.

(** [generateId(text, metadata = {})] *)
Definition generateId (text : jsstring) (metadata : jsobject) : jsstring :=
  lit "ctx_" ++ slice (Md5.md5hex (text ++ Json.stringify metadata)) 0 16.

(** A filter maps a field to a value, or to [{ $in: [...] }]. *)
Inductive filterValue : Type :=
| FValue (v : jsvalue)
| FIn (values : list jsstring).

Definition jsfilter := list (jsstring * filterValue).

(** The four buckets of [grouped]. *)
Inductive bucket : Type := Conversation | Code | Documentation | Other.

(** What evaluating [grouped[type]] finds: one of the four own
    properties, a property inherited from [Object.prototype] (the object
    is written as a literal), or nothing. *)
Inductive property : Type :=
| Own (b : bucket)
| Inherited
| Absent.

(** The property names of [Object.prototype]; each holds a function or
    an object, never an array. *)
Definition objectPrototypeKeys : list jsstring :=
  map lit
    [ "constructor"; "hasOwnProperty"; "isPrototypeOf";
      "propertyIsEnumerable"; "toLocaleString"; "toString"; "valueOf";
      "__proto__"; "__defineGetter__"; "__defineSetter__";
      "__lookupGetter__"; "__lookupSetter__" ]%string.

Definition lookupGrouped (type : jsstring) : property :=
  if JS.eqb type (lit "conversation") then Own Conversation
  else if JS.eqb type (lit "code") then Own Code
  else if JS.eqb type (lit "documentation") then Own Documentation
  else if JS.eqb type (lit "other") then Own Other
  else if existsb (JS.eqb type) objectPrototypeKeys then Inherited
  else Absent.

(** A call either returns or throws a [TypeError]. *)
Inductive outcome (A : Type) : Type :=
| Returned (a : A)
| TypeError.
Arguments TypeError {A}.

Section Pipeline.

(** Embedding vectors and similarity scores are floating-point data that
    the pipeline only passes on. *)
Variables embedding score : Type.

(** What [index.upsert] receives; [values] is [embeddings[i]], which is
    [undefined] when the provider returned fewer vectors than chunks. *)
Record vector : Type := mkVector {
  id : jsstring;
  values : option embedding;
  metadata : jsobject
}.

(** The argument of [index.query]. *)
Record queryRequest : Type := mkQuery {
  queryVector : embedding;
  topK : Z;
  filter : option jsfilter;
  includeMetadata : bool
}.

Record indexMatch : Type := mkMatch {
  matchId : jsstring;
  matchScore : score;
  matchMetadata : option jsobject
}.

Record searchResult : Type := mkResult {
  resultId : jsstring;
  resultScore : score;
  resultText : option jsvalue;
  resultMetadata : option jsobject
}.

(** The collaborators: the system clock ([dateISO k] is what the [k]-th
    evaluation of [new Date().toISOString()] gives), the embedding
    provider and the answers of the index. *)
Variable dateISO : nat -> jsstring.
Variable generateEmbeddings : list jsstring -> list embedding.
Variable generateEmbedding : jsstring -> embedding.
Variable indexAnswer : queryRequest -> list indexMatch.

(** The state the calls act on: what the index was sent, and how often
    the clock was read. *)
Record world : Type := mkWorld {
  upserts : list (list vector);
  queries : list queryRequest;
  clockReads : nat
}.

(** Computations over the world that may fail to return. *)
Definition M (A : Type) : Type := world -> option (A * world).

Definition ret {A} (a : A) : M A := fun w => Some (a, w).

Definition bind {A B} (c : M A) (k : A -> M B) : M B :=
  fun w => match c w with
           | Some (a, w') => k a w'
           | None => None
           end.

Notation "x <- c ;; k" := (bind c (fun x => k))
  (at level 61, c at next level, right associativity).
Notation "c ;;; k" := (bind c (fun _ => k))
  (at level 61, right associativity).

Definition orDiverge {A} (o : option A) : M A :=
  fun w => match o with Some a => Some (a, w) | None => None end.

(** [new Date().toISOString()] *)
Definition newDateISO : M jsstring :=
  fun w => Some (dateISO (clockReads w),
                 mkWorld (upserts w) (queries w) (S (clockReads w))).

(** [await index.upsert(batch)] *)
Definition upsert (batch : list vector) : M unit :=
  fun w =>
    Some (tt, mkWorld (upserts w ++ [batch]) (queries w) (clockReads w)).

(** [await index.query(request)] *)
Definition query (request : queryRequest) : M (list indexMatch) :=
  fun w =>
    Some (indexAnswer request,
          mkWorld (upserts w) (queries w ++ [request]) (clockReads w)).

(** [array.map((x, i) => f(x, i))] with an effectful callback, from index
    [i] on. *)
Fixpoint mapWithIndex {A B} (f : A -> nat -> M B) (i : nat) (l : list A)
    : M (list B) :=
  match l with
  | [] => ret []
  | x :: r =>
      y <- f x i ;;
      ys <- mapWithIndex f (S i) r ;;
      ret (y :: ys)
  end.

(** [array.slice(from, to)] for offsets that are not negative. *)
Definition arraySlice {A} (l : list A) (from to : nat) : list A :=
  firstn (to - from) (skipn from l).

Definition batchSize : nat := 100.

(** [for (let i = 0; i < vectors.length; i += batchSize)] *)
Fixpoint upsertLoop (fuel : nat) (vectors : list vector) (i : nat) : M unit :=
  if (i <? List.length vectors)%nat then
    match fuel with
    | O => fun _ => None
    | S fuel' =>
        upsert (arraySlice vectors i (i + batchSize)) ;;;
        upsertLoop fuel' vectors (i + batchSize)
    end
  else ret tt.

Definition natNum (n : nat) : jsvalue := JNum (Z.of_nat n).

(** The callback of [chunks.map] in [storeContext]. *)
Definition assemble (metadata : jsobject) (embeddings : list embedding)
    (total : nat) (chunk : jsstring) (i : nat) : M vector :=
  timestamp <- newDateISO ;;
  ret (mkVector
         (generateId chunk
            (Obj.set (lit "chunkIndex") (natNum i) (spread metadata [])))
         (nth_error embeddings i)
         (Obj.set (lit "timestamp") (JStr timestamp)
            (Obj.set (lit "totalChunks") (natNum total)
               (Obj.set (lit "chunkIndex") (natNum i)
                  (Obj.set (lit "text") (JStr chunk)
                     (spread metadata [])))))).

(** The vectors [storeContext] assembles from its chunks. *)
Definition assembleAll (metadata : jsobject) (chunks : list jsstring)
    : M (list vector) :=
  mapWithIndex
    (assemble metadata (generateEmbeddings chunks) (List.length chunks))
    0%nat chunks.

(** The batched upsert of [storeContext]; the loop runs at most once per
    vector. *)
Definition upsertAll (vectors : list vector) : M unit :=
  upsertLoop (List.length vectors) vectors 0.

(** [storeContext(text, metadata = {})] *)
Definition storeContext (text : jsstring) (metadata : jsobject)
    : M (list jsstring) :=
  chunks <- orDiverge (chunkText_default text) ;;
  vectors <- assembleAll metadata chunks ;;
  upsertAll vectors ;;;
  ret (map id vectors).

Definition toResult (m : indexMatch) : searchResult :=
  mkResult (matchId m) (matchScore m)
    (match matchMetadata m with
     | Some o => Obj.get (lit "text") o
     | None => None
     end)
    (matchMetadata m).

(** The request [searchContext] sends; an omitted [filter] argument is
    the default [{}]. *)
Definition searchRequest (query : jsstring) (filterArg : option jsfilter)
    (topK : Z) : queryRequest :=
  let filter := match filterArg with Some f => f | None => [] end in
  mkQuery (generateEmbedding query) topK
    (if Z.of_nat (List.length filter) >? 0 then Some filter else None)
    true.

(** [searchContext(query, filter = {}, topK = 5)] *)
Definition searchContext (q : jsstring) (filterArg : option jsfilter)
    (topK : Z) : M (list searchResult) :=
  results <- query (searchRequest q filterArg topK) ;;
  ret (map toResult results).

(** The object [grouped] of [getRelevantContext]. *)
Record grouped : Type := mkGrouped {
  conversation : list searchResult;
  code : list searchResult;
  documentation : list searchResult;
  other : list searchResult
}.

Definition push (b : bucket) (r : searchResult) (g : grouped) : grouped :=
  match b with
  | Conversation =>
      mkGrouped (conversation g ++ [r]) (code g) (documentation g) (other g)
  | Code =>
      mkGrouped (conversation g) (code g ++ [r]) (documentation g) (other g)
  | Documentation =>
      mkGrouped (conversation g) (code g) (documentation g ++ [r]) (other g)
  | Other =>
      mkGrouped (conversation g) (code g) (documentation g) (other g ++ [r])
  end.

(** [result.metadata?.type || 'other'], as the property key it is used
    for. *)
Definition typeKey (r : searchResult) : jsstring :=
  let type := match resultMetadata r with
              | Some o => Obj.get (lit "type") o
              | None => None
              end in
  if truthy type then show type else lit "other".

(** The body of the grouping loop: [grouped[type].push(result)] when
    [grouped[type]] is truthy, [grouped.other.push(result)] otherwise.  An
    inherited property is truthy and has no [push]. *)
Definition groupOne (g : grouped) (r : searchResult) : outcome grouped :=
  match lookupGrouped (typeKey r) with
  | Own b => Returned (push b r g)
  | Inherited => TypeError
  | Absent => Returned (push Other r g)
  end.

(** [for (const result of results)] *)
Fixpoint groupLoop (results : list searchResult) (g : grouped)
    : outcome grouped :=
  match results with
  | [] => Returned g
  | r :: rest =>
      match groupOne g r with
      | Returned g' => groupLoop rest g'
      | TypeError => TypeError
      end
  end.

Definition groupResults (results : list searchResult) : outcome grouped :=
  groupLoop results (mkGrouped [] [] [] []).

(** [formatContextForPrompt(results)] *)
Definition header (meta : jsobject) : jsstring :=
  let type := Obj.get (lit "type") meta in
  let typeIs t := match type with
                  | Some (JStr s) => JS.eqb s (lit t)
                  | _ => false
                  end in
  if typeIs "code"%string
  then lit "[Code: " ++ show (Obj.get (lit "filePath") meta) ++ lit "]"
  else if typeIs "conversation"%string
  then lit "[" ++ show (Obj.get (lit "role") meta) ++ lit "]"
  else if typeIs "documentation"%string
  then lit "[Doc: " ++ show (Obj.get (lit "title") meta) ++ lit "]"
  else lit "[Context]".

Definition formatContextForPrompt (results : list searchResult) : jsstring :=
  Json.join ([LF; LF] ++ lit "---" ++ [LF; LF])
    (map (fun r =>
            header (match resultMetadata r with Some o => o | None => [] end)
              ++ [LF] ++ show (resultText r))
         results).

(** The options of [getRelevantContext] and its result. *)
Record options : Type := mkOptions {
  optProject : option jsstring;
  optTypes : option (list jsstring);
  optTopK : option Z
}.

Record relevantContext : Type := mkRelevant {
  all : list searchResult;
  groupedBy : grouped;
  contextString : jsstring
}.

Definition buildFilter (o : options) : jsfilter :=
  let f1 := match optProject o with
            | Some p =>
                if JS.eqb p [] then []
                else [(lit "project", FValue (JStr p))]
            | None => []
            end in
  match optTypes o with
  | Some (t :: ts) => f1 ++ [(lit "type", FIn (t :: ts))]
  | _ => f1
  end.

(** [getRelevantContext(query, options = {})] *)
Definition getRelevantContext (q : jsstring) (o : options)
    : M (outcome relevantContext) :=
  results <- searchContext q (Some (buildFilter o))
               (match optTopK o with Some k => k | None => 10 end) ;;
  ret (match groupResults results with
       | Returned g =>
           Returned (mkRelevant results g (formatContextForPrompt results))
       | TypeError => TypeError
       end).

End Pipeline.

End Context.

(* ===================================================================== *)
(** ** The MCP server: the two caches and [indexText] *)
(* ===================================================================== *)

Module Mcp.

(** A JavaScript [Map] with string keys: its entries in insertion order. *)
Section JsMap.

Variable V : Type.

Definition jsmap := list (jsstring * V).

(** [m.get(k)] *)
Fixpoint mapGet (k : jsstring) (m : jsmap) : option V :=
  match m with
  | [] => None
  | (k', v) :: r => if JS.eqb k k' then Some v else mapGet k r
  end.

(** [m.delete(k)] *)
Fixpoint mapDelete (k : jsstring) (m : jsmap) : jsmap :=
  match m with
  | [] => []
  | (k', v) :: r => if JS.eqb k k' then r else (k', v) :: mapDelete k r
  end.

(** [m.set(k, v)]: a present key keeps its place, a new one goes last. *)
Fixpoint mapSet (k : jsstring) (v : V) (m : jsmap) : jsmap :=
  match m with
  | [] => [(k, v)]
  | (k', v') :: r =>
      if JS.eqb k k' then (k', v) :: r else (k', v') :: mapSet k v r
  end.

(** [m.size] *)
Definition mapSize (m : jsmap) : Z := Z.of_nat (List.length m).

(** [m.keys().next().value]; [None] is [undefined], for an empty map. *)
Definition firstKey (m : jsmap) : option jsstring :=
  match m with
  | [] => None
  | (k, _) :: _ => Some k
  end.

Definition mapKeys (m : jsmap) : list jsstring := map fst m.

End JsMap.

Definition CACHE_TTL : Z := 300000.

Section Cache.

Variable V : Type.

(** [{ value, expiresAt }] *)
Record item : Type := mkItem { value : V; expiresAt : Z }.

Definition cache := jsmap item.

(** [getCached(cache, key)], when [Date.now()] gives [now]: the value
    found ([None] is [null]) and the cache afterwards. *)
Definition getCached (c : cache) (key : jsstring) (now : Z)
    : option V * cache :=
  match mapGet key c with
  | None => (None, c)
  | Some it =>
      if now >? expiresAt it then (None, mapDelete key c)
      else (Some (value it), c)
  end.

(** [setCache(cache, key, value)], when [Date.now()] gives [now]. *)
Definition setCache (c : cache) (key : jsstring) (v : V) (now : Z) : cache :=
  let c' := if mapSize c >? 100
            then match firstKey c with
                 | Some k => mapDelete k c
                 | None => c
                 end
            else c in
  mapSet key (mkItem v (now + CACHE_TTL)) c'.

(** Insertions one after the other, each key with its value and the time
    of the insertion. *)
Definition setAll (c : cache) (kvs : list (jsstring * V * Z)) : cache :=
  fold_left (fun c kv => setCache c (fst (fst kv)) (snd (fst kv)) (snd kv))
    kvs c.

End Cache.

Section Server.

Variable embedding : Type.

(** The record [indexText] upserts. *)
Record record : Type := mkRecord {
  id : jsstring;
  values : embedding;
  metadata : jsobject
}.

(** The collaborators: [dateNow k] and [dateISO k] are what the [k]-th
    reading of the clock gives as [Date.now()] and as
    [new Date().toISOString()]; [random36 k] is the [k]-th
    [Math.random().toString(36)]; [embeddingsCreate] is the provider. *)
Variable dateNow : nat -> Z.
Variable dateISO : nat -> jsstring.
Variable random36 : nat -> jsstring.
Variable embeddingsCreate : jsstring -> embedding.

Record server : Type := mkServer {
  embeddingCache : cache embedding;
  upserts : list (list record);
  clockReads : nat;
  randomDraws : nat
}.

Definition tick (s : server) : server :=
  mkServer (embeddingCache s) (upserts s) (S (clockReads s)) (randomDraws s).

Definition withCache (c : cache embedding) (s : server) : server :=
  mkServer c (upserts s) (clockReads s) (randomDraws s).

(** [generateEmbedding(text)], cached.  [getCached] reads the clock when
    it finds the key, [setCache] reads it always; a cached embedding is
    an array, which is truthy. *)
Definition generateEmbedding (text : jsstring) (s : server)
    : embedding * server :=
  let '(cached, c) :=
    getCached (embeddingCache s) text (dateNow (clockReads s)) in
  let s1 := match mapGet text (embeddingCache s) with
            | Some _ => tick (withCache c s)
            | None => withCache c s
            end in
  match cached with
  | Some e => (e, s1)
  | None =>
      let e := embeddingsCreate text in
      let now := dateNow (clockReads s1) in
      (e, tick (withCache (setCache (embeddingCache s1) text e now) s1))
  end.

(** The id [indexText] builds:
    [`ctx_${Date.now()}_${Math.random().toString(36).slice(2, 10)}`] *)
Definition freshId (now : Z) (random : jsstring) : jsstring :=
  lit "ctx_" ++ toString now ++ lit "_" ++ slice random 2 10.

(** [indexText(text, project, type = 'text', metadata = {})]: the
    returned id and the server afterwards. *)
Definition indexText (text project type : jsstring) (meta : jsobject)
    (s : server) : jsstring * server :=
  let '(e, s1) := generateEmbedding text s in
  let ident :=
    freshId (dateNow (clockReads s1)) (random36 (randomDraws s1)) in
  let timestamp := dateISO (S (clockReads s1)) in
  let r := mkRecord ident e
             (spread meta
                [ (lit "text", JStr text); (lit "project", JStr project);
                  (lit "type", JStr type);
                  (lit "timestamp", JStr timestamp) ]) in
  (ident,
   mkServer (embeddingCache s1) (upserts s1 ++ [[r]])
     (S (S (clockReads s1))) (S (randomDraws s1))).

End Server.

End Mcp.

(* ===================================================================== *)
(** ** src/context.js: the presets and the language table *)
(* ===================================================================== *)

Module Presets.

Section Stores.

Variable embedding : Type.
Variable dateISO : nat -> jsstring.
Variable generateEmbeddings : list jsstring -> list embedding.

(** [storeConversation(role, content, metadata = {})] *)
Definition storeConversation (role content : jsstring) (metadata : jsobject)
    : Context.M embedding (list jsstring) :=
  Context.storeContext dateISO generateEmbeddings content
    (Obj.set (lit "role") (JStr role)
       (Obj.set (lit "type") (JStr (lit "conversation"))
          (spread metadata []))).

(** [storeDocumentation(title, content, metadata = {})] *)
Definition storeDocumentation (title content : jsstring)
    (metadata : jsobject) : Context.M embedding (list jsstring) :=
  Context.storeContext dateISO generateEmbeddings content
    (Obj.set (lit "title") (JStr title)
       (Obj.set (lit "type") (JStr (lit "documentation"))
          (spread metadata []))).

End Stores.

(** [langMap] of [getLanguageFromPath]. *)
Definition langMap : list (jsstring * jsstring) :=
  map (fun kv => (lit (fst kv), lit (snd kv)))
    [ ("js", "javascript"); ("ts", "typescript"); ("py", "python");
      ("rb", "ruby"); ("go", "go"); ("rs", "rust"); ("java", "java");
      ("cs", "csharp"); ("cpp", "cpp"); ("c", "c"); ("html", "html");
      ("css", "css"); ("json", "json"); ("yaml", "yaml"); ("yml", "yaml");
      ("md", "markdown"); ("sql", "sql") ]%string.

Fixpoint lookupOwn (k : jsstring) (table : list (jsstring * jsstring))
    : option jsstring :=
  match table with
  | [] => None
  | (k', v) :: r => if JS.eqb k k' then Some v else lookupOwn k r
  end.

(** [s.split('.').pop()]: what follows the last dot, the whole string
    when there is none.  [segment] is the piece that started at the last
    dot seen so far. *)
Fixpoint afterLastDot (s segment : jsstring) : jsstring :=
  match s with
  | [] => segment
  | c :: r => if (c =? 46)%N then afterLastDot r r else afterLastDot r segment
  end.

Definition lastSegment (s : jsstring) : jsstring := afterLastDot s s.

(** What [langMap[ext] || 'unknown'] evaluates to: a string, or the value
    of a property that the table inherits from [Object.prototype]. *)
Inductive language : Type :=
| Name (s : jsstring)
| InheritedValue.

Section Language.

(** [String.prototype.toLowerCase], which follows the Unicode tables. *)
Variable toLowerCase : jsstring -> jsstring.

(** [getLanguageFromPath(filePath)] *)
Definition getLanguageFromPath (filePath : jsstring) : language :=
  let ext := toLowerCase (lastSegment filePath) in
  match lookupOwn ext langMap with
  | Some name => Name name
  | None =>
      if existsb (JS.eqb ext) Context.objectPrototypeKeys
      then InheritedValue
      else Name (lit "unknown")
  end.

End Language.

End Presets.

(* ===================================================================== *)
(** ** The MCP server: the cached search *)
(* ===================================================================== *)

Module McpSearch.

Section Search.

Variables embedding score : Type.

(** An entry of [formattedResults]. *)
Record formatted : Type := mkFormatted {
  score_ : score;
  text : option jsvalue;
  project : option jsvalue;
  type : option jsvalue;
  filePath : option jsvalue
}.

(** The argument of [idx.query]; [filter] holds the project [p] of
    [{ project: { $eq: p } }] and is [None] for [undefined]. *)
Record request : Type := mkRequest {
  vector : embedding;
  topK : Z;
  filter : option jsstring;
  includeMetadata : bool
}.

Variable dateNow : nat -> Z.
Variable embeddingsCreate : jsstring -> embedding.
Variable indexAnswer : request -> list (Context.indexMatch score).

(** The server with its second cache and the queries it sent. *)
Record state : Type := mkState {
  server : Mcp.server embedding;
  searchCache : Mcp.cache (list formatted);
  queries : list request
}.

Definition field (k : string) (m : Context.indexMatch score)
    : option jsvalue :=
  match Context.matchMetadata m with
  | Some o => Obj.get (lit k) o
  | None => None
  end.

Definition format (m : Context.indexMatch score) : formatted :=
  mkFormatted (Context.matchScore m) (field "text" m) (field "project" m)
    (field "type" m) (field "filePath" m).

(** [project || 'all'] and the truthiness of [project]. *)
Definition given (project : option jsstring) : option jsstring :=
  match project with
  | Some p => if JS.eqb p [] then None else Some p
  | None => None
  end.

(** [`${query}:${project || 'all'}:${topK}`] *)
Definition cacheKey (query : jsstring) (project : option jsstring)
    (topK : Z) : jsstring :=
  query ++ lit ":"
    ++ (match given project with Some p => p | None => lit "all" end)
    ++ lit ":" ++ toString topK.

(** [searchContext(query, project = null, topK = 5)]: the results and the
    state afterwards.  [getCached] reads the clock when it finds the key,
    [setCache] always; a cached array is truthy also when it is empty. *)
Definition searchContext (query : jsstring) (project : option jsstring)
    (topK : Z) (st : state) : list formatted * state :=
  let key := cacheKey query project topK in
  let s := server st in
  let '(cached, c) :=
    Mcp.getCached (searchCache st) key (dateNow (Mcp.clockReads s)) in
  let s1 := match Mcp.mapGet key (searchCache st) with
            | Some _ => Mcp.tick s
            | None => s
            end in
  match cached with
  | Some results => (results, mkState s1 c (queries st))
  | None =>
      let '(queryEmbedding, s2) :=
        Mcp.generateEmbedding dateNow embeddingsCreate query s1 in
      let request := mkRequest queryEmbedding topK (given project) true in
      let formattedResults := map format (indexAnswer request) in
      let now := dateNow (Mcp.clockReads s2) in
      (formattedResults,
       mkState (Mcp.tick s2) (Mcp.setCache c key formattedResults now)
         (queries st ++ [request]))
  end.

(** The arguments the [pinecone_search] tool passes on:
    [args.project || null] and [Math.min(args.topK || 5, 20)]. *)
Definition toolTopK (topK : option Z) : Z :=
  Z.min (match topK with
         | Some k => if k =? 0 then 5 else k
         | None => 5
         end) 20.

Definition searchTool (query : jsstring) (project : option jsstring)
    (topK : option Z) (st : state) : list formatted * state :=
  searchContext query (given project) (toolTopK topK) st.

End Search.

End McpSearch.

(* ===================================================================== *)
(** ** The scripts: [parseArgs] *)
(* ===================================================================== *)

Module Cli.

(** A parsed argument is [true] or the string that followed the flag. *)
Inductive argValue : Type :=
| ArgTrue
| ArgValue (s : jsstring).

(** The own properties of [result]. *)
Definition parsed := Mcp.jsmap argValue.

(** [s.startsWith(p)] *)
Definition startsWith (s p : jsstring) : bool := is_prefix p s.

(** [result[key] = v]; a string or [true] assigned to [__proto__] is
    dropped by the setter of [Object.prototype]. *)
Definition assign (key : jsstring) (v : argValue) (result : parsed)
    : parsed :=
  if JS.eqb key (lit "__proto__") then result else Mcp.mapSet key v result.

(** The [for] loop of [parseArgs] over what is left of the arguments; a
    value that is taken is stepped over. *)
Fixpoint parseLoop (argv : list jsstring) (result : parsed) : parsed :=
  match argv with
  | [] => result
  | arg :: rest =>
      if startsWith arg (lit "--") then
        let key := slice arg 2 (JS.length arg) in
        match rest with
        | value :: rest' =>
            if negb (JS.eqb value []) && negb (startsWith value (lit "--"))
            then parseLoop rest' (assign key (ArgValue value) result)
            else parseLoop rest (assign key ArgTrue result)
        | [] => assign key ArgTrue result
        end
      else parseLoop rest result
  end.

(** [parseArgs()], for [process.argv.slice(2)] being [argv]. *)
Definition parseArgs (argv : list jsstring) : parsed := parseLoop argv [].

End Cli.

(* ===================================================================== *)
(** ** Vocabulary of the statements *)
(* ===================================================================== *)

Unset Implicit Arguments.

(** The keys of a sequence of insertions. *)
Definition keysOf (V : Type) (kvs : list (jsstring * V * Z))
    : list jsstring :=
  map (fun kv => fst (fst kv)) kvs.

(** A decision procedure for distinct keys. *)
Fixpoint distinctb (l : list jsstring) : bool :=
  match l with
  | [] => true
  | x :: r => negb (existsb (JS.eqb x) r) && distinctb r
  end.

(** The keys "0", ..., "100", each inserted with its number as value, one
    millisecond apart. *)
Definition hundredAndOne : list (jsstring * nat * Z) :=
  map (fun i => (toString (Z.of_nat i), i, Z.of_nat i)) (seq 0 101).

(** The metadata [storeContext] gives the chunk at index [i], stamped
    with [timestamp]. *)
Definition chunkMetadata (metadata : jsobject) (total : nat)
    (chunk : jsstring) (i : nat) (timestamp : jsstring) : jsobject :=
  Obj.set (lit "timestamp") (JStr timestamp)
    (Obj.set (lit "totalChunks") (Context.natNum total)
       (Obj.set (lit "chunkIndex") (Context.natNum i)
          (Obj.set (lit "text") (JStr chunk) (spread metadata [])))).

(** The bucket a result belongs to, and the test that it is a given
    one. *)
Definition bucketOf (score : Type) (r : Context.searchResult score)
    : Context.bucket :=
  match Context.lookupGrouped (Context.typeKey r) with
  | Context.Own b => b
  | _ => Context.Other
  end.

Definition inBucket (score : Type) (b : Context.bucket)
    (r : Context.searchResult score) : bool :=
  match b, bucketOf score r with
  | Context.Conversation, Context.Conversation
  | Context.Code, Context.Code
  | Context.Documentation, Context.Documentation
  | Context.Other, Context.Other => true
  | _, _ => false
  end.

(** A result of the index with the given [metadata.type]. *)
Definition typed (n : nat) (type : string) : Context.indexMatch nat :=
  Context.mkMatch (toString (Z.of_nat n)) n
    (Some [(lit "text", JStr (lit "t")); (lit "type", JStr (lit type))]).

(** Decimal digits, and the number a digit string denotes. *)
Definition isDigit (c : N) : Prop := (48 <= c <= 57)%N.

Definition valueOf (ds : jsstring) : N :=
  fold_left (fun a c => 10 * a + (c - 48))%N ds 0%N.



Definition hexIndex (c : N) : N :=
  if (c <? 58)%N then (c - 48)%N else (c - 87)%N.


(** Reading a quoted string back: the code unit behind a backslash, the
    code unit of four hexadecimal digits, and the string up to the
    closing quote together with what follows it. *)
Definition unescapeShort (x : N) : N :=
  if (x =? 98)%N then 8%N
  else if (x =? 116)%N then 9%N
  else if (x =? 110)%N then 10%N
  else if (x =? 102)%N then 12%N
  else if (x =? 114)%N then 13%N
  else x.

Definition decode4 (h1 h2 h3 h4 : N) : N :=
  (4096 * hexIndex h1 + 256 * hexIndex h2 + 16 * hexIndex h3 + hexIndex h4)%N.

Definition consFst (c : N) (p : jsstring * jsstring) : jsstring * jsstring :=
  (c :: fst p, snd p).

Fixpoint unescape (input : jsstring) : option (jsstring * jsstring) :=
  match input with
  | [] => None
  | c :: rest =>
      if (c =? 34)%N then Some ([], rest)
      else if (c =? 92)%N then
        match rest with
        | x :: rest1 =>
            if (x =? 117)%N then
              match rest1 with
              | h1 :: h2 :: h3 :: h4 :: rest2 =>
                  option_map (consFst (decode4 h1 h2 h3 h4)) (unescape rest2)
              | _ => None
              end
            else option_map (consFst (unescapeShort x)) (unescape rest1)
        | [] => None
        end
      else option_map (consFst c) (unescape rest)
  end.

(** A numeral holds digits and at most a sign; what follows a value in an
    object is a comma or the closing brace; and the first code unit of a
    serialised value tells its kind. *)
Definition numeralUnit (c : N) : Prop := isDigit c \/ c = 45%N.

Definition closes (t : jsstring) : Prop :=
  exists r, t = 44%N :: r \/ t = 125%N :: r.

Definition headOf (v : jsvalue) (c : N) : Prop :=
  match v with
  | JNull | JNaN => c = 110%N
  | JBool b => c = if b then 116%N else 102%N
  | JNum _ => numeralUnit c
  | JStr _ => c = 34%N
  end.

(** Objects all of whose numbers are finite. *)
Definition finite (o : jsobject) : Prop :=
  Forall (fun kv => snd kv <> JNaN) o.

(** The serialisation of the properties behind the first one, with the
    closing brace. *)
Fixpoint stringifyRest (o : jsobject) : jsstring :=
  match o with
  | [] => lit "}"
  | kv :: rest => lit "," ++ Json.stringifyProperty kv ++ stringifyRest rest
  end.

(** Strings of 16-bit code units, and strings in which every surrogate
    is half of a pair. *)
Definition isUnit (c : N) : Prop := (c < 65536)%N.

Inductive wellFormed : jsstring -> Prop :=
| wf_nil : wellFormed []
| wf_unit (c : N) (s : jsstring) :
    isUnit c -> Json.isLead c = false -> Json.isTrail c = false ->
    wellFormed s -> wellFormed (c :: s)
| wf_pair (c d : N) (s : jsstring) :
    Json.isLead c = true -> Json.isTrail d = true ->
    wellFormed s -> wellFormed (c :: d :: s).

(** Objects of finite scalars as JavaScript has them: keys and strings
    are made of 16-bit code units, and no number is [NaN]. *)
Definition plainValue (v : jsvalue) : Prop :=
  match v with
  | JStr s => Forall isUnit s
  | JNaN => False
  | _ => True
  end.

Definition plain (o : jsobject) : Prop :=
  Forall (fun kv => Forall isUnit (fst kv) /\ plainValue (snd kv)) o.

(** Reading UTF-8 back. *)
Fixpoint decodeUtf8 (bytes : list N) : jsstring :=
  match bytes with
  | [] => []
  | b0 :: r0 =>
      if (b0 <? 128)%N then b0 :: decodeUtf8 r0
      else if (b0 <? 224)%N then
        match r0 with
        | b1 :: r1 => ((b0 - 192) * 64 + (b1 - 128))%N :: decodeUtf8 r1
        | _ => []
        end
      else if (b0 <? 240)%N then
        match r0 with
        | b1 :: b2 :: r2 =>
            ((b0 - 224) * 4096 + (b1 - 128) * 64 + (b2 - 128))%N
            :: decodeUtf8 r2
        | _ => []
        end
      else
        match r0 with
        | b1 :: b2 :: b3 :: r3 =>
            let p := ((b0 - 240) * 262144 + (b1 - 128) * 4096
                      + (b2 - 128) * 64 + (b3 - 128))%N in
            (55296 + (p - 65536) / 1024)%N
            :: (56320 + (p - 65536) mod 1024)%N :: decodeUtf8 r3
        | _ => []
        end
  end.


(** The cache after the keys "0", ..., "100" were inserted. *)
Definition fullCache : Mcp.cache nat := Mcp.setAll [] hundredAndOne.

(** How a command line spells one argument: the flag alone for [true],
    the flag and its value otherwise. *)
Definition spell (kv : jsstring * Cli.argValue) : list jsstring :=
  match snd kv with
  | Cli.ArgTrue => [lit "--" ++ fst kv]
  | Cli.ArgValue v => [lit "--" ++ fst kv; v]
  end.

Definition commandLine (kvs : list (jsstring * Cli.argValue))
    : list jsstring :=
  flat_map spell kvs.

(** The arguments a command line can spell: the key is not [__proto__],
    and a value is neither empty nor does it look like a flag. *)
Definition speakable (kv : jsstring * Cli.argValue) : Prop :=
  fst kv <> lit "__proto__"
  /\ match snd kv with
     | Cli.ArgTrue => True
     | Cli.ArgValue v => v <> [] /\ Cli.startsWith v (lit "--") = false
     end.

(* ===================================================================== *)
(** * Properties *)
(* ===================================================================== *)

(** Linear arithmetic with division and remainder by constants. *)
Ltac div_lia := zify; Z.to_euclidean_division_equations; lia.

(** ** Strings *)

Lemma length_nonneg (s : jsstring) : 0 <= JS.length s.
Proof. unfold JS.length. lia. Qed.

Lemma length_app (a b : jsstring) :
  JS.length (a ++ b) = JS.length a + JS.length b.
Proof. unfold JS.length. rewrite List.length_app. lia. Qed.

Lemma eqb_eq (a b : jsstring) : JS.eqb a b = true <-> a = b.
Proof.
  revert b. induction a as [|x a IH]; intros [|y b]; simpl;
    try (split; [discriminate | congruence]); try tauto.
  unfold code_eqb. rewrite andb_true_iff, N.eqb_eq, IH.
  split; [intros [-> ->]; reflexivity | intros [= -> ->]; auto].
Qed.

Lemma eqb_refl (a : jsstring) : JS.eqb a a = true.
Proof. apply eqb_eq. reflexivity. Qed.

Lemma eqb_neq (a b : jsstring) : JS.eqb a b = false <-> a <> b.
Proof.
  rewrite <- eqb_eq. destruct (JS.eqb a b); split; congruence.
Qed.

(** A window that starts at 0 and reaches the end takes the whole string. *)
Lemma slice_whole (s : jsstring) (stop : Z) :
  JS.length s <= stop -> slice s 0 stop = s.
Proof.
  intros H. pose proof (length_nonneg s) as Hn.
  unfold slice, slice_bound. cbv zeta.
  replace (0 <? 0) with false by reflexivity.
  destruct (stop <? 0) eqn:E; [apply Z.ltb_lt in E; lia|].
  rewrite (Z.min_l 0) by lia. rewrite (Z.min_r stop) by lia.
  simpl skipn. rewrite Z.sub_0_r. unfold JS.length.
  rewrite Nat2Z.id. apply firstn_all.
Qed.

(** ** The chunker *)

Lemma breakPoints_nonempty :
  Forall (fun bp => 1 <= JS.length bp) breakPoints.
Proof. repeat constructor; vm_compute; discriminate. Qed.

(** A break point, when one is taken, ends the chunk beyond the middle of
    the window. *)
Lemma findBreak_cases text start m stop bps :
  Forall (fun bp => 1 <= JS.length bp) bps ->
  findBreak text start m stop bps = stop
  \/ 2 * start + m + 3 <= 2 * findBreak text start m stop bps.
Proof.
  induction 1 as [|bp bps Hbp _ IH]; cbn [findBreak]; [left; reflexivity|].
  destruct (2 * lastIndexOf text bp stop >? 2 * start + m) eqn:E.
  - right. apply Z.gtb_lt in E. lia.
  - exact IH.
Qed.

Lemma chunkEnd_cases text m start :
  chunkEnd text m start = start + m
  \/ 2 * start + m + 3 <= 2 * chunkEnd text m start.
Proof.
  unfold chunkEnd. destruct (start + m <? JS.length text).
  - apply findBreak_cases, breakPoints_nonempty.
  - left; reflexivity.
Qed.

(** The window reaches the end of the text: no break is searched. *)
Lemma chunkEnd_last text m start :
  JS.length text <= start + m -> chunkEnd text m start = start + m.
Proof.
  intros H. unfold chunkEnd.
  destruct (start + m <? JS.length text) eqn:E; [|reflexivity].
  apply Z.ltb_lt in E. lia.
Qed.

Lemma nextStart_advances text m o start :
  0 <= o < m -> o <= m / 2 + 1 ->
  start < nextStart text m o start.
Proof.
  intros Ho Hhalf. unfold nextStart.
  pose proof (Z.mul_div_le m 2 ltac:(lia)) as Hd.
  destruct (chunkEnd_cases text m start) as [-> | H]; lia.
Qed.

(** More fuel does not change what the loop returns. *)
Lemma chunkLoop_more_fuel text m o :
  forall f1 f2 start chunks r,
    (f1 <= f2)%nat ->
    chunkLoop f1 text m o start chunks = Some r ->
    chunkLoop f2 text m o start chunks = Some r.
Proof.
  induction f1 as [|f1 IH]; intros f2 start chunks r Hle.
  - destruct f2; simpl; destruct (start <? JS.length text);
      try discriminate; auto.
  - destruct f2 as [|f2]; [lia|]. simpl.
    destruct (start <? JS.length text); [|auto].
    apply IH. lia.
Qed.

(** While the start advances, the loop returns after at most as many
    iterations as there are code units left. *)
Lemma chunkLoop_returns text m o :
  (forall start, start < nextStart text m o start) ->
  forall fuel start chunks,
    JS.length text - start <= Z.of_nat fuel ->
    exists r, chunkLoop fuel text m o start chunks = Some r.
Proof.
  intros Hadv. induction fuel as [|fuel IH]; intros start chunks Hf.
  - simpl. destruct (start <? JS.length text) eqn:E.
    + apply Z.ltb_lt in E. lia.
    + eauto.
  - simpl. destruct (start <? JS.length text) eqn:E; [|eauto].
    apply IH. specialize (Hadv start). lia.
Qed.

Lemma chunkText_more_fuel text m o f1 f2 r :
  (f1 <= f2)%nat ->
  chunkText f1 text m o = Some r -> chunkText f2 text m o = Some r.
Proof.
  unfold chunkText. intros Hle H.
  destruct (chunkLoop f1 text m o 0 []) as [c|] eqn:E; [|discriminate].
  rewrite (chunkLoop_more_fuel _ _ _ _ _ _ _ _ Hle E). exact H.
Qed.

(** With the defaults the chunker returns on every text. *)
Lemma chunkText_default_returns (text : jsstring) :
  exists chunks, chunkText_default text = Some chunks.
Proof.
  unfold chunkText_default, chunkText.
  destruct (chunkLoop_returns text 1000 100) with
    (fuel := List.length text) (start := 0) (chunks := @nil jsstring)
    as [r Hr].
  - intros start. apply nextStart_advances.
    + lia.
    + vm_compute. discriminate.
  - unfold JS.length. lia.
  - rewrite Hr. simpl. eauto.
Qed.

(** A text that fits in one window, and in what the window leaves after
    the overlap is taken back, gives its trimmed self, or nothing when
    that is empty. *)
Lemma chunkText_one_window text m o fuel :
  JS.length text <= m -> JS.length text <= m - o -> (1 <= fuel)%nat ->
  chunkText fuel text m o = Some (filter nonEmpty [trim text]).
Proof.
  intros Hm Hfit Hfuel. destruct fuel as [|fuel]; [lia|].
  unfold chunkText. simpl chunkLoop.
  destruct (0 <? JS.length text) eqn:E.
  - unfold nextStart, chunkAt. rewrite chunkEnd_last by lia.
    replace (0 + m) with m by lia.
    destruct fuel; simpl;
      (destruct (m - o <? JS.length text) eqn:E2;
       [apply Z.ltb_lt in E2; lia|]);
      simpl; rewrite slice_whole by lia; reflexivity.
  - apply Z.ltb_ge in E. pose proof (length_nonneg text) as Hn.
    destruct text; [reflexivity|].
    unfold JS.length in E. simpl in E. lia.
Qed.

(** With the defaults: a text of at most 900 code units is one chunk. *)
Lemma chunkText_default_fits (text : jsstring) :
  JS.length text <= 900 ->
  chunkText_default text = Some (filter nonEmpty [trim text]).
Proof.
  intros H. destruct text as [|c text]; [reflexivity|].
  apply chunkText_one_window; [lia | lia | simpl; lia].
Qed.

Example chunkText_short :
  chunkText 5 (lit "  hello. ") 1000 100 = Some [lit "hello."].
Proof. reflexivity. Qed.

Example chunkText_blank : chunkText 5 (lit "   ") 1000 100 = Some [].
Proof. reflexivity. Qed.

Example chunkText_breaks :
  chunkText 9 (lit "aaaaaaa. bbbbbbbbbbbb") 10 2
  = Some [lit "aaaaaaa."; lit ". bbbbbbbb"; lit "bbbbbb"].
Proof. reflexivity. Qed.

Example chunkText_tail_again :
  chunkText 6 (lit "abcdef") 6 2 = Some [lit "abcdef"; lit "ef"].
Proof. reflexivity. Qed.

(** C1: the claim is that a text of at most [maxChunkSize] code units
    gives exactly the one chunk [text.trim()].  On the code a text longer
    than [maxChunkSize - overlap] gives a second chunk: after the first
    window the start is set to [end - overlap], which is still inside the
    text, and the loop runs again over the tail.  Here a text of 950
    letters with the defaults (1000, 100) gives the text and then its last
    50 letters. *)
Theorem chunkText_short_text_two_chunks :
  let text := repeat 97%N 950 in
  JS.length text <= 1000
  /\ chunkText_default text = Some [trim text; repeat 97%N 50].
Proof. split; vm_compute; [discriminate | reflexivity]. Qed.

(** C3, as amended: for every text, every [maxChunkSize > 0] and every
    overlap with [0 <= overlap < maxChunkSize] and
    [overlap <= maxChunkSize / 2 + 1] (integer division), the start offset
    strictly advances on every iteration and [chunkText] returns: as many
    iterations as the text has code units are enough, and more fuel gives
    the same chunks. *)
Theorem chunkText_terminates (text : jsstring) (maxChunkSize overlap : Z) :
  0 < maxChunkSize ->
  0 <= overlap < maxChunkSize ->
  overlap <= maxChunkSize / 2 + 1 ->
  (forall start, start < nextStart text maxChunkSize overlap start)
  /\ exists chunks,
       forall fuel, (List.length text <= fuel)%nat ->
         chunkText fuel text maxChunkSize overlap = Some chunks.
Proof.
  intros Hm Ho Hhalf.
  assert (Hadv : forall start,
             start < nextStart text maxChunkSize overlap start)
    by (intros; apply nextStart_advances; assumption).
  split; [exact Hadv|].
  destruct (chunkLoop_returns text maxChunkSize overlap Hadv
              (List.length text) 0 []) as [r Hr].
  { unfold JS.length. lia. }
  exists (filter nonEmpty r). intros fuel Hfuel.
  apply chunkText_more_fuel with (f1 := List.length text); [exact Hfuel|].
  unfold chunkText. rewrite Hr. reflexivity.
Qed.

Lemma chunkText_terminates_witness :
  (forall start,
      start < nextStart (lit "aaaaaaa. bbbbbbbbbbbb") 10 6 start)
  /\ exists chunks,
       forall fuel,
         (List.length (lit "aaaaaaa. bbbbbbbbbbbb") <= fuel)%nat ->
         chunkText fuel (lit "aaaaaaa. bbbbbbbbbbbb") 10 6 = Some chunks.
Proof.
  apply (chunkText_terminates (lit "aaaaaaa. bbbbbbbbbbbb") 10 6).
  - lia.
  - lia.
  - vm_compute. discriminate.
Defined.

(** C3, as stated, fails: with [maxChunkSize = 5] and [overlap = 4] the
    line break at offset 3 ends the first chunk at offset 4, the next
    start is [4 - 4 = 0] again, and the loop never leaves. *)
Lemma chunkText_overlap_stalls :
  let text := lit "abc" ++ [LF] ++ lit "defgh" in
  (0 < 5 /\ 0 <= 4 < 5)
  /\ nextStart text 5 4 0 = 0
  /\ forall fuel, chunkText fuel text 5 4 = None.
Proof.
  cbv zeta. split; [lia|]. split; [reflexivity|].
  intros fuel. unfold chunkText.
  assert (H : forall chunks,
             chunkLoop fuel (lit "abc" ++ [LF] ++ lit "defgh") 5 4 0 chunks
             = None).
  { induction fuel as [|fuel IH]; intros chunks; [reflexivity|].
    change (chunkLoop (S fuel) (lit "abc" ++ [LF] ++ lit "defgh") 5 4 0 chunks)
      with (chunkLoop fuel (lit "abc" ++ [LF] ++ lit "defgh") 5 4 0
              (chunks ++ [lit "abc"])).
    apply IH. }
  rewrite H. reflexivity.
Qed.

(** ** The cache *)

Section MapFacts.

Variable V : Type.
Implicit Types (m : Mcp.jsmap V) (k : jsstring) (v : V).

Lemma mapGet_None_notin m k :
  Mcp.mapGet k m = None <-> ~ In k (Mcp.mapKeys m).
Proof.
  induction m as [|[k' v'] m IH]; simpl; [tauto|].
  destruct (JS.eqb k k') eqn:E.
  - apply eqb_eq in E. subst. split; [discriminate | intros H; elim H; auto].
  - apply eqb_neq in E. rewrite IH. intuition congruence.
Qed.

Lemma mapSet_absent m k v :
  ~ In k (Mcp.mapKeys m) -> Mcp.mapSet k v m = m ++ [(k, v)].
Proof.
  induction m as [|[k' v'] m IH]; simpl; intros H; [reflexivity|].
  destruct (JS.eqb k k') eqn:E.
  - apply eqb_eq in E. subst. elim H; auto.
  - rewrite IH by tauto. reflexivity.
Qed.

Lemma mapKeys_mapSet_present m k v :
  In k (Mcp.mapKeys m) -> Mcp.mapKeys (Mcp.mapSet k v m) = Mcp.mapKeys m.
Proof.
  induction m as [|[k' v'] m IH]; simpl; intros H; [tauto|].
  destruct (JS.eqb k k') eqn:E; simpl; [reflexivity|].
  apply eqb_neq in E. rewrite IH; [reflexivity|].
  destruct H; congruence.
Qed.

Lemma mapGet_mapSet_same m k v : Mcp.mapGet k (Mcp.mapSet k v m) = Some v.
Proof.
  induction m as [|[k' v'] m IH]; simpl.
  - rewrite eqb_refl. reflexivity.
  - destruct (JS.eqb k k') eqn:E; simpl; rewrite E; auto.
Qed.

Lemma mapKeys_mapDelete_incl m k x :
  In x (Mcp.mapKeys (Mcp.mapDelete k m)) -> In x (Mcp.mapKeys m).
Proof.
  induction m as [|[k' v'] m IH]; simpl; [tauto|].
  destruct (JS.eqb k k'); simpl; tauto.
Qed.

Lemma mapDelete_NoDup m k :
  NoDup (Mcp.mapKeys m) -> NoDup (Mcp.mapKeys (Mcp.mapDelete k m)).
Proof.
  induction m as [|[k' v'] m IH]; simpl; intros H; [constructor|].
  inversion H as [|? ? Hn Hd]; subst.
  destruct (JS.eqb k k'); simpl; [assumption|].
  constructor; [|auto].
  intros Hin. apply Hn. eapply mapKeys_mapDelete_incl; eauto.
Qed.

Lemma mapDelete_removes m k :
  NoDup (Mcp.mapKeys m) -> ~ In k (Mcp.mapKeys (Mcp.mapDelete k m)).
Proof.
  induction m as [|[k' v'] m IH]; simpl; intros H; [tauto|].
  inversion H as [|? ? Hn Hd]; subst.
  destruct (JS.eqb k k') eqn:E; simpl.
  - apply eqb_eq in E. subst. assumption.
  - apply eqb_neq in E. intros [Heq | Hin]; [congruence|].
    exact (IH Hd Hin).
Qed.

Lemma mapSet_NoDup m k v :
  NoDup (Mcp.mapKeys m) -> NoDup (Mcp.mapKeys (Mcp.mapSet k v m)).
Proof.
  intros H. destruct (in_dec (list_eq_dec N.eq_dec) k (Mcp.mapKeys m))
    as [Hin | Hout].
  - rewrite mapKeys_mapSet_present; assumption.
  - rewrite mapSet_absent by assumption.
    unfold Mcp.mapKeys in *. rewrite map_app. simpl.
    apply NoDup_app; [assumption | repeat constructor; simpl; tauto |].
    intros x Hx [<- | []]. exact (Hout Hx).
Qed.

Lemma mapSize_mapDelete_le m k :
  Mcp.mapSize (Mcp.mapDelete k m) <= Mcp.mapSize m.
Proof.
  unfold Mcp.mapSize.
  induction m as [|[k' v'] m IH]; simpl; [lia|].
  destruct (JS.eqb k k'); simpl List.length; lia.
Qed.

Lemma mapSize_mapSet_le m k v :
  Mcp.mapSize (Mcp.mapSet k v m) <= Mcp.mapSize m + 1.
Proof.
  unfold Mcp.mapSize.
  induction m as [|[k' v'] m IH]; simpl; [lia|].
  destruct (JS.eqb k k'); simpl List.length; lia.
Qed.

End MapFacts.

Section CacheFacts.

Variable V : Type.
Implicit Types (c : Mcp.cache V) (key : jsstring) (v : V).

(** The maps the server builds have no key twice. *)
Lemma setCache_NoDup c key v now :
  NoDup (Mcp.mapKeys c) -> NoDup (Mcp.mapKeys (Mcp.setCache c key v now)).
Proof.
  intros H. unfold Mcp.setCache. apply mapSet_NoDup.
  destruct (Mcp.mapSize c >? 100); [|assumption].
  destruct (Mcp.firstKey c); [apply mapDelete_NoDup|]; assumption.
Qed.

(** What the guard [cache.size > 100] does bound: 101 entries. *)
Lemma setCache_bound c key v now :
  Mcp.mapSize c <= 101 -> Mcp.mapSize (Mcp.setCache c key v now) <= 101.
Proof.
  intros H. unfold Mcp.setCache.
  destruct (Mcp.mapSize c >? 100) eqn:E.
  - destruct c as [|[k0 v0] c]; [discriminate|].
    cbn [Mcp.firstKey Mcp.mapDelete]. rewrite eqb_refl.
    eapply Z.le_trans; [apply mapSize_mapSet_le|].
    unfold Mcp.mapSize in *. simpl List.length in H. lia.
  - assert (Mcp.mapSize c <= 100).
    { destruct (Z.gtb_spec (Mcp.mapSize c) 100); [discriminate | lia]. }
    eapply Z.le_trans; [apply mapSize_mapSet_le|]. lia.
Qed.

(** Up to 101 distinct keys are inserted without any eviction. *)
Lemma setAll_no_eviction (kvs : list (jsstring * V * Z)) :
  forall c,
    NoDup (Mcp.mapKeys c ++ keysOf V kvs) ->
    (List.length c + List.length kvs <= 101)%nat ->
    Mcp.mapKeys (Mcp.setAll c kvs) = Mcp.mapKeys c ++ keysOf V kvs.
Proof.
  induction kvs as [|[[k v] t] kvs IH]; intros c Hnd Hlen; simpl.
  - rewrite app_nil_r. reflexivity.
  - simpl in Hlen.
    assert (Hout : ~ In k (Mcp.mapKeys c)).
    { intros Hin. apply NoDup_remove_2 in Hnd. apply Hnd.
      apply in_or_app. auto. }
    assert (Hset : Mcp.setCache c k v t
                   = c ++ [(k, Mcp.mkItem v (t + Mcp.CACHE_TTL))]).
    { unfold Mcp.setCache.
      destruct (Mcp.mapSize c >? 100) eqn:E.
      - unfold Mcp.mapSize in E.
        destruct (Z.gtb_spec (Z.of_nat (List.length c)) 100);
          [lia | discriminate].
      - apply mapSet_absent. assumption. }
    unfold Mcp.setAll in *. simpl fold_left. rewrite Hset.
    rewrite IH.
    + unfold Mcp.mapKeys. rewrite map_app, <- app_assoc. reflexivity.
    + unfold Mcp.mapKeys. rewrite map_app, <- app_assoc. exact Hnd.
    + rewrite List.length_app. simpl. lia.
Qed.

End CacheFacts.

Lemma distinctb_NoDup (l : list jsstring) : distinctb l = true -> NoDup l.
Proof.
  induction l as [|x l IH]; simpl; [constructor|].
  rewrite andb_true_iff, negb_true_iff. intros [Hx Hl].
  constructor; [|auto].
  intros Hin. assert (existsb (JS.eqb x) l = true); [|congruence].
  apply existsb_exists. exists x. split; [assumption | apply eqb_refl].
Qed.

(** C2: the claim is that the cache never holds more than 100 entries and
    that the 101st distinct key evicts the earliest one.  On the code the
    guard is [cache.size > 100], tested before the insertion: with 100
    entries nothing is evicted, and after the 101st distinct key the
    cache holds all 101 keys, the earliest one included. *)
Theorem setCache_holds_101 (V : Type) (kvs : list (jsstring * V * Z)) :
  NoDup (keysOf V kvs) ->
  List.length kvs = 101%nat ->
  Mcp.mapSize (Mcp.setAll [] kvs) = 101
  /\ Mcp.mapKeys (Mcp.setAll [] kvs) = keysOf V kvs.
Proof.
  intros Hnd Hlen.
  assert (H : Mcp.mapKeys (Mcp.setAll [] kvs) = keysOf V kvs).
  { apply (setAll_no_eviction V kvs []); simpl; [assumption | lia]. }
  split; [|exact H].
  unfold Mcp.mapSize.
  rewrite <- (List.length_map (@fst jsstring (Mcp.item V))).
  fold (Mcp.mapKeys (Mcp.setAll [] kvs)). rewrite H.
  unfold keysOf. rewrite List.length_map, Hlen. reflexivity.
Qed.

Lemma setCache_holds_101_witness :
  Mcp.mapSize (Mcp.setAll [] hundredAndOne) = 101
  /\ Mcp.mapKeys (Mcp.setAll [] hundredAndOne) = keysOf nat hundredAndOne.
Proof.
  apply (setCache_holds_101 nat hundredAndOne).
  - apply distinctb_NoDup. vm_compute. reflexivity.
  - reflexivity.
Defined.

(** C6: an entry inserted at time [T] (the TTL is 300000 ms) is returned
    unchanged, and the cache left as it is, by a lookup at [T + e] with
    [e < TTL]; a lookup at [T + TTL + e] with [e > 0] reports a miss and
    deletes the entry, so the key is absent afterwards. *)
Theorem getCached_ttl (V : Type) (c : Mcp.cache V) (key : jsstring) (v : V)
    (T e : Z) :
  NoDup (Mcp.mapKeys c) ->
  let c' := Mcp.setCache c key v T in
  Mcp.CACHE_TTL = 300000
  /\ (e < Mcp.CACHE_TTL -> Mcp.getCached c' key (T + e) = (Some v, c'))
  /\ (0 < e ->
      Mcp.getCached c' key (T + Mcp.CACHE_TTL + e)
      = (None, Mcp.mapDelete key c')
      /\ Mcp.mapGet key (Mcp.mapDelete key c') = None).
Proof.
  intros Hnd c'. split; [reflexivity|].
  assert (Hget : Mcp.mapGet key c'
                 = Some (Mcp.mkItem v (T + Mcp.CACHE_TTL)))
    by apply mapGet_mapSet_same.
  split.
  - intros He. unfold Mcp.getCached. rewrite Hget. simpl Mcp.expiresAt.
    destruct (Z.gtb_spec (T + e) (T + Mcp.CACHE_TTL)); [lia | reflexivity].
  - intros He. split.
    + unfold Mcp.getCached. rewrite Hget. simpl Mcp.expiresAt.
      destruct (Z.gtb_spec (T + Mcp.CACHE_TTL + e) (T + Mcp.CACHE_TTL));
        [reflexivity | lia].
    + apply mapGet_None_notin, mapDelete_removes.
      apply setCache_NoDup. assumption.
Qed.

Lemma getCached_ttl_witness :
  let c' := Mcp.setCache [(lit "a", Mcp.mkItem 1%nat 5)] (lit "q") 7%nat 1000 in
  Mcp.CACHE_TTL = 300000
  /\ (1 < Mcp.CACHE_TTL ->
      Mcp.getCached c' (lit "q") (1000 + 1) = (Some 7%nat, c'))
  /\ (0 < 1 ->
      Mcp.getCached c' (lit "q") (1000 + Mcp.CACHE_TTL + 1)
      = (None, Mcp.mapDelete (lit "q") c')
      /\ Mcp.mapGet (lit "q") (Mcp.mapDelete (lit "q") c') = None).
Proof.
  apply (getCached_ttl nat [(lit "a", Mcp.mkItem 1%nat 5)] (lit "q") 7%nat
           1000 1).
  apply distinctb_NoDup. reflexivity.
Defined.

Example getCached_at_expiry :
  Mcp.getCached (Mcp.setCache [] (lit "q") 7%nat 1000) (lit "q") 301000
  = (Some 7%nat, Mcp.setCache [] (lit "q") 7%nat 1000).
Proof. reflexivity. Qed.

(** ** Objects *)

Lemma get_set_same (k : jsstring) (v : jsvalue) (o : jsobject) :
  Obj.get k (Obj.set k v o) = Some v.
Proof.
  induction o as [|[k' v'] o IH]; simpl.
  - rewrite eqb_refl. reflexivity.
  - destruct (JS.eqb k k') eqn:E; simpl; rewrite E; auto.
Qed.

Lemma get_set_other (k k' : jsstring) (v : jsvalue) (o : jsobject) :
  k <> k' -> Obj.get k (Obj.set k' v o) = Obj.get k o.
Proof.
  intros Hne. induction o as [|[k0 v0] o IH]; simpl.
  - apply eqb_neq in Hne. rewrite Hne. reflexivity.
  - destruct (JS.eqb k' k0) eqn:E; simpl.
    + apply eqb_eq in E. subst k0. apply eqb_neq in Hne. rewrite Hne.
      reflexivity.
    + destruct (JS.eqb k k0); auto.
Qed.

(** ** The store pipeline *)

Section StoreFacts.

Variables embedding : Type.
Variable dateISO : nat -> jsstring.
Variable generateEmbeddings : list jsstring -> list embedding.

Abbreviation world := (Context.world embedding).
Abbreviation vector := (Context.vector embedding).

(** [chunks.map] returns one vector per chunk; the vector at position [k]
    carries the chunk, its index and the [k]-th reading of the clock. *)
Lemma mapWithIndex_assemble metadata embeddings total :
  forall chunks i (w : world),
  exists vectors,
    Context.mapWithIndex
      (Context.assemble dateISO metadata embeddings total) i chunks w
    = Some (vectors,
            Context.mkWorld (Context.upserts w) (Context.queries w)
              (Context.clockReads w + List.length chunks))
    /\ List.length vectors = List.length chunks
    /\ forall k v,
         nth_error vectors k = Some v ->
         exists chunk,
           nth_error chunks k = Some chunk
           /\ Context.metadata v
              = chunkMetadata metadata total chunk (i + k)
                  (dateISO (Context.clockReads w + k))
           /\ Context.id v
              = Context.generateId chunk
                  (Obj.set (lit "chunkIndex") (Context.natNum (i + k))
                     (spread metadata [])).
Proof.
  induction chunks as [|chunk chunks IH]; intros i w.
  - exists []. simpl. unfold Context.ret. rewrite Nat.add_0_r.
    destruct w; simpl. split; [reflexivity|]. split; [reflexivity|].
    intros [|k] v; discriminate.
  - destruct (IH (S i)
                (Context.mkWorld (Context.upserts w) (Context.queries w)
                   (S (Context.clockReads w)))) as (vs & Hrun & Hlen & Hnth).
    eexists (_ :: vs). split; [|split].
    + simpl. unfold Context.bind at 1. unfold Context.assemble at 1.
      unfold Context.bind at 1. unfold Context.newDateISO at 1.
      unfold Context.ret at 1. unfold Context.bind at 1.
      rewrite Hrun. unfold Context.ret. simpl.
      rewrite <- plus_n_Sm. reflexivity.
    + simpl. rewrite Hlen. reflexivity.
    + intros [|k] v Hv; simpl in Hv.
      * injection Hv as <-. exists chunk. simpl.
        rewrite !Nat.add_0_r. repeat split; reflexivity.
      * destruct (Hnth k v Hv) as (c & Hc & Hm & Hi).
        exists c. simpl in Hm. rewrite <- !plus_n_Sm.
        simpl in Hi. repeat split; assumption.
Qed.

(** The batches of the upsert loop from offset [i] on: they rebuild the
    rest of the array, none is empty or longer than 100, all but the last
    are full, and there are [ceil((n - i) / 100)] of them. *)
Lemma upsertLoop_batches (vectors : list vector) :
  forall fuel i (w : world),
    (List.length vectors - i <= fuel)%nat ->
    exists batches,
      Context.upsertLoop fuel vectors i w
      = Some (tt, Context.mkWorld (Context.upserts w ++ batches)
                    (Context.queries w) (Context.clockReads w))
      /\ concat batches = skipn i vectors
      /\ Forall (fun b => (1 <= List.length b <= 100)%nat) batches
      /\ List.length batches = ((List.length vectors - i + 99) / 100)%nat
      /\ (forall k b, nth_error batches k = Some b ->
            b = firstn 100 (skipn (i + 100 * k) vectors)).
Proof.
  induction fuel as [|fuel IH]; intros i w Hfuel.
  - exists []. simpl.
    destruct (Nat.ltb_spec i (List.length vectors)); [lia|].
    unfold Context.ret. rewrite app_nil_r. destruct w; simpl.
    split; [reflexivity|]. split; [rewrite skipn_all2 by lia; reflexivity|].
    split; [constructor|]. split.
    + replace (List.length vectors - i)%nat with 0%nat by lia. reflexivity.
    + intros [|k] b; discriminate.
  - cbn [Context.upsertLoop].
    destruct (Nat.ltb_spec i (List.length vectors)) as [Hlt | Hge].
    + unfold Context.bind, Context.upsert.
      destruct (IH (i + Context.batchSize)%nat
                  (Context.mkWorld
                     (Context.upserts w
                      ++ [Context.arraySlice vectors i (i + Context.batchSize)])
                     (Context.queries w) (Context.clockReads w)))
        as (bs & Hrun & Hcat & Hall & Hlen & Hnth).
      { unfold Context.batchSize. lia. }
      unfold Context.batchSize, Context.arraySlice in *.
      replace (i + 100 - i)%nat with 100%nat in * by lia.
      exists (firstn 100 (skipn i vectors) :: bs).
      split; [|split; [|split; [|split]]].
      * rewrite Hrun. cbn [Context.upserts Context.queries Context.clockReads].
        rewrite <- app_assoc. reflexivity.
      * cbn [concat]. rewrite Hcat.
        replace (i + 100)%nat with (100 + i)%nat by lia.
        rewrite <- skipn_skipn. apply firstn_skipn.
      * constructor; [|exact Hall].
        rewrite length_firstn, length_skipn. lia.
      * cbn [List.length]. rewrite Hlen.
        destruct (Nat.le_gt_cases (List.length vectors - i) 100) as [Hs|Hs].
        -- replace (List.length vectors - (i + 100))%nat with 0%nat by lia.
           assert ((List.length vectors - i + 99) / 100 = 1)%nat.
           { symmetry.
             apply Nat.div_unique with (r := (List.length vectors - i - 1)%nat);
               lia. }
           replace ((0 + 99) / 100)%nat with 0%nat by reflexivity. lia.
        -- replace (List.length vectors - i + 99)%nat
             with (1 * 100 + (List.length vectors - (i + 100) + 99))%nat by lia.
           rewrite Nat.div_add_l by lia. lia.
      * intros [|k] b Hb; cbn [nth_error] in Hb.
        -- injection Hb as <-. rewrite Nat.mul_0_r, Nat.add_0_r. reflexivity.
        -- rewrite (Hnth k b Hb). f_equal. f_equal. lia.
    + exists []. unfold Context.ret. rewrite app_nil_r. destruct w; simpl.
      split; [reflexivity|]. split; [rewrite skipn_all2 by lia; reflexivity|].
      split; [constructor|]. split.
      * replace (List.length vectors - i)%nat with 0%nat by lia. reflexivity.
      * intros [|k] b; discriminate.
Qed.

End StoreFacts.

Section StoreClaims.

Variables embedding : Type.
Variable dateISO : nat -> jsstring.
Variable generateEmbeddings : list jsstring -> list embedding.

Abbreviation world' := (Context.world embedding).
Abbreviation vector' := (Context.vector embedding).

(** [storeContext] returns on every text: it assembles one vector per
    chunk and then runs the upsert loop over them. *)
Lemma storeContext_runs text metadata (w : world') :
  exists chunks vectors w1 w2,
    chunkText_default text = Some chunks
    /\ Context.assembleAll dateISO generateEmbeddings metadata chunks w
       = Some (vectors, w1)
    /\ Context.upsertAll vectors w1 = Some (tt, w2)
    /\ Context.storeContext dateISO generateEmbeddings text metadata w
       = Some (map (@Context.id embedding) vectors, w2).
Proof.
  destruct (chunkText_default_returns text) as [chunks Hc].
  destruct (mapWithIndex_assemble embedding dateISO metadata
              (generateEmbeddings chunks) (List.length chunks) chunks 0%nat w)
    as (vectors & Hasm & _).
  destruct (upsertLoop_batches embedding vectors (List.length vectors) 0%nat
              (Context.mkWorld (Context.upserts w) (Context.queries w)
                 (Context.clockReads w + List.length chunks)))
    as (batches & Hup & _); [lia|].
  do 4 eexists. split; [exact Hc|]. split; [exact Hasm|].
  split; [exact Hup|].
  unfold Context.storeContext, Context.bind, Context.orDiverge.
  rewrite Hc. unfold Context.assembleAll. rewrite Hasm.
  unfold Context.upsertAll. rewrite Hup. reflexivity.
Qed.

Example upsertAll_250 :
  option_map
    (fun r => map (@List.length _) (Context.upserts (snd r)))
    (Context.upsertAll
       (map (fun i => Context.mkVector (toString (Z.of_nat i)) (Some i) [])
          (seq 0 250))
       (Context.mkWorld [] [] 0))
  = Some [100; 100; 50]%nat.
Proof. vm_compute. reflexivity. Qed.

(** C8, as amended: every vector assembled in one [storeContext] call
    carries [chunkIndex < totalChunks], with [totalChunks] the number of
    chunks of the call, and all vectors of the call agree on every
    metadata field other than [chunkIndex], [text] and [timestamp]; the
    vector at position [k] has index [k] and holds its own chunk as
    [text]. *)
Theorem storeContext_chunk_metadata text metadata (w : world') :
  exists chunks vectors w1 w2,
    chunkText_default text = Some chunks
    /\ Context.assembleAll dateISO generateEmbeddings metadata chunks w
       = Some (vectors, w1)
    /\ Context.upsertAll vectors w1 = Some (tt, w2)
    /\ Context.storeContext dateISO generateEmbeddings text metadata w
       = Some (map (@Context.id embedding) vectors, w2)
    /\ List.length vectors = List.length chunks
    /\ (forall k v,
          nth_error vectors k = Some v ->
          (k < List.length vectors)%nat
          /\ Obj.get (lit "chunkIndex") (Context.metadata v)
             = Some (JNum (Z.of_nat k))
          /\ Obj.get (lit "totalChunks") (Context.metadata v)
             = Some (JNum (Z.of_nat (List.length vectors)))
          /\ option_map JStr (nth_error chunks k)
             = Obj.get (lit "text") (Context.metadata v))
    /\ (forall v1 v2 key,
          In v1 vectors -> In v2 vectors ->
          key <> lit "chunkIndex" -> key <> lit "text" ->
          key <> lit "timestamp" ->
          Obj.get key (Context.metadata v1)
          = Obj.get key (Context.metadata v2)).
Proof.
  destruct (storeContext_runs text metadata w)
    as (chunks & vectors & w1 & w2 & Hc & Hasm & Hup & Hrun).
  exists chunks, vectors, w1, w2.
  do 4 (split; [assumption|]).
  destruct (mapWithIndex_assemble embedding dateISO metadata
              (generateEmbeddings chunks) (List.length chunks) chunks 0%nat w)
    as (vectors' & Hasm' & Hlen & Hnth).
  unfold Context.assembleAll in Hasm. rewrite Hasm' in Hasm.
  injection Hasm as -> _.
  assert (Hne1 : lit "chunkIndex" <> lit "totalChunks") by discriminate.
  assert (Hne2 : lit "chunkIndex" <> lit "timestamp") by discriminate.
  assert (Hne3 : lit "totalChunks" <> lit "timestamp") by discriminate.
  assert (Hne4 : lit "text" <> lit "timestamp") by discriminate.
  assert (Hne5 : lit "text" <> lit "totalChunks") by discriminate.
  assert (Hne6 : lit "text" <> lit "chunkIndex") by discriminate.
  split; [exact Hlen|]. split.
  - intros k v Hv. destruct (Hnth k v Hv) as (chunk & Hck & Hm & _).
    simpl in Hm. rewrite Hm, Hck, Hlen. unfold chunkMetadata.
    split; [apply nth_error_Some; congruence|].
    split; [|split].
    + rewrite get_set_other by exact Hne2.
      rewrite get_set_other by exact Hne1.
      apply get_set_same.
    + rewrite get_set_other by exact Hne3. apply get_set_same.
    + rewrite get_set_other by exact Hne4.
      rewrite get_set_other by exact Hne5.
      rewrite get_set_other by exact Hne6.
      rewrite get_set_same. reflexivity.
  - intros v1 v2 key H1 H2 Hk1 Hk2 Hk3.
    assert (Hbase : forall v, In v vectors ->
              Obj.get key (Context.metadata v)
              = if JS.eqb key (lit "totalChunks")
                then Some (Context.natNum (List.length chunks))
                else Obj.get key (spread metadata [])).
    { intros v Hv. apply In_nth_error in Hv. destruct Hv as [k Hv].
      destruct (Hnth k v Hv) as (chunk & _ & Hm & _).
      rewrite Hm. unfold chunkMetadata.
      rewrite get_set_other by exact Hk3.
      destruct (JS.eqb key (lit "totalChunks")) eqn:E.
      - apply eqb_eq in E. subst key. apply get_set_same.
      - apply eqb_neq in E. rewrite get_set_other by exact E.
        rewrite get_set_other by exact Hk1.
        apply get_set_other. exact Hk2. }
    rewrite (Hbase v1 H1), (Hbase v2 H2). reflexivity.
Qed.

End StoreClaims.

(** C8, as stated, fails: a text of 950 letters is stored as two chunks,
    and the two vectors differ in the metadata field [text] even when the
    clock stands still; when the clock ticks between the two chunks they
    differ in [timestamp] as well. *)
Lemma storeContext_metadata_differs :
  let text := repeat 97%N 950 in
  let metadata := [(lit "project", JStr (lit "p"))] in
  let embed := fun chunks : list jsstring => map (fun _ => tt) chunks in
  let still := fun _ : nat => lit "2024-01-01T00:00:00.000Z" in
  let ticking := fun k : nat =>
    lit "2024-01-01T00:00:00.00" ++ toString (Z.of_nat k) ++ lit "Z" in
  (exists v1 v2 ids w,
      Context.storeContext still embed text metadata (Context.mkWorld [] [] 0)
      = Some (ids, w)
      /\ Context.upserts w = [[v1; v2]]
      /\ Obj.get (lit "text") (Context.metadata v1)
         <> Obj.get (lit "text") (Context.metadata v2))
  /\ (exists v1 v2 ids w,
      Context.storeContext ticking embed text metadata (Context.mkWorld [] [] 0)
      = Some (ids, w)
      /\ Context.upserts w = [[v1; v2]]
      /\ Obj.get (lit "timestamp") (Context.metadata v1)
         <> Obj.get (lit "timestamp") (Context.metadata v2)).
Proof.
  cbv zeta. split.
  - do 4 eexists. split; [vm_compute; reflexivity|].
    split; [reflexivity|]. vm_compute. discriminate.
  - do 4 eexists. split; [vm_compute; reflexivity|].
    split; [reflexivity|]. vm_compute. discriminate.
Qed.

(** ** The search pipeline *)

Section SearchClaims.

Variables embedding score : Type.
Variable generateEmbedding : jsstring -> embedding.
Variable indexAnswer :
  Context.queryRequest embedding -> list (Context.indexMatch score).

(** C10: [searchContext] sends exactly one query, with the embedding of
    the query text, the given [topK] and [includeMetadata: true]; when
    the filter is the default or an object without keys the request has
    no filter ([undefined]), and a filter with at least one key is sent as
    it is. *)
Theorem searchContext_filter (q : jsstring)
    (filterArg : option Context.jsfilter) (topK : Z)
    (w : Context.world embedding) :
  exists request,
    Context.searchContext generateEmbedding indexAnswer q filterArg topK w
    = Some (map (@Context.toResult score) (indexAnswer request),
            Context.mkWorld (Context.upserts w)
              (Context.queries w ++ [request]) (Context.clockReads w))
    /\ Context.queryVector request = generateEmbedding q
    /\ Context.topK request = topK
    /\ Context.includeMetadata request = true
    /\ Context.filter request
       = match filterArg with
         | None | Some [] => None
         | Some (field :: rest) => Some (field :: rest)
         end.
Proof.
  exists (Context.searchRequest generateEmbedding q filterArg topK).
  split; [reflexivity|].
  do 3 (split; [reflexivity|]).
  destruct filterArg as [[|field rest]|]; reflexivity.
Qed.

(** Results whose type key is no property of [Object.prototype] are
    grouped in order: each bucket is the sublist of the results that
    belong to it, and [other] takes every key that is not a bucket. *)
Lemma groupLoop_partition (results : list (Context.searchResult score)) :
  Forall (fun r => Context.lookupGrouped (Context.typeKey r)
                   <> Context.Inherited) results ->
  forall g,
    Context.groupLoop results g
    = Context.Returned
        (Context.mkGrouped
           (Context.conversation g
              ++ filter (inBucket score Context.Conversation) results)
           (Context.code g ++ filter (inBucket score Context.Code) results)
           (Context.documentation g
              ++ filter (inBucket score Context.Documentation) results)
           (Context.other g ++ filter (inBucket score Context.Other) results)).
Proof.
  induction 1 as [|r results Hr _ IH]; intros g.
  - simpl. rewrite !app_nil_r. destruct g; reflexivity.
  - cbn [Context.groupLoop]. unfold Context.groupOne.
    assert (Hb : bucketOf score r
                 = match Context.lookupGrouped (Context.typeKey r) with
                   | Context.Own b => b
                   | _ => Context.Other
                   end) by reflexivity.
    destruct (Context.lookupGrouped (Context.typeKey r)) as [b| |];
      [|congruence|]; rewrite IH; cbn [filter];
      remember (filter (inBucket score Context.Conversation) results) as fc;
      remember (filter (inBucket score Context.Code) results) as fk;
      remember (filter (inBucket score Context.Documentation) results) as fd;
      remember (filter (inBucket score Context.Other) results) as fo;
      unfold inBucket; rewrite Hb; [destruct b|];
      cbn [Context.push Context.conversation Context.code
           Context.documentation Context.other];
      rewrite <- ?app_assoc; reflexivity.
Qed.

Lemma groupResults_partition (results : list (Context.searchResult score)) :
  Forall (fun r => Context.lookupGrouped (Context.typeKey r)
                   <> Context.Inherited) results ->
  Context.groupResults results
  = Context.Returned
      (Context.mkGrouped
         (filter (inBucket score Context.Conversation) results)
         (filter (inBucket score Context.Code) results)
         (filter (inBucket score Context.Documentation) results)
         (filter (inBucket score Context.Other) results)).
Proof.
  intros H. unfold Context.groupResults.
  rewrite groupLoop_partition by assumption. reflexivity.
Qed.

End SearchClaims.

Example grouping_of_four :
  let results :=
    map (@Context.toResult nat)
      [typed 1 "code"; typed 2 "code"; typed 3 "documentation";
       typed 4 "weird"] in
  exists g,
    Context.groupResults results = Context.Returned g
    /\ List.length (Context.code g) = 2%nat
    /\ List.length (Context.documentation g) = 1%nat
    /\ List.length (Context.other g) = 1%nat
    /\ List.length (Context.conversation g) = 0%nat.
Proof. cbv zeta. eexists. split; [vm_compute; reflexivity|]. auto. Qed.

(** C9: the claim is that every result whose type is not one of the
    named buckets lands in [other].  On the code [grouped] is an object
    literal, so [grouped[type]] also finds what [Object.prototype] holds:
    for a result of type [constructor] it is a function, which is truthy
    and has no [push], and the call throws a [TypeError] instead of
    returning the groups. *)
Theorem getRelevantContext_inherited_type_throws :
  let answer := fun _ : Context.queryRequest unit =>
                  [typed 1 "code"; typed 2 "constructor"] in
  Context.lookupGrouped
    (Context.typeKey (Context.toResult (typed 2 "constructor")))
  = Context.Inherited
  /\ Context.groupResults
       (map (@Context.toResult nat) [typed 1 "code"; typed 2 "constructor"])
     = Context.TypeError
  /\ option_map fst
       (Context.getRelevantContext (fun _ => tt) answer (lit "query")
          (Context.mkOptions None None None) (Context.mkWorld [] [] 0))
     = Some Context.TypeError.
Proof. cbv zeta. repeat split; vm_compute; reflexivity. Qed.

(** ** Decimal numerals *)

Lemma digits_fuel_spec :
  forall fuel n acc,
    (1 <= fuel)%nat -> (n < 2 ^ N.of_nat fuel)%N ->
    exists ds,
      digits_fuel fuel n acc = ds ++ acc
      /\ Forall isDigit ds /\ ds <> [] /\ valueOf ds = n.
Proof.
  induction fuel as [|fuel IH]; intros n acc Hf Hn; [lia|].
  cbn [digits_fuel]. destruct (N.ltb_spec n 10) as [Hlt | Hge].
  - exists [(48 + n mod 10)%N]. rewrite N.mod_small by lia.
    split; [reflexivity|].
    split; [constructor; [unfold isDigit; lia | constructor]|].
    split; [discriminate|]. unfold valueOf. cbn [fold_left]. lia.
  - assert (Hpow : (2 ^ N.of_nat (S fuel) = 2 * 2 ^ N.of_nat fuel)%N).
    { rewrite Nat2N.inj_succ, N.pow_succ_r'. reflexivity. }
    assert (Hdiv : (n / 10 < 2 ^ N.of_nat fuel)%N).
    { apply N.Div0.div_lt_upper_bound. lia. }
    assert (Hfuel : (1 <= fuel)%nat).
    { destruct fuel; [|lia]. simpl in Hn. lia. }
    destruct (IH (n / 10)%N ((48 + n mod 10)%N :: acc) Hfuel Hdiv)
      as (ds & Hrun & Hall & _ & Hval).
    exists (ds ++ [(48 + n mod 10)%N]).
    rewrite Hrun, <- app_assoc. split; [reflexivity|].
    pose proof (N.mod_lt n 10 ltac:(lia)) as Hmod.
    pose proof (N.div_mod n 10 ltac:(lia)) as Heq.
    revert Hval Hmod Heq. generalize (n mod 10)%N (n / 10)%N.
    intros r q Hval Hmod Heq.
    split; [|split].
    + apply Forall_app. split; [exact Hall|].
      constructor; [unfold isDigit; lia | constructor].
    + destruct ds; discriminate.
    + unfold valueOf in *. rewrite fold_left_app, Hval. cbn [fold_left].
      lia.
Qed.

Lemma digits_spec (n : N) :
  Forall isDigit (digits n) /\ digits n <> [] /\ valueOf (digits n) = n.
Proof.
  unfold digits.
  destruct (digits_fuel_spec (S (N.to_nat (N.log2 n))) n []) as (ds & H & Hs).
  - lia.
  - rewrite Nat2N.inj_succ, N2Nat.id.
    destruct n as [|p]; [reflexivity|]. apply N.log2_spec. lia.
  - rewrite H, app_nil_r. exact Hs.
Qed.

Lemma digits_inj (n m : N) : digits n = digits m -> n = m.
Proof.
  intros H. destruct (digits_spec n) as (_ & _ & <-).
  destruct (digits_spec m) as (_ & _ & <-). rewrite H. reflexivity.
Qed.

Lemma toString_inj (x y : Z) : toString x = toString y -> x = y.
Proof.
  assert (Hhead : forall n, exists c r, digits n = c :: r /\ isDigit c).
  { intros n. destruct (digits_spec n) as (Hall & Hne & _).
    destruct (digits n) as [|c r]; [congruence|].
    inversion Hall; subst. eauto. }
  destruct x as [|p|p], y as [|q|q]; simpl; intros H;
    try reflexivity;
    try (apply digits_inj in H; congruence);
    try (injection H as H; apply digits_inj in H; congruence);
    exfalso.
  all: try (destruct (Hhead 0%N) as (c & r & Hc & Hd); rewrite Hc in H;
            injection H as H _; unfold isDigit in Hd; lia).
  all: try (destruct (Hhead (N.pos p)) as (c & r & Hc & Hd);
            simpl Z.to_N in H; rewrite Hc in H;
            injection H as H _; unfold isDigit in Hd; lia).
  all: destruct (Hhead (N.pos q)) as (c & r & Hc & Hd);
       simpl Z.to_N in H; rewrite Hc in H;
       injection H as H _; unfold isDigit in Hd; lia.
Qed.

(** A numeral holds digits and at most a sign, so never an underscore. *)
Lemma toString_no_underscore (z : Z) : ~ In 95%N (toString z).
Proof.
  assert (Hd : forall n, ~ In 95%N (digits n)).
  { intros n Hin. destruct (digits_spec n) as (Hall & _).
    rewrite Forall_forall in Hall. specialize (Hall _ Hin).
    unfold isDigit in Hall. lia. }
  destruct z; unfold toString; [apply Hd | apply Hd |].
  intros [H | H]; [discriminate | exact (Hd _ H)].
Qed.

(** Two strings cut at their first underscore are equal part by part. *)
Lemma split_at_underscore (a b x y : jsstring) :
  ~ In 95%N a -> ~ In 95%N b ->
  a ++ 95%N :: x = b ++ 95%N :: y -> a = b /\ x = y.
Proof.
  revert b. induction a as [|c a IH]; intros [|d b] Ha Hb H;
    simpl in *.
  - injection H as ->. auto.
  - injection H as <- _. tauto.
  - injection H as -> _. tauto.
  - injection H as -> H. destruct (IH b) as [-> ->]; auto.
Qed.

(** ** The MCP store path *)

Section McpClaims.

Variable embedding : Type.
Variable dateNow : nat -> Z.
Variable dateISO : nat -> jsstring.
Variable random36 : nat -> jsstring.
Variable embeddingsCreate : jsstring -> embedding.

Abbreviation server' := (Mcp.server embedding).
Abbreviation embed' := (Mcp.generateEmbedding dateNow embeddingsCreate).
Abbreviation indexText' :=
  (Mcp.indexText dateNow dateISO random36 embeddingsCreate).

(** The cached embedding call draws no random number and upserts
    nothing. *)
Lemma generateEmbedding_frame (text : jsstring) (s : server') :
  Mcp.randomDraws (snd (embed' text s)) = Mcp.randomDraws s
  /\ Mcp.upserts (snd (embed' text s)) = Mcp.upserts s.
Proof.
  unfold Mcp.generateEmbedding.
  destruct (Mcp.getCached (Mcp.embeddingCache s) text
              (dateNow (Mcp.clockReads s))) as [[e|] c];
    destruct (Mcp.mapGet text (Mcp.embeddingCache s)); simpl; auto.
Qed.

Lemma freshId_inj (n1 n2 : Z) (r1 r2 : jsstring) :
  Mcp.freshId n1 r1 = Mcp.freshId n2 r2
  <-> n1 = n2 /\ slice r1 2 10 = slice r2 2 10.
Proof.
  unfold Mcp.freshId. split.
  - intros H. apply app_inv_head in H.
    change (lit "_") with [95%N] in H. simpl app in H.
    apply split_at_underscore in H; try apply toString_no_underscore.
    destruct H as [H1 H2]. apply toString_inj in H1. auto.
  - intros [-> ->]. reflexivity.
Qed.

(** C5, as amended: the id [indexText] gives a record is
    [ctx_<Date.now()>_<8 characters of a random draw>]; it is built from
    the clock and the random source and not from the arguments.  Two
    invocations with identical arguments have the same id exactly when
    both the clock reading and the random suffix coincide, and each
    invocation upserts one record under its own id. *)
Theorem indexText_ids (text project type : jsstring) (meta : jsobject)
    (s : server') :
  let first := indexText' text project type meta s in
  let second := indexText' text project type meta (snd first) in
  let now1 := dateNow (Mcp.clockReads (snd (embed' text s))) in
  let now2 := dateNow (Mcp.clockReads (snd (embed' text (snd first)))) in
  let random1 := random36 (Mcp.randomDraws s) in
  let random2 := random36 (S (Mcp.randomDraws s)) in
  fst first = Mcp.freshId now1 random1
  /\ fst second = Mcp.freshId now2 random2
  /\ (fst first = fst second
      <-> now1 = now2 /\ slice random1 2 10 = slice random2 2 10)
  /\ exists r1 r2,
       Mcp.upserts (snd second) = Mcp.upserts s ++ [[r1]; [r2]]
       /\ Mcp.id r1 = fst first /\ Mcp.id r2 = fst second.
Proof.
  intros first second now1 now2 random1 random2.
  assert (Hrun : forall s0 : server',
            fst (indexText' text project type meta s0)
            = Mcp.freshId (dateNow (Mcp.clockReads (snd (embed' text s0))))
                (random36 (Mcp.randomDraws s0))
            /\ Mcp.randomDraws (snd (indexText' text project type meta s0))
               = S (Mcp.randomDraws s0)
            /\ exists r,
                 Mcp.upserts (snd (indexText' text project type meta s0))
                 = Mcp.upserts s0 ++ [[r]]
                 /\ Mcp.id r = fst (indexText' text project type meta s0)).
  { intros s0. unfold Mcp.indexText.
    destruct (generateEmbedding_frame text s0) as [Hr Hu].
    destruct (embed' text s0) as [e s1]. simpl in Hr, Hu. simpl.
    rewrite Hr, Hu. split; [reflexivity|]. split; [reflexivity|].
    eexists. split; reflexivity. }
  destruct (Hrun s) as (H1 & Hd1 & r1 & Hu1 & Hi1).
  destruct (Hrun (snd first)) as (H2 & _ & r2 & Hu2 & Hi2).
  fold first in H1, Hd1, Hu1, Hi1. fold second in H2, Hu2, Hi2.
  rewrite Hd1 in H2. fold now1 random1 in H1. fold now2 random2 in H2.
  split; [exact H1|]. split; [exact H2|]. split.
  - rewrite H1, H2. apply freshId_inj.
  - exists r1, r2. rewrite Hu2, Hu1, <- app_assoc. auto.
Qed.

End McpClaims.

(** C5, as stated, fails: on a clock that moves on by one millisecond per
    reading, two invocations with the same arguments get two ids, and the
    index is sent two records. *)
Lemma indexText_ids_differ :
  let clock := fun k : nat => 1700000000000 + Z.of_nat k in
  let iso := fun _ : nat => lit "2023-11-14T22:13:20.000Z" in
  let random := fun _ : nat => lit "0.4fzyo82mvyr" in
  let run := Mcp.indexText clock iso random (fun _ => tt)
               (lit "remember this") (lit "p") (lit "note") [] in
  let first := run (Mcp.mkServer [] [] 0 0) in
  let second := run (snd first) in
  fst first = lit "ctx_1700000000001_4fzyo82m"
  /\ fst second = lit "ctx_1700000000004_4fzyo82m"
  /\ fst first <> fst second
  /\ List.length (Mcp.upserts (snd second)) = 2%nat.
Proof.
  cbv zeta. repeat split; try (vm_compute; reflexivity).
  vm_compute. discriminate.
Qed.

(** ** The identifier generator *)

(** *** Counting: more pigeons than holes *)



(** *** Hexadecimal digits *)






(** *** The digest is 32 hexadecimal digits *)







(** *** What is digested *)

Lemma set_nonempty (k : jsstring) (v : jsvalue) (o : jsobject) :
  Obj.set k v o <> [].
Proof.
  destruct o as [|[k' v'] o]; simpl; [discriminate|].
  destruct (JS.eqb k k'); discriminate.
Qed.

Lemma join_cons (sep p : jsstring) (l : list jsstring) :
  l <> [] -> Json.join sep (p :: l) = p ++ sep ++ Json.join sep l.
Proof. destruct l; [congruence | reflexivity]. Qed.

(** The serialisation of an object in which [k] was set to [v] is the
    serialisation of [v] between two strings that do not depend on [v]. *)
Lemma stringify_set_shape (k : jsstring) (o : jsobject) :
  exists pre post,
    forall v, Json.stringify (Obj.set k v o)
              = pre ++ Json.stringifyValue v ++ post.
Proof.
  assert (H : exists pre post,
             forall v,
               Json.join (lit ",") (map Json.stringifyProperty (Obj.set k v o))
               = pre ++ Json.stringifyValue v ++ post).
  { induction o as [|[k' v'] o IH].
    - exists (Json.quote k ++ lit ":"), []. intros v. simpl.
      unfold Json.stringifyProperty. simpl fst. simpl snd.
      rewrite app_nil_r, <- app_assoc. reflexivity.
    - cbn [Obj.set]. destruct (JS.eqb k k').
      + exists (Json.quote k' ++ lit ":").
        destruct o as [|p o].
        * exists []. intros v. simpl.
          unfold Json.stringifyProperty. simpl fst. simpl snd.
          rewrite app_nil_r, <- app_assoc. reflexivity.
        * exists (lit "," ++ Json.join (lit ",")
                                (map Json.stringifyProperty (p :: o))).
          intros v. cbn [map]. rewrite join_cons by discriminate.
          unfold Json.stringifyProperty at 1. simpl fst. simpl snd.
          rewrite <- !app_assoc. reflexivity.
      + destruct IH as (pre & post & IH).
        exists (Json.stringifyProperty (k', v') ++ lit "," ++ pre), post.
        intros v. cbn [map]. rewrite join_cons.
        * rewrite IH, <- !app_assoc. reflexivity.
        * intros Hnil. apply map_eq_nil in Hnil.
          exact (set_nonempty k v o Hnil). }
  destruct H as (pre & post & H).
  exists (lit "{" ++ pre), (post ++ lit "}"). intros v.
  unfold Json.stringify. rewrite H, <- !app_assoc. reflexivity.
Qed.

Lemma stringify_set_differs (text k : jsstring) (o : jsobject)
    (v1 v2 : jsvalue) :
  Json.stringifyValue v1 <> Json.stringifyValue v2 ->
  text ++ Json.stringify (Obj.set k v1 o)
  <> text ++ Json.stringify (Obj.set k v2 o).
Proof.
  intros Hne H. apply app_inv_head in H.
  destruct (stringify_set_shape k o) as (pre & post & Hs).
  rewrite !Hs in H. apply app_inv_head in H. apply app_inv_tail in H.
  exact (Hne H).
Qed.

(** *** Reading the serialisation back *)

Lemma hexIndex_hexDigit (n : N) :
  (n < 16)%N -> hexIndex (Json.hexDigit n) = n.
Proof.
  intros H. destruct n as [|p]; [reflexivity|].
  do 4 (destruct p as [p|p|]; try reflexivity); lia.
Qed.

Lemma unescape_unicodeEscape (c : N) (rest : jsstring) :
  (c < 65536)%N ->
  unescape (Json.unicodeEscape c ++ rest)
  = option_map (consFst c) (unescape rest).
Proof.
  intros Hc. unfold Json.unicodeEscape.
  change (lit "\u") with [92; 117]%N. cbn [app unescape].
  change (92 =? 34)%N with false. change (92 =? 92)%N with true.
  change (117 =? 117)%N with true. cbv iota.
  unfold decode4. rewrite !hexIndex_hexDigit by (apply N.mod_lt; discriminate).
  replace (4096 * (c / 4096 mod 16) + 256 * (c / 256 mod 16)
           + 16 * (c / 16 mod 16) + c mod 16)%N with c by div_lia.
  reflexivity.
Qed.

Lemma unescape_literal (c : N) (rest : jsstring) :
  c <> 34%N -> c <> 92%N ->
  unescape (c :: rest) = option_map (consFst c) (unescape rest).
Proof.
  intros H1 H2. cbn [unescape].
  apply N.eqb_neq in H1. apply N.eqb_neq in H2. rewrite H1, H2.
  reflexivity.
Qed.

(** Every escape is read back as the code unit it stands for. *)
Lemma unescape_escapeUnit (c : N) (rest : jsstring) :
  unescape (Json.escapeUnit c ++ rest)
  = option_map (consFst c) (unescape rest).
Proof.
  unfold Json.escapeUnit.
  destruct (N.eqb_spec c 8) as [->|H8]; [reflexivity|].
  destruct (N.eqb_spec c 9) as [->|H9]; [reflexivity|].
  destruct (N.eqb_spec c 10) as [->|H10]; [reflexivity|].
  destruct (N.eqb_spec c 12) as [->|H12]; [reflexivity|].
  destruct (N.eqb_spec c 13) as [->|H13]; [reflexivity|].
  destruct (N.eqb_spec c 34) as [->|H34]; [reflexivity|].
  destruct (N.eqb_spec c 92) as [->|H92]; [reflexivity|].
  destruct ((c <? 32)%N || Json.isLead c || Json.isTrail c) eqn:E.
  - apply unescape_unicodeEscape.
    unfold Json.isLead, Json.isTrail in E.
    destruct (N.ltb_spec c 32); [lia|].
    destruct (N.leb_spec c 56319); [lia|].
    destruct (N.leb_spec c 57343); [lia|].
    rewrite !andb_false_r in E. discriminate.
  - cbn [app]. apply unescape_literal; assumption.
Qed.

Lemma escape_cons (c d : N) (s : jsstring) :
  Json.escape (c :: d :: s)
  = if Json.isLead c && Json.isTrail d
    then c :: d :: Json.escape s
    else Json.escapeUnit c ++ Json.escape (d :: s).
Proof. reflexivity. Qed.

Lemma unescape_escape :
  forall (s r : jsstring),
    unescape (Json.escape s ++ 34%N :: r) = Some (s, r).
Proof.
  assert (H : forall n s r, (List.length s <= n)%nat ->
                            unescape (Json.escape s ++ 34%N :: r)
                            = Some (s, r)).
  { induction n as [|n IH]; intros s r Hlen.
    - destruct s; [reflexivity | simpl in Hlen; lia].
    - destruct s as [|c [|d s]]; [reflexivity | |].
      + cbn [Json.escape]. rewrite unescape_escapeUnit. reflexivity.
      + rewrite escape_cons.
        destruct (Json.isLead c && Json.isTrail d) eqn:E.
        * apply andb_true_iff in E. destruct E as [Ec Ed].
          unfold Json.isLead in Ec. unfold Json.isTrail in Ed.
          apply andb_true_iff in Ec. apply andb_true_iff in Ed.
          destruct Ec as [Ec _]. destruct Ed as [Ed _].
          apply N.leb_le in Ec. apply N.leb_le in Ed.
          cbn [app]. rewrite unescape_literal by lia.
          rewrite unescape_literal by lia.
          rewrite IH by (simpl in Hlen; lia). reflexivity.
        * rewrite <- app_assoc, unescape_escapeUnit.
          rewrite IH by (simpl in *; lia). reflexivity. }
  intros s r. apply (H (List.length s)). lia.
Qed.

Lemma quote_inj (s1 s2 r1 r2 : jsstring) :
  Json.quote s1 ++ r1 = Json.quote s2 ++ r2 -> s1 = s2 /\ r1 = r2.
Proof.
  unfold Json.quote. rewrite <- !app_assoc. cbn [app].
  intros [= H].
  pose proof (unescape_escape s1 r1) as H1. rewrite H in H1.
  rewrite unescape_escape in H1. injection H1 as -> ->. auto.
Qed.

Lemma toString_numeral (z : Z) : Forall numeralUnit (toString z).
Proof.
  assert (Hd : forall n, Forall numeralUnit (digits n)).
  { intros n. destruct (digits_spec n) as (Hall & _).
    eapply Forall_impl; [|exact Hall]. intros c Hc. left. exact Hc. }
  destruct z; unfold toString; [apply Hd | apply Hd |].
  constructor; [right; reflexivity | apply Hd].
Qed.

Lemma toString_head (z : Z) :
  exists c r, toString z = c :: r /\ numeralUnit c.
Proof.
  pose proof (toString_numeral z) as Hall.
  destruct (toString z) as [|c r] eqn:E.
  - exfalso. destruct z; unfold toString in E;
      try (destruct (digits_spec (Z.to_N 0)) as (_ & Hne & _); congruence);
      try (destruct (digits_spec (Z.to_N (Z.pos p))) as (_ & Hne & _);
           congruence).
  - inversion Hall; subst. eauto.
Qed.

Lemma split_numeral (a b x y : jsstring) :
  Forall numeralUnit a -> Forall numeralUnit b ->
  closes x -> closes y ->
  a ++ x = b ++ y -> a = b /\ x = y.
Proof.
  assert (Hc : forall t c r, closes t -> t = c :: r -> ~ numeralUnit c).
  { intros t c r (r0 & [-> | ->]) [= <- _] [Hd | Hd];
      unfold isDigit in *; lia. }
  revert b. induction a as [|c a IH]; intros [|d b] Ha Hb Hx Hy H;
    cbn [app] in H.
  - auto.
  - exfalso. inversion Hb; subst. exact (Hc _ _ _ Hx eq_refl H2).
  - exfalso. inversion Ha; subst. exact (Hc _ _ _ Hy eq_refl H2).
  - injection H as -> H. inversion Ha; inversion Hb; subst.
    destruct (IH b) as [-> ->]; auto.
Qed.

Lemma stringifyValue_head (v : jsvalue) :
  exists c r, Json.stringifyValue v = c :: r /\ headOf v c.
Proof.
  destruct v as [|[|]|z| |s]; try (do 2 eexists; split; reflexivity).
  destruct (toString_head z) as (c & r & E & Hc). exists c, r. auto.
Qed.

Lemma stringifyValue_inj (v1 v2 : jsvalue) (t1 t2 : jsstring) :
  v1 <> JNaN -> v2 <> JNaN -> closes t1 -> closes t2 ->
  Json.stringifyValue v1 ++ t1 = Json.stringifyValue v2 ++ t2 ->
  v1 = v2 /\ t1 = t2.
Proof.
  intros Hn1 Hn2 Hc1 Hc2 H.
  assert (Hhead : forall c, headOf v1 c -> headOf v2 c ->
            match v1, v2 with
            | JNull, JNull | JNum _, JNum _ | JStr _, JStr _ => True
            | JBool b1, JBool b2 => b1 = b2
            | _, _ => False
            end).
  { intros c K1 K2.
    destruct v1 as [|[|]|z1| |s1], v2 as [|[|]|z2| |s2];
      try congruence; cbn [headOf] in K1, K2;
      unfold numeralUnit, isDigit in *; try exact I; try reflexivity; lia. }
  destruct (stringifyValue_head v1) as (c1 & r1 & E1 & K1).
  destruct (stringifyValue_head v2) as (c2 & r2 & E2 & K2).
  assert (Hc : c1 = c2).
  { rewrite E1, E2 in H. cbn [app] in H. congruence. }
  subst c2. specialize (Hhead c1 K1 K2). clear E1 E2 K1 K2.
  destruct v1 as [|b1|z1| |s1], v2 as [|b2|z2| |s2]; try contradiction.
  - apply app_inv_head in H. auto.
  - subst b2. apply app_inv_head in H. auto.
  - cbn [Json.stringifyValue] in H.
    apply split_numeral in H; auto using toString_numeral.
    destruct H as [H ->]. apply toString_inj in H. subst. auto.
  - cbn [Json.stringifyValue] in H. apply quote_inj in H.
    destruct H as [-> ->]. auto.
Qed.

Lemma stringifyRest_closes (o : jsobject) : closes (stringifyRest o).
Proof. destruct o; eexists; [right | left]; reflexivity. Qed.

Lemma stringifyProperty_inj (kv1 kv2 : jsstring * jsvalue)
    (t1 t2 : jsstring) :
  snd kv1 <> JNaN -> snd kv2 <> JNaN -> closes t1 -> closes t2 ->
  Json.stringifyProperty kv1 ++ t1 = Json.stringifyProperty kv2 ++ t2 ->
  kv1 = kv2 /\ t1 = t2.
Proof.
  destruct kv1 as [k1 v1], kv2 as [k2 v2]. unfold Json.stringifyProperty.
  cbn [fst snd]. intros Hn1 Hn2 Hc1 Hc2 H.
  rewrite <- !app_assoc in H. apply quote_inj in H. destruct H as [-> H].
  apply app_inv_head in H.
  apply stringifyValue_inj in H; auto. destruct H as [-> ->]. auto.
Qed.

Lemma stringifyRest_inj (o1 o2 : jsobject) :
  finite o1 -> finite o2 ->
  stringifyRest o1 = stringifyRest o2 -> o1 = o2.
Proof.
  revert o2. induction o1 as [|kv1 o1 IH]; intros [|kv2 o2] H1 H2 H;
    try reflexivity; try discriminate.
  cbn [stringifyRest] in H. apply app_inv_head in H.
  inversion H1; inversion H2; subst.
  apply stringifyProperty_inj in H; auto using stringifyRest_closes.
  destruct H as [-> H]. f_equal. apply IH; assumption.
Qed.

Lemma stringify_rest (kv : jsstring * jsvalue) (o : jsobject) :
  Json.stringify (kv :: o)
  = lit "{" ++ Json.stringifyProperty kv ++ stringifyRest o.
Proof.
  unfold Json.stringify. f_equal. revert kv.
  induction o as [|kv' o IH]; intros kv; [reflexivity|].
  cbn [map]. rewrite join_cons by discriminate.
  cbn [map] in IH. rewrite <- !app_assoc, IH. reflexivity.
Qed.

(** [JSON.stringify] tells objects of finite scalars apart. *)
Lemma stringify_inj (o1 o2 : jsobject) :
  finite o1 -> finite o2 ->
  Json.stringify o1 = Json.stringify o2 -> o1 = o2.
Proof.
  intros H1 H2 H. destruct o1 as [|kv1 o1], o2 as [|kv2 o2];
    try reflexivity.
  - rewrite stringify_rest in H. destruct kv2. discriminate.
  - rewrite stringify_rest in H. destruct kv1. discriminate.
  - rewrite !stringify_rest in H. apply app_inv_head in H.
    inversion H1; inversion H2; subst.
    apply stringifyProperty_inj in H; auto using stringifyRest_closes.
    destruct H as [-> H]. f_equal. apply stringifyRest_inj; assumption.
Qed.

(** *** The bytes that are digested *)

Lemma wellFormed_app (a b : jsstring) :
  wellFormed a -> wellFormed b -> wellFormed (a ++ b).
Proof.
  induction 1; intros Hb; cbn [app]; [assumption | |].
  - apply wf_unit; auto.
  - apply wf_pair; auto.
Qed.

(** A string of code units without surrogates is well formed. *)
Lemma wellFormed_plain (s : jsstring) :
  Forall (fun c => isUnit c /\ Json.isLead c = false
                   /\ Json.isTrail c = false) s ->
  wellFormed s.
Proof.
  induction 1 as [|c s (Hu & Hl & Ht) _ IH]; [constructor|].
  apply wf_unit; assumption.
Qed.

Lemma wellFormed_ascii (s : jsstring) :
  Forall (fun c => (c < 128)%N) s -> wellFormed s.
Proof.
  intros H. apply wellFormed_plain. eapply Forall_impl; [|exact H].
  intros c Hc. cbv beta in Hc. unfold isUnit, Json.isLead, Json.isTrail.
  split; [lia|].
  destruct (N.leb_spec 55296 c); [lia|].
  destruct (N.leb_spec 56320 c); [lia|]. auto.
Qed.

Lemma hexDigit_ascii (n : N) : (Json.hexDigit n < 128)%N.
Proof.
  unfold Json.hexDigit.
  destruct (Nat.lt_ge_cases (N.to_nat n) 16) as [H | H].
  - assert (Hin : In (nth (N.to_nat n) (lit "0123456789abcdef") 48%N)
                     (lit "0123456789abcdef")) by (apply nth_In; exact H).
    revert Hin. generalize (nth (N.to_nat n) (lit "0123456789abcdef") 48%N).
    intros c Hc. simpl in Hc.
    repeat (destruct Hc as [<- | Hc]; [reflexivity|]). contradiction.
  - rewrite nth_overflow by exact H. reflexivity.
Qed.

Lemma escapeUnit_wellFormed (c : N) :
  isUnit c -> wellFormed (Json.escapeUnit c).
Proof.
  intros Hu. unfold Json.escapeUnit.
  repeat match goal with
         | |- context [if (c =? ?k)%N then _ else _] =>
             destruct (c =? k)%N;
             [apply wellFormed_ascii; repeat constructor|]
         end.
  destruct ((c <? 32)%N || Json.isLead c || Json.isTrail c) eqn:E.
  - apply wellFormed_ascii. unfold Json.unicodeEscape.
    repeat constructor; apply hexDigit_ascii.
  - apply orb_false_iff in E. destruct E as [E Ht].
    apply orb_false_iff in E. destruct E as [_ Hl].
    apply wf_unit; auto. constructor.
Qed.

Lemma escape_wellFormed :
  forall s, Forall isUnit s -> wellFormed (Json.escape s).
Proof.
  assert (H : forall n s, (List.length s <= n)%nat -> Forall isUnit s ->
                          wellFormed (Json.escape s)).
  { induction n as [|n IH]; intros s Hlen Hu.
    - destruct s; [constructor | simpl in Hlen; lia].
    - destruct s as [|c [|d s]]; [constructor | |].
      + inversion Hu; subst. apply escapeUnit_wellFormed. assumption.
      + rewrite escape_cons. inversion Hu as [|? ? Hc Hu']; subst.
        destruct (Json.isLead c && Json.isTrail d) eqn:E.
        * apply andb_true_iff in E. destruct E as [Ec Ed].
          inversion Hu'; subst.
          apply wf_pair; auto. apply IH; [simpl in *; lia | assumption].
        * apply wellFormed_app; [apply escapeUnit_wellFormed; assumption|].
          apply IH; [simpl in *; lia | assumption]. }
  intros s. apply (H (List.length s)). lia.
Qed.

Lemma quote_wellFormed (s : jsstring) :
  Forall isUnit s -> wellFormed (Json.quote s).
Proof.
  intros H. unfold Json.quote.
  apply wellFormed_app; [apply wellFormed_ascii; repeat constructor|].
  apply wellFormed_app; [apply escape_wellFormed; exact H|].
  apply wellFormed_ascii; repeat constructor.
Qed.

Lemma toString_wellFormed (z : Z) : wellFormed (toString z).
Proof.
  apply wellFormed_ascii. eapply Forall_impl; [|apply toString_numeral].
  intros c [Hc | ->]; unfold isDigit in *; lia.
Qed.

Lemma stringifyValue_wellFormed (v : jsvalue) :
  plainValue v -> wellFormed (Json.stringifyValue v).
Proof.
  destruct v as [|[|]|z| |s]; cbn [plainValue Json.stringifyValue];
    intros H;
    try (apply wellFormed_ascii; repeat constructor; fail).
  - apply toString_wellFormed.
  - apply quote_wellFormed. exact H.
Qed.

Lemma stringifyRest_wellFormed (o : jsobject) :
  plain o -> wellFormed (stringifyRest o).
Proof.
  induction 1 as [|[k v] o [Hk Hv] _ IH]; cbn [stringifyRest].
  - apply wellFormed_ascii; repeat constructor.
  - apply wellFormed_app; [apply wellFormed_ascii; repeat constructor|].
    unfold Json.stringifyProperty. cbn [fst snd] in *.
    rewrite <- !app_assoc.
    apply wellFormed_app; [apply quote_wellFormed; exact Hk|].
    apply wellFormed_app; [apply wellFormed_ascii; repeat constructor|].
    apply wellFormed_app; [apply stringifyValue_wellFormed; exact Hv|].
    exact IH.
Qed.

Lemma stringify_wellFormed (o : jsobject) :
  plain o -> wellFormed (Json.stringify o).
Proof.
  intros H. destruct o as [|[k v] o].
  - apply wellFormed_ascii; repeat constructor.
  - rewrite stringify_rest. inversion H as [|? ? [Hk Hv] Ho]; subst.
    cbn [fst snd] in *.
    apply wellFormed_app; [apply wellFormed_ascii; repeat constructor|].
    unfold Json.stringifyProperty. cbn [fst snd]. rewrite <- !app_assoc.
    apply wellFormed_app; [apply quote_wellFormed; exact Hk|].
    apply wellFormed_app; [apply wellFormed_ascii; repeat constructor|].
    apply wellFormed_app; [apply stringifyValue_wellFormed; exact Hv|].
    apply stringifyRest_wellFormed. exact Ho.
Qed.

Lemma utf8_unit (c : N) (s : jsstring) :
  Json.isLead c = false -> Json.isTrail c = false ->
  Md5.utf8 (c :: s) = Md5.utf8Point c ++ Md5.utf8 s.
Proof. intros Hl Ht. cbn [Md5.utf8]. rewrite Hl, Ht. reflexivity. Qed.

Lemma utf8_pair (c d : N) (s : jsstring) :
  Json.isLead c = true -> Json.isTrail d = true ->
  Md5.utf8 (c :: d :: s)
  = Md5.utf8Point (65536 + (c - 55296) * 1024 + (d - 56320)) ++ Md5.utf8 s.
Proof. intros Hl Ht. cbn [Md5.utf8]. rewrite Hl, Ht. reflexivity. Qed.

Lemma utf8_lone_lead (c : N) (s : jsstring) :
  Json.isLead c = true ->
  match s with d :: _ => Json.isTrail d = false | [] => True end ->
  Md5.utf8 (c :: s) = Md5.utf8Point 65533 ++ Md5.utf8 s.
Proof.
  intros Hl Hs. cbn [Md5.utf8]. rewrite Hl.
  destruct s as [|d s]; [rewrite app_nil_r; reflexivity|].
  rewrite Hs. reflexivity.
Qed.

Lemma utf8_app_wellFormed (a b : jsstring) :
  wellFormed a -> Md5.utf8 (a ++ b) = Md5.utf8 a ++ Md5.utf8 b.
Proof.
  induction 1 as [|c s Hu Hl Ht _ IH|c d s Hl Ht _ IH]; cbn [app].
  - reflexivity.
  - rewrite !utf8_unit, IH, app_assoc by assumption. reflexivity.
  - rewrite !utf8_pair, IH, app_assoc by assumption. reflexivity.
Qed.

(** Appending a string that does not start with the second half of a pair
    appends its bytes, whatever the first string ends with. *)
Lemma utf8_app_text :
  forall (text b : jsstring) (c : N),
    Json.isTrail c = false ->
    Md5.utf8 (text ++ c :: b) = Md5.utf8 text ++ Md5.utf8 (c :: b).
Proof.
  assert (H : forall n text b c,
             (List.length text <= n)%nat -> Json.isTrail c = false ->
             Md5.utf8 (text ++ c :: b)
             = Md5.utf8 text ++ Md5.utf8 (c :: b)).
  { induction n as [|n IH]; intros text b c Hlen Hc.
    - destruct text; [reflexivity | simpl in Hlen; lia].
    - destruct text as [|x text]; [reflexivity|].
      assert (Hrest : forall t, (List.length t <= n)%nat ->
                Md5.utf8 (t ++ c :: b) = Md5.utf8 t ++ Md5.utf8 (c :: b))
        by (intros t Ht; apply IH; assumption).
      cbn [app]. destruct (Json.isLead x) eqn:Hx.
      + destruct text as [|y text].
        * cbn [app]. rewrite (utf8_lone_lead x (c :: b)) by assumption.
          rewrite (utf8_lone_lead x []) by auto.
          rewrite <- app_assoc. reflexivity.
        * cbn [app]. destruct (Json.isTrail y) eqn:Hy.
          -- rewrite !utf8_pair by assumption.
             rewrite Hrest by (simpl in *; lia).
             rewrite app_assoc. reflexivity.
          -- rewrite (utf8_lone_lead x (y :: text ++ c :: b)) by assumption.
             rewrite (utf8_lone_lead x (y :: text)) by assumption.
             change (y :: text ++ c :: b) with ((y :: text) ++ c :: b).
             rewrite Hrest by (simpl in *; lia).
             rewrite app_assoc. reflexivity.
      + assert (Hstep : forall r,
                  Md5.utf8 (x :: r)
                  = (if Json.isTrail x then Md5.utf8Point 65533
                     else Md5.utf8Point x) ++ Md5.utf8 r).
        { intros r. cbn [Md5.utf8]. rewrite Hx.
          destruct (Json.isTrail x); reflexivity. }
        rewrite !Hstep. rewrite Hrest by (simpl in *; lia).
        rewrite app_assoc. reflexivity. }
  intros text b c. apply (H (List.length text)). lia.
Qed.

Lemma decodeUtf8_point (p : N) (rest : list N) :
  isUnit p -> Json.isLead p = false -> Json.isTrail p = false ->
  decodeUtf8 (Md5.utf8Point p ++ rest) = p :: decodeUtf8 rest.
Proof.
  unfold isUnit, Md5.utf8Point. intros Hu _ _.
  destruct (N.ltb_spec p 128) as [H1 | H1].
  - cbn [app decodeUtf8]. destruct (N.ltb_spec p 128); [reflexivity | lia].
  - destruct (N.ltb_spec p 2048) as [H2 | H2].
    + cbn [app decodeUtf8].
      destruct (N.ltb_spec (192 + p / 64) 128); [div_lia|].
      destruct (N.ltb_spec (192 + p / 64) 224); [|div_lia].
      f_equal. div_lia.
    + destruct (N.ltb_spec p 65536) as [H3 | H3]; [|lia].
      cbn [app decodeUtf8].
      destruct (N.ltb_spec (224 + p / 4096) 128); [div_lia|].
      destruct (N.ltb_spec (224 + p / 4096) 224); [div_lia|].
      destruct (N.ltb_spec (224 + p / 4096) 240); [|div_lia].
      f_equal. div_lia.
Qed.

Lemma decodeUtf8_pair (c d : N) (rest : list N) :
  Json.isLead c = true -> Json.isTrail d = true ->
  decodeUtf8
    (Md5.utf8Point (65536 + (c - 55296) * 1024 + (d - 56320)) ++ rest)
  = c :: d :: decodeUtf8 rest.
Proof.
  unfold Json.isLead, Json.isTrail. intros Hc Hd.
  apply andb_true_iff in Hc. apply andb_true_iff in Hd.
  destruct Hc as [Hc1 Hc2]. destruct Hd as [Hd1 Hd2].
  apply N.leb_le in Hc1, Hc2, Hd1, Hd2.
  set (p := (65536 + (c - 55296) * 1024 + (d - 56320))%N).
  assert (Hp : (65536 <= p < 1114112)%N) by (unfold p; lia).
  unfold Md5.utf8Point.
  destruct (N.ltb_spec p 128); [lia|].
  destruct (N.ltb_spec p 2048); [lia|].
  destruct (N.ltb_spec p 65536); [lia|].
  cbn [app decodeUtf8].
  destruct (N.ltb_spec (240 + p / 262144) 128); [div_lia|].
  destruct (N.ltb_spec (240 + p / 262144) 224); [div_lia|].
  destruct (N.ltb_spec (240 + p / 262144) 240); [div_lia|].
  cbv zeta.
  replace ((240 + p / 262144 - 240) * 262144
           + (128 + p / 4096 mod 64 - 128) * 4096
           + (128 + p / 64 mod 64 - 128) * 64
           + (128 + p mod 64 - 128))%N with p by div_lia.
  f_equal; [|f_equal]; unfold p; div_lia.
Qed.

Lemma decodeUtf8_utf8 (s : jsstring) :
  wellFormed s -> decodeUtf8 (Md5.utf8 s) = s.
Proof.
  induction 1 as [|c s Hu Hl Ht _ IH|c d s Hl Ht _ IH].
  - reflexivity.
  - rewrite utf8_unit, decodeUtf8_point, IH by assumption. reflexivity.
  - rewrite utf8_pair, decodeUtf8_pair, IH by assumption. reflexivity.
Qed.

Lemma utf8_inj (a b : jsstring) :
  wellFormed a -> wellFormed b -> Md5.utf8 a = Md5.utf8 b -> a = b.
Proof.
  intros Ha Hb H. rewrite <- (decodeUtf8_utf8 a Ha), H.
  apply decodeUtf8_utf8. exact Hb.
Qed.

Lemma plain_finite (o : jsobject) : plain o -> finite o.
Proof.
  intros H. eapply Forall_impl; [|exact H].
  intros [k v] [_ Hv] E. cbn [snd] in *. subst v. exact Hv.
Qed.

(** The bytes MD5 is applied to differ for metadata with different
    [chunkIndex]. *)
Lemma digested_bytes_differ (text : jsstring) (m1 m2 : jsobject) :
  plain m1 -> plain m2 ->
  Obj.get (lit "chunkIndex") m1 <> Obj.get (lit "chunkIndex") m2 ->
  Md5.utf8 (text ++ Json.stringify m1)
  <> Md5.utf8 (text ++ Json.stringify m2).
Proof.
  intros Hp1 Hp2 Hne H.
  pose proof (plain_finite m1 Hp1) as Hf1.
  pose proof (plain_finite m2 Hp2) as Hf2.
  assert (Hbrace : forall o, exists r,
             Json.stringify o = 123%N :: r) by (intros o; eexists; reflexivity).
  destruct (Hbrace m1) as [r1 E1]. destruct (Hbrace m2) as [r2 E2].
  rewrite E1, E2 in H. rewrite !utf8_app_text in H by reflexivity.
  apply app_inv_head in H. rewrite <- E1, <- E2 in H.
  apply utf8_inj in H; try (apply stringify_wellFormed; assumption).
  apply stringify_inj in H; [|assumption|assumption].
  subst m2. exact (Hne eq_refl).
Qed.


Example digested_apart :
  Md5.utf8 (lit "x" ++ Json.stringify
                         [(lit "project", JStr (lit "p"));
                          (lit "chunkIndex", JNum 0)])
  <> Md5.utf8 (lit "x" ++ Json.stringify
                            [(lit "chunkIndex", JNum 1);
                             (lit "project", JStr (lit "p"))]).
Proof.
  apply digested_bytes_differ.
  - repeat constructor.
  - repeat constructor.
  - discriminate.
Qed.

(** In particular for the metadata [storeContext] digests for two chunks:
    the same fields, and two indices. *)
Lemma chunk_indices_digested_apart (text : jsstring) (metadata : jsobject)
    (i j : nat) :
  i <> j ->
  text ++ Json.stringify
            (Obj.set (lit "chunkIndex") (Context.natNum i) metadata)
  <> text ++ Json.stringify
               (Obj.set (lit "chunkIndex") (Context.natNum j) metadata).
Proof.
  intros Hij. apply stringify_set_differs.
  simpl. intros H. apply toString_inj in H. lia.
Qed.

Example generateId_hello :
  Context.generateId (lit "hello") [(lit "chunkIndex", JNum 0)]
  = lit "ctx_b7a8b5d9bd68310d".
Proof. vm_compute. reflexivity. Qed.

Example stringify_escapes :
  Json.stringify
    [(lit "a" ++ [34; 92; 10]%N, JStr [233; 1; 9; 55357; 56832; 55357]%N);
     (lit "n", JNum (-5)); (lit "t", JBool true); (lit "z", JNull)]
  = lit "{" ++ [34%N] ++ lit "a\" ++ [34%N] ++ lit "\\\n" ++ [34%N]
    ++ lit ":" ++ [34; 233]%N ++ lit "\u0001\t" ++ [55357; 56832]%N
    ++ lit "\ud83d" ++ [34%N] ++ lit ","
    ++ [34%N] ++ lit "n" ++ [34%N] ++ lit ":-5,"
    ++ [34%N] ++ lit "t" ++ [34%N] ++ lit ":true,"
    ++ [34%N] ++ lit "z" ++ [34%N] ++ lit ":null}".
Proof. vm_compute. reflexivity. Qed.

Example utf8_points :
  Md5.utf8 [65; 233; 8364; 55357; 56832; 55357; 66]%N
  = [65; 195; 169; 226; 130; 172; 240; 159; 152; 128; 239; 191; 189; 66]%N.
Proof. vm_compute. reflexivity. Qed.

Example md5_empty : Md5.md5hex [] = lit "d41d8cd98f00b204e9800998ecf8427e".
Proof. vm_compute. reflexivity. Qed.

Example md5_abc :
  Md5.md5hex (lit "abc") = lit "900150983cd24fb0d6963f7d28e17f72".
Proof. vm_compute. reflexivity. Qed.

Example md5_two_blocks :
  Md5.md5hex (repeat 97%N 100) = lit "36a92cc94a9e0fa21f625f8bfb007adf".
Proof. vm_compute. reflexivity. Qed.


(* ===================================================================== *)
(** * Further properties of the sources *)
(* ===================================================================== *)

(** ** The cache: what an insertion and a lookup leave alone *)

Section MoreMapFacts.

Variable V : Type.
Implicit Types (m : Mcp.jsmap V) (k : jsstring) (v : V).

Lemma mapGet_mapSet_other m k k' v :
  k' <> k -> Mcp.mapGet k' (Mcp.mapSet k v m) = Mcp.mapGet k' m.
Proof.
  intros Hne. induction m as [|[k0 v0] m IH]; simpl.
  - apply eqb_neq in Hne. rewrite Hne. reflexivity.
  - destruct (JS.eqb k k0) eqn:E; simpl.
    + apply eqb_eq in E. subst k0. apply eqb_neq in Hne. rewrite Hne.
      reflexivity.
    + destruct (JS.eqb k' k0); auto.
Qed.

Lemma mapGet_mapDelete_other m k k' :
  k' <> k -> Mcp.mapGet k' (Mcp.mapDelete k m) = Mcp.mapGet k' m.
Proof.
  intros Hne. induction m as [|[k0 v0] m IH]; simpl; [reflexivity|].
  destruct (JS.eqb k k0) eqn:E; simpl.
  - apply eqb_eq in E. subst k0. apply eqb_neq in Hne. rewrite Hne.
    reflexivity.
  - destruct (JS.eqb k' k0); auto.
Qed.

Lemma mapDelete_present_length m k :
  In k (Mcp.mapKeys m) ->
  S (List.length (Mcp.mapDelete k m)) = List.length m.
Proof.
  induction m as [|[k0 v0] m IH]; simpl; [tauto|].
  destruct (JS.eqb k k0) eqn:E; simpl; [reflexivity|].
  apply eqb_neq in E. intros [H | H]; [congruence|].
  rewrite IH by assumption. reflexivity.
Qed.

Lemma mapGet_Some_in m k v :
  Mcp.mapGet k m = Some v -> In k (Mcp.mapKeys m).
Proof.
  intros H. destruct (in_dec (list_eq_dec N.eq_dec) k (Mcp.mapKeys m))
    as [Hin | Hout]; [assumption|].
  apply mapGet_None_notin in Hout. congruence.
Qed.

End MoreMapFacts.

(** X1: once the cache holds more than 100 entries, the insertion of a
    new key removes exactly the entry that was inserted first and puts
    the new one last; a hit on that first entry just before does not
    protect it, since a lookup leaves the order as it is. *)
Theorem setCache_evicts_oldest (V : Type) (k0 : jsstring)
    (it0 : Mcp.item V) (rest : Mcp.cache V) (key : jsstring) (v : V)
    (now t : Z) :
  Mcp.mapSize ((k0, it0) :: rest) > 100 ->
  ~ In key (Mcp.mapKeys ((k0, it0) :: rest)) ->
  t <= Mcp.expiresAt it0 ->
  Mcp.setCache ((k0, it0) :: rest) key v now
  = rest ++ [(key, Mcp.mkItem v (now + Mcp.CACHE_TTL))]
  /\ Mcp.getCached ((k0, it0) :: rest) k0 t
     = (Some (Mcp.value it0), (k0, it0) :: rest)
  /\ Mcp.setCache (snd (Mcp.getCached ((k0, it0) :: rest) k0 t)) key v now
     = rest ++ [(key, Mcp.mkItem v (now + Mcp.CACHE_TTL))].
Proof.
  intros Hsize Hout Ht.
  assert (Hset : Mcp.setCache ((k0, it0) :: rest) key v now
                 = rest ++ [(key, Mcp.mkItem v (now + Mcp.CACHE_TTL))]).
  { unfold Mcp.setCache.
    destruct (Z.gtb_spec (Mcp.mapSize ((k0, it0) :: rest)) 100); [|lia].
    cbn [Mcp.firstKey Mcp.mapDelete]. rewrite eqb_refl.
    apply mapSet_absent. intros Hin. apply Hout. right. exact Hin. }
  assert (Hget : Mcp.getCached ((k0, it0) :: rest) k0 t
                 = (Some (Mcp.value it0), (k0, it0) :: rest)).
  { unfold Mcp.getCached. cbn [Mcp.mapGet]. rewrite eqb_refl.
    destruct (Z.gtb_spec t (Mcp.expiresAt it0)); [lia | reflexivity]. }
  split; [exact Hset|]. split; [exact Hget|].
  rewrite Hget. exact Hset.
Qed.

Lemma setCache_evicts_oldest_witness :
  Mcp.setCache fullCache (lit "new") 7%nat 500
  = tl fullCache ++ [(lit "new", Mcp.mkItem 7%nat (500 + Mcp.CACHE_TTL))]
  /\ Mcp.getCached fullCache (lit "0") 400
     = (Some 0%nat, fullCache)
  /\ Mcp.setCache (snd (Mcp.getCached fullCache (lit "0") 400))
       (lit "new") 7%nat 500
     = tl fullCache ++ [(lit "new", Mcp.mkItem 7%nat (500 + Mcp.CACHE_TTL))].
Proof.
  apply (setCache_evicts_oldest nat (lit "0") (Mcp.mkItem 0%nat 300000)
           (tl fullCache) (lit "new") 7%nat 500 400).
  - vm_compute. reflexivity.
  - intros Hin.
    assert (H : existsb (JS.eqb (lit "new"))
                  (Mcp.mapKeys ((lit "0", Mcp.mkItem 0%nat 300000)
                                :: tl fullCache)) = true).
    { apply existsb_exists. exists (lit "new").
      split; [exact Hin | apply eqb_refl]. }
    vm_compute in H. discriminate.
  - vm_compute. discriminate.
Defined.

(** X2: while the cache holds at most 100 entries, an insertion touches
    its own key only: every other key is looked up as before, a present
    key keeps its place, and a new key is added at the end. *)
Theorem setCache_frame (V : Type) (c : Mcp.cache V) (key : jsstring)
    (v : V) (now : Z) :
  Mcp.mapSize c <= 100 ->
  (forall key', key' <> key ->
     Mcp.mapGet key' (Mcp.setCache c key v now) = Mcp.mapGet key' c)
  /\ (In key (Mcp.mapKeys c) ->
      Mcp.mapKeys (Mcp.setCache c key v now) = Mcp.mapKeys c)
  /\ (~ In key (Mcp.mapKeys c) ->
      Mcp.mapKeys (Mcp.setCache c key v now) = Mcp.mapKeys c ++ [key]).
Proof.
  intros Hsize.
  assert (Hset : Mcp.setCache c key v now
                 = Mcp.mapSet key (Mcp.mkItem v (now + Mcp.CACHE_TTL)) c).
  { unfold Mcp.setCache.
    destruct (Z.gtb_spec (Mcp.mapSize c) 100); [lia | reflexivity]. }
  rewrite Hset. split; [|split].
  - intros key' Hne. apply mapGet_mapSet_other. exact Hne.
  - apply mapKeys_mapSet_present.
  - intros Hout. rewrite mapSet_absent by exact Hout.
    unfold Mcp.mapKeys. rewrite map_app. reflexivity.
Qed.

Lemma setCache_frame_witness :
  (forall key', key' <> lit "b" ->
     Mcp.mapGet key' (Mcp.setCache [(lit "a", Mcp.mkItem 1%nat 5)]
                        (lit "b") 2%nat 10)
     = Mcp.mapGet key' [(lit "a", Mcp.mkItem 1%nat 5)])
  /\ (In (lit "b") (Mcp.mapKeys [(lit "a", Mcp.mkItem 1%nat 5)]) ->
      Mcp.mapKeys (Mcp.setCache [(lit "a", Mcp.mkItem 1%nat 5)]
                     (lit "b") 2%nat 10)
      = Mcp.mapKeys [(lit "a", Mcp.mkItem 1%nat 5)])
  /\ (~ In (lit "b") (Mcp.mapKeys [(lit "a", Mcp.mkItem 1%nat 5)]) ->
      Mcp.mapKeys (Mcp.setCache [(lit "a", Mcp.mkItem 1%nat 5)]
                     (lit "b") 2%nat 10)
      = Mcp.mapKeys [(lit "a", Mcp.mkItem 1%nat 5)] ++ [lit "b"]).
Proof.
  apply (setCache_frame nat [(lit "a", Mcp.mkItem 1%nat 5)] (lit "b")
           2%nat 10).
  vm_compute. discriminate.
Defined.

(** X3: a lookup that finds its entry expired removes that entry and
    nothing else: the key is gone, the cache is one entry smaller, and
    every other key is looked up as before. *)
Theorem getCached_expired_frame (V : Type) (c : Mcp.cache V)
    (key : jsstring) (it : Mcp.item V) (now : Z) :
  NoDup (Mcp.mapKeys c) ->
  Mcp.mapGet key c = Some it ->
  now > Mcp.expiresAt it ->
  fst (Mcp.getCached c key now) = None
  /\ Mcp.mapGet key (snd (Mcp.getCached c key now)) = None
  /\ Mcp.mapSize (snd (Mcp.getCached c key now)) = Mcp.mapSize c - 1
  /\ forall key', key' <> key ->
       Mcp.mapGet key' (snd (Mcp.getCached c key now)) = Mcp.mapGet key' c.
Proof.
  intros Hnd Hget Hexp. unfold Mcp.getCached. rewrite Hget.
  destruct (Z.gtb_spec now (Mcp.expiresAt it)); [|lia].
  cbn [fst snd]. split; [reflexivity|]. split; [|split].
  - apply mapGet_None_notin, mapDelete_removes. exact Hnd.
  - unfold Mcp.mapSize.
    rewrite <- (mapDelete_present_length _ c key)
      by (eapply mapGet_Some_in; exact Hget). lia.
  - intros key' Hne. apply mapGet_mapDelete_other. exact Hne.
Qed.

Lemma getCached_expired_frame_witness :
  let c := [(lit "a", Mcp.mkItem 1%nat 5); (lit "b", Mcp.mkItem 2%nat 9)] in
  fst (Mcp.getCached c (lit "a") 6) = None
  /\ Mcp.mapGet (lit "a") (snd (Mcp.getCached c (lit "a") 6)) = None
  /\ Mcp.mapSize (snd (Mcp.getCached c (lit "a") 6)) = Mcp.mapSize c - 1
  /\ forall key', key' <> lit "a" ->
       Mcp.mapGet key' (snd (Mcp.getCached c (lit "a") 6))
       = Mcp.mapGet key' c.
Proof.
  apply (getCached_expired_frame nat
           [(lit "a", Mcp.mkItem 1%nat 5); (lit "b", Mcp.mkItem 2%nat 9)]
           (lit "a") (Mcp.mkItem 1%nat 5) 6).
  - apply distinctb_NoDup. reflexivity.
  - reflexivity.
  - reflexivity.
Defined.

(** ** The chunker: what every chunk looks like *)

Lemma trimStart_length (s : jsstring) :
  (List.length (trimStart s) <= List.length s)%nat.
Proof.
  induction s as [|c s IH]; simpl; [lia|].
  destruct (is_ws c); simpl; lia.
Qed.

Lemma trimStart_blank (s : jsstring) :
  Forall (fun c => is_ws c = true) s -> trimStart s = [].
Proof.
  induction 1 as [|c s Hc _ IH]; simpl; [reflexivity|].
  rewrite Hc. exact IH.
Qed.

Lemma trimStart_solid (s : jsstring) :
  Forall (fun c => is_ws c = false) s -> trimStart s = s.
Proof.
  intros H. destruct H as [|c s Hc _]; simpl; [reflexivity|].
  rewrite Hc. reflexivity.
Qed.

Lemma trimStart_idempotent (s : jsstring) :
  trimStart (trimStart s) = trimStart s.
Proof.
  induction s as [|c s IH]; simpl; [reflexivity|].
  destruct (is_ws c) eqn:E; [exact IH|]. simpl. rewrite E. reflexivity.
Qed.

(** A string that ends with a code unit that is no white space keeps it
    under [trimStart]. *)
Lemma trimStart_snoc (s : jsstring) (h : N) :
  is_ws h = false -> trimStart (s ++ [h]) = trimStart s ++ [h].
Proof.
  intros Hh. induction s as [|c s IH]; simpl.
  - rewrite Hh. reflexivity.
  - destruct (is_ws c); [exact IH | reflexivity].
Qed.

Lemma trimStart_rev_snoc_ws (s : jsstring) (w : N) :
  is_ws w = true -> trimStart (rev (s ++ [w])) = trimStart (rev s).
Proof.
  intros Hw. rewrite rev_app_distr. simpl. rewrite Hw. reflexivity.
Qed.

Lemma trimEnd_length (s : jsstring) :
  (List.length (trimEnd s) <= List.length s)%nat.
Proof.
  unfold trimEnd. rewrite length_rev.
  eapply Nat.le_trans; [apply trimStart_length|]. rewrite length_rev. lia.
Qed.

Lemma trimEnd_cons (h : N) (s : jsstring) :
  is_ws h = false -> trimEnd (h :: s) = h :: trimEnd s.
Proof.
  intros Hh. unfold trimEnd. simpl rev.
  rewrite trimStart_snoc by exact Hh.
  rewrite rev_app_distr. reflexivity.
Qed.

Lemma trim_length (s : jsstring) :
  (List.length (trim s) <= List.length s)%nat.
Proof.
  unfold trim. eapply Nat.le_trans; [apply trimEnd_length|].
  apply trimStart_length.
Qed.

Lemma trim_blank (s : jsstring) :
  Forall (fun c => is_ws c = true) s -> trim s = [].
Proof. intros H. unfold trim. rewrite trimStart_blank by exact H. reflexivity. Qed.

Lemma trim_solid (s : jsstring) :
  Forall (fun c => is_ws c = false) s -> trim s = s.
Proof.
  intros H. unfold trim, trimEnd. rewrite (trimStart_solid s H).
  rewrite trimStart_solid by (apply Forall_rev; exact H).
  apply rev_involutive.
Qed.

Lemma trim_idempotent (s : jsstring) : trim (trim s) = trim s.
Proof.
  unfold trim.
  assert (Hhead : trimStart (trimEnd (trimStart s)) = trimEnd (trimStart s)).
  { pose proof (trimStart_idempotent s) as Hi.
    destruct (trimStart s) as [|h t] eqn:E; [reflexivity|].
    simpl in Hi. destruct (is_ws h) eqn:Eh.
    - (* a trimmed string does not start with white space *)
      exfalso. clear Hi.
      assert (Hno : forall u, match trimStart u with
                              | c :: _ => is_ws c = false
                              | [] => True
                              end).
      { induction u as [|c u IHu]; simpl; [exact I|].
        destruct (is_ws c) eqn:Ec; [exact IHu | exact Ec]. }
      specialize (Hno s). rewrite E in Hno. congruence.
    - rewrite trimEnd_cons by exact Eh. simpl. rewrite Eh. reflexivity. }
  rewrite Hhead. unfold trimEnd. rewrite rev_involutive.
  rewrite trimStart_idempotent. reflexivity.
Qed.

(** A string that ends with white space loses at least that code unit. *)
Lemma trim_snoc_ws (s : jsstring) (w : N) :
  is_ws w = true -> (List.length (trim (s ++ [w])) <= List.length s)%nat.
Proof.
  intros Hw. unfold trim.
  assert (Hsuffix : forall u, exists p, u = p ++ trimStart u).
  { induction u as [|c u [p Hp]]; [exists []; reflexivity|]. simpl.
    destruct (is_ws c); [|exists []; reflexivity].
    exists (c :: p). simpl. f_equal. exact Hp. }
  destruct (Hsuffix (s ++ [w])) as [p Hp].
  destruct (trimStart (s ++ [w])) as [|h t] eqn:E; [simpl; lia|].
  destruct (@exists_last _ (h :: t) ltac:(discriminate)) as (l & a & Hl).
  rewrite Hl in Hp |- *.
  rewrite app_assoc in Hp. apply app_inj_tail in Hp.
  destruct Hp as [Hs <-]. unfold trimEnd.
  rewrite (trimStart_rev_snoc_ws l w Hw). rewrite length_rev.
  eapply Nat.le_trans; [apply trimStart_length|]. rewrite length_rev.
  rewrite Hs, List.length_app. lia.
Qed.

(** What holds for the chunk of every window holds for every chunk the
    loop returns.  [I] is what is known of the start offsets. *)
Lemma chunkLoop_invariant (text : jsstring) (m o : Z)
    (P : jsstring -> Prop) (I : Z -> Prop) :
  (forall start, I start -> start < JS.length text ->
     P (chunkAt text m start) /\ I (nextStart text m o start)) ->
  forall fuel start chunks r,
    I start -> Forall P chunks ->
    chunkLoop fuel text m o start chunks = Some r -> Forall P r.
Proof.
  intros Hstep. induction fuel as [|fuel IH]; intros start chunks r Hi Hp;
    cbn [chunkLoop]; destruct (Z.ltb_spec start (JS.length text)) as [Hlt|Hge];
    try discriminate; try (intros [= <-]; exact Hp).
  destruct (Hstep start Hi Hlt) as [Hc Hn].
  apply IH; [exact Hn|]. apply Forall_app. split; [exact Hp|].
  constructor; [exact Hc | constructor].
Qed.

Lemma Forall_cut (P : N -> Prop) (n : nat) (s : jsstring) :
  Forall P s -> Forall P (firstn n s) /\ Forall P (skipn n s).
Proof.
  intros H. rewrite <- (firstn_skipn n s) in H.
  apply Forall_app in H. exact H.
Qed.

Lemma slice_forall (P : N -> Prop) (s : jsstring) (a b : Z) :
  Forall P s -> Forall P (slice s a b).
Proof.
  intros H. unfold slice. cbv zeta.
  apply Forall_cut. apply Forall_cut. exact H.
Qed.

(** With sizes for which the start advances the chunker returns, given
    as many iterations as the text has code units. *)
Lemma chunkText_returns (text : jsstring) (m o : Z) (fuel : nat) :
  0 <= o < m -> o <= m / 2 + 1 -> (List.length text <= fuel)%nat ->
  exists chunks, chunkText fuel text m o = Some chunks.
Proof.
  intros Ho Hhalf Hfuel.
  destruct (chunkLoop_returns text m o
              (fun start => nextStart_advances text m o start Ho Hhalf)
              fuel 0 []) as [r Hr].
  { unfold JS.length. lia. }
  unfold chunkText. rewrite Hr. eexists. reflexivity.
Qed.

(** Of a text of white space only no chunk is kept. *)
Lemma chunkText_blank_chunks (text : jsstring) (m o : Z) (fuel : nat)
    (chunks : list jsstring) :
  Forall (fun c => is_ws c = true) text ->
  chunkText fuel text m o = Some chunks -> chunks = [].
Proof.
  intros Hws. unfold chunkText.
  destruct (chunkLoop fuel text m o 0 []) as [r|] eqn:Hr; [|discriminate].
  intros [= <-].
  assert (Hall : Forall (fun c => c = []) r).
  { apply (chunkLoop_invariant text m o (fun c => c = []) (fun _ => True))
      with (4 := Hr); [|exact I|constructor].
    intros start _ _. split; [|exact I].
    unfold chunkAt. apply trim_blank. apply slice_forall. exact Hws. }
  clear Hr. induction Hall as [|c r -> _ IH]; [reflexivity|].
  cbn [filter]. exact IH.
Qed.

(** X4: a text of white space only gives no chunk at all, however long
    it is (for sizes with which the loop ends). *)
Theorem chunkText_blank_text (text : jsstring) (maxChunkSize overlap : Z)
    (fuel : nat) :
  Forall (fun c => is_ws c = true) text ->
  0 <= overlap < maxChunkSize ->
  overlap <= maxChunkSize / 2 + 1 ->
  (List.length text <= fuel)%nat ->
  chunkText fuel text maxChunkSize overlap = Some [].
Proof.
  intros Hws Ho Hhalf Hfuel.
  destruct (chunkLoop_returns text maxChunkSize overlap
              (fun start => nextStart_advances text maxChunkSize overlap
                              start Ho Hhalf)
              fuel 0 []) as [r Hr].
  { unfold JS.length. lia. }
  destruct (chunkText fuel text maxChunkSize overlap) as [chunks|] eqn:Hc.
  - rewrite (chunkText_blank_chunks text maxChunkSize overlap fuel chunks
               Hws Hc). reflexivity.
  - unfold chunkText in Hc. rewrite Hr in Hc. discriminate Hc.
Qed.

Lemma chunkText_blank_text_witness :
  chunkText 30 (repeat 32%N 25 ++ [LF; LF; 9%N]) 10 3 = Some [].
Proof.
  apply (chunkText_blank_text (repeat 32%N 25 ++ [LF; LF; 9%N]) 10 3 30).
  - repeat constructor.
  - lia.
  - vm_compute. discriminate.
  - simpl. lia.
Defined.

(** The chunks that are kept are not empty and are trimmed. *)
Lemma chunkText_trimmed_chunks (text : jsstring)
    (maxChunkSize overlap : Z) (fuel : nat) (chunks : list jsstring) :
  chunkText fuel text maxChunkSize overlap = Some chunks ->
  Forall (fun c => c <> [] /\ trim c = c) chunks.
Proof.
  unfold chunkText.
  destruct (chunkLoop fuel text maxChunkSize overlap 0 []) as [r|] eqn:Hr;
    [|discriminate].
  intros [= <-].
  assert (Hall : Forall (fun c => trim c = c) r).
  { apply (chunkLoop_invariant text maxChunkSize overlap
             (fun c => trim c = c) (fun _ => True)) with (4 := Hr);
      [|exact I|constructor].
    intros start _ _. split; [|exact I].
    unfold chunkAt. apply trim_idempotent. }
  clear Hr. induction Hall as [|c r Hc _ IH]; [constructor|].
  cbn [filter]. destruct (nonEmpty c) eqn:E; [|exact IH].
  constructor; [|exact IH]. split; [|exact Hc].
  intros ->. discriminate.
Qed.

(** X5: the chunker returns, and every chunk it returns is not empty and
    is trimmed: it neither starts nor ends with white space. *)
Theorem chunkText_chunks_trimmed (text : jsstring)
    (maxChunkSize overlap : Z) (fuel : nat) :
  0 <= overlap < maxChunkSize ->
  overlap <= maxChunkSize / 2 + 1 ->
  (List.length text <= fuel)%nat ->
  exists chunks,
    chunkText fuel text maxChunkSize overlap = Some chunks
    /\ Forall (fun c => c <> [] /\ trim c = c) chunks.
Proof.
  intros Ho Hhalf Hfuel.
  destruct (chunkText_returns text maxChunkSize overlap fuel Ho Hhalf Hfuel)
    as [chunks Hc].
  exists chunks. split; [exact Hc|].
  exact (chunkText_trimmed_chunks text maxChunkSize overlap fuel chunks Hc).
Qed.

Lemma chunkText_chunks_trimmed_witness :
  exists chunks,
    chunkText 21 (lit "aaaaaaa. bbbbbbbbbbbb") 10 2 = Some chunks
    /\ Forall (fun c => c <> [] /\ trim c = c) chunks.
Proof.
  apply (chunkText_chunks_trimmed (lit "aaaaaaa. bbbbbbbbbbbb") 10 2 21).
  - lia.
  - vm_compute. discriminate.
  - vm_compute. lia.
Defined.

Lemma is_prefix_app (p s : jsstring) :
  is_prefix p s = true -> exists post, s = p ++ post.
Proof.
  revert s. induction p as [|x p IH]; intros s H; [exists s; reflexivity|].
  destruct s as [|y s]; [discriminate|]. simpl in H.
  apply andb_true_iff in H. destruct H as [Hxy Hp].
  apply N.eqb_eq in Hxy. subst y.
  destruct (IH s Hp) as [post ->]. exists post. reflexivity.
Qed.

(** What [lastIndexOf] returns is -1 or an offset, not behind the
    position, at which the string searched for occurs. *)
Lemma lastIndexOf_from_spec (s search : jsstring) (n : nat) :
  lastIndexOf_from s search n = -1
  \/ (0 <= lastIndexOf_from s search n <= Z.of_nat n
      /\ is_prefix search
           (skipn (Z.to_nat (lastIndexOf_from s search n)) s) = true).
Proof.
  induction n as [|n IH]; cbn [lastIndexOf_from].
  - destruct (is_prefix search (skipn 0 s)) eqn:E; [|left; reflexivity].
    right. split; [lia | exact E].
  - destruct (is_prefix search (skipn (S n) s)) eqn:E.
    + right. rewrite Nat2Z.id. split; [lia | exact E].
    + destruct IH as [IH | [IH1 IH2]]; [left; exact IH|].
      right. split; [lia | exact IH2].
Qed.

Lemma lastIndexOf_spec (s search : jsstring) (position : Z) :
  lastIndexOf s search position = -1
  \/ (0 <= lastIndexOf s search position <= Z.max position 0
      /\ exists before after,
           s = before ++ search ++ after
           /\ JS.length before = lastIndexOf s search position).
Proof.
  unfold lastIndexOf. cbv zeta.
  destruct (Z.ltb_spec (Z.min (Z.max position 0)
                          (JS.length s - JS.length search)) 0) as [H|H];
    [left; reflexivity|].
  destruct (lastIndexOf_from_spec s search
              (Z.to_nat (Z.min (Z.max position 0)
                           (JS.length s - JS.length search))))
    as [E | [Hk Hp]]; [left; exact E|].
  right. set (k := lastIndexOf_from s search _) in *.
  split; [lia|].
  destruct (is_prefix_app _ _ Hp) as [after Hafter].
  exists (firstn (Z.to_nat k) s), after. split.
  - rewrite <- Hafter. symmetry. apply firstn_skipn.
  - unfold JS.length. rewrite length_firstn.
    pose proof (length_nonneg search). unfold JS.length in *. lia.
Qed.

(** Where a chunk ends: at the end of the window, or just behind a break
    point that lies beyond the middle of the window and not behind its
    end. *)
Lemma findBreak_spec (text : jsstring) (start m stop : Z)
    (bps : list jsstring) :
  findBreak text start m stop bps = stop
  \/ exists bp, In bp bps
       /\ 2 * lastIndexOf text bp stop > 2 * start + m
       /\ findBreak text start m stop bps
          = lastIndexOf text bp stop + JS.length bp.
Proof.
  induction bps as [|bp bps IH]; cbn [findBreak]; [left; reflexivity|].
  destruct (Z.gtb_spec (2 * lastIndexOf text bp stop) (2 * start + m)).
  - right. exists bp. split; [left; reflexivity|]. split; [lia | reflexivity].
  - destruct IH as [IH | (bp' & Hin & Hgt & Heq)]; [left; exact IH|].
    right. exists bp'. split; [right; exact Hin|]. auto.
Qed.

Lemma breakPoints_end_blank :
  Forall (fun bp => exists b w, bp = b ++ [w] /\ is_ws w = true
                                /\ JS.length bp <= 2) breakPoints.
Proof.
  unfold breakPoints.
  repeat (constructor;
          [first [ exists [LF], LF; repeat split; vm_compute; congruence
                 | exists [], LF; repeat split; vm_compute; congruence
                 | eexists [_], 32%N; repeat split; vm_compute; congruence ]
          |]).
  constructor.
Qed.

Lemma slice_length (s : jsstring) (a b : Z) :
  0 <= a -> 0 <= b -> JS.length (slice s a b) <= Z.max (b - a) 0.
Proof.
  intros Ha Hb. unfold slice, slice_bound, JS.length. cbv zeta.
  rewrite length_firstn.
  destruct (Z.ltb_spec a 0); [lia|]. destruct (Z.ltb_spec b 0); lia.
Qed.

(** A slice inside the string is what is left of a prefix. *)
Lemma slice_inside (s : jsstring) (a b : Z) :
  0 <= a <= b -> b <= JS.length s ->
  slice s a b = skipn (Z.to_nat a) (firstn (Z.to_nat b) s).
Proof.
  intros Hab Hb. unfold slice, slice_bound. cbv zeta.
  destruct (Z.ltb_spec a 0); [lia|]. destruct (Z.ltb_spec b 0); [lia|].
  rewrite !Z.min_l by lia.
  rewrite firstn_skipn_comm. f_equal. f_equal. lia.
Qed.

Lemma chunkAt_length (text : jsstring) (m start : Z) :
  0 < m -> 0 <= start ->
  JS.length (chunkAt text m start) <= m + 1.
Proof.
  intros Hm Hs. unfold chunkAt.
  assert (Hplain : forall e, 0 <= e <= start + m ->
            JS.length (trim (slice text start e)) <= m + 1).
  { intros e He. pose proof (slice_length text start e Hs ltac:(lia)).
    pose proof (trim_length (slice text start e)).
    unfold JS.length in *. lia. }
  unfold chunkEnd. cbv zeta.
  destruct (start + m <? JS.length text); [|apply Hplain; lia].
  destruct (findBreak_spec text start m (start + m) breakPoints)
    as [-> | (bp & Hin & Hgt & ->)]; [apply Hplain; lia|].
  pose proof breakPoints_end_blank as Hbl. rewrite Forall_forall in Hbl.
  destruct (Hbl bp Hin) as (b & w & -> & Hw & Hlen).
  destruct (lastIndexOf_spec text (b ++ [w]) (start + m))
    as [E | [Hk (before & after & Htext & Hbefore)]]; [lia|].
  set (k := lastIndexOf text (b ++ [w]) (start + m)) in *.
  rewrite length_app in Hlen. change (JS.length [w]) with 1 in Hlen.
  pose proof (length_nonneg b) as Hb.
  rewrite slice_inside.
  2: { rewrite length_app. change (JS.length [w]) with 1. lia. }
  2: { rewrite Htext, !length_app. change (JS.length [w]) with 1.
       pose proof (length_nonneg after). lia. }
  assert (Hfirst : firstn (Z.to_nat (k + JS.length (b ++ [w]))) text
                   = (before ++ b) ++ [w]).
  { rewrite Htext.
    replace (before ++ (b ++ [w]) ++ after)
      with (((before ++ b) ++ [w]) ++ after)
      by (rewrite <- !app_assoc; reflexivity).
    rewrite firstn_app.
    replace (Z.to_nat (k + JS.length (b ++ [w]))
             - List.length ((before ++ b) ++ [w]))%nat with 0%nat.
    - rewrite firstn_all2, app_nil_r; [reflexivity|].
      rewrite length_app in *. unfold JS.length in *.
      rewrite !List.length_app in *. simpl List.length in *. lia.
    - rewrite length_app in *. unfold JS.length in *.
      rewrite !List.length_app in *. simpl List.length in *. lia. }
  rewrite Hfirst. rewrite skipn_app.
  replace (Z.to_nat start - List.length (before ++ b))%nat with 0%nat
    by (unfold JS.length in *; rewrite List.length_app; lia).
  cbn [skipn].
  pose proof (trim_snoc_ws (skipn (Z.to_nat start) (before ++ b)) w Hw)
    as Htrim.
  rewrite length_skipn, List.length_app in Htrim.
  unfold JS.length in *. lia.
Qed.

(** The size of the chunks that are kept. *)
Lemma chunkText_sized_chunks (text : jsstring) (maxChunkSize overlap : Z)
    (fuel : nat) (chunks : list jsstring) :
  0 <= overlap < maxChunkSize ->
  overlap <= maxChunkSize / 2 + 1 ->
  chunkText fuel text maxChunkSize overlap = Some chunks ->
  Forall (fun c => 1 <= JS.length c <= maxChunkSize + 1) chunks.
Proof.
  intros Ho Hhalf. unfold chunkText.
  destruct (chunkLoop fuel text maxChunkSize overlap 0 []) as [r|] eqn:Hr;
    [|discriminate].
  intros [= <-].
  assert (Hall : Forall (fun c => JS.length c <= maxChunkSize + 1) r).
  { apply (chunkLoop_invariant text maxChunkSize overlap
             (fun c => JS.length c <= maxChunkSize + 1)
             (fun start => 0 <= start)) with (4 := Hr);
      [|lia|constructor].
    intros start Hs _. split; [apply chunkAt_length; lia|].
    pose proof (nextStart_advances text maxChunkSize overlap start Ho Hhalf).
    lia. }
  clear Hr. induction Hall as [|c r Hc _ IH]; [constructor|].
  cbn [filter]. unfold nonEmpty at 1.
  destruct (Z.gtb_spec (JS.length c) 0); [|exact IH].
  constructor; [lia | exact IH].
Qed.

(** X6: the chunker returns, and every chunk holds at least one and at
    most [maxChunkSize + 1] code units: the end of a chunk may be moved
    behind a break point that starts at the very end of the window, and
    only the white space that ends the break point is trimmed. *)
Theorem chunkText_chunk_size (text : jsstring) (maxChunkSize overlap : Z)
    (fuel : nat) :
  0 <= overlap < maxChunkSize ->
  overlap <= maxChunkSize / 2 + 1 ->
  (List.length text <= fuel)%nat ->
  exists chunks,
    chunkText fuel text maxChunkSize overlap = Some chunks
    /\ Forall (fun c => 1 <= JS.length c <= maxChunkSize + 1) chunks.
Proof.
  intros Ho Hhalf Hfuel.
  destruct (chunkText_returns text maxChunkSize overlap fuel Ho Hhalf Hfuel)
    as [chunks Hc].
  exists chunks. split; [exact Hc|].
  exact (chunkText_sized_chunks text maxChunkSize overlap fuel chunks
           Ho Hhalf Hc).
Qed.

(** The bound is reached: a chunk of 5 code units for [maxChunkSize] 4. *)
Example chunkText_chunk_beyond_size :
  chunkText 15 (lit "aaaa. bbbbbbbbb") 4 0
  = Some [lit "aaaa."; lit "bbbb"; lit "bbbb"; lit "b"].
Proof. reflexivity. Qed.

Lemma chunkText_chunk_size_witness :
  exists chunks,
    chunkText 15 (lit "aaaa. bbbbbbbbb") 4 0 = Some chunks
    /\ Forall (fun c => 1 <= JS.length c <= 4 + 1) chunks.
Proof.
  apply (chunkText_chunk_size (lit "aaaa. bbbbbbbbb") 4 0 15).
  - lia.
  - vm_compute. discriminate.
  - vm_compute. lia.
Defined.

Lemma filter_trimStart (s : jsstring) :
  filter (fun c => negb (is_ws c)) (trimStart s)
  = filter (fun c => negb (is_ws c)) s.
Proof.
  induction s as [|c r IH]; [reflexivity|]. cbn [trimStart filter].
  destruct (is_ws c) eqn:E; cbn [negb]; [exact IH|].
  cbn [filter]. rewrite E. reflexivity.
Qed.

(** Trimming removes white space only. *)
Lemma filter_trim (s : jsstring) :
  filter (fun c => negb (is_ws c)) (trim s)
  = filter (fun c => negb (is_ws c)) s.
Proof.
  unfold trim, trimEnd.
  rewrite filter_rev, filter_trimStart, <- filter_rev, rev_involutive.
  apply filter_trimStart.
Qed.

(** A slice and what follows it make up what follows its start. *)
Lemma slice_then_rest (s : jsstring) (a b : Z) :
  0 <= a <= b ->
  slice s a b ++ skipn (Z.to_nat b) s = skipn (Z.to_nat a) s.
Proof.
  intros Hab. unfold slice, slice_bound. cbv zeta.
  destruct (Z.ltb_spec a 0); [lia|]. destruct (Z.ltb_spec b 0); [lia|].
  pose proof (length_nonneg s) as Hlen.
  destruct (Z.le_gt_cases (JS.length s) a) as [Hout|Hin].
  - rewrite (skipn_all2 (n := Z.to_nat a)) by (unfold JS.length in *; lia).
    rewrite (skipn_all2 (n := Z.to_nat b)) by (unfold JS.length in *; lia).
    rewrite skipn_all2 by (unfold JS.length in *; lia).
    rewrite firstn_nil. reflexivity.
  - rewrite (Z.min_l a) by lia.
    rewrite <- (firstn_skipn (Z.to_nat (Z.min b (JS.length s) - a))
                  (skipn (Z.to_nat a) s)) at 2.
    f_equal. rewrite skipn_skipn.
    destruct (Z.le_gt_cases b (JS.length s)) as [Hb|Hb].
    + f_equal. lia.
    + rewrite !skipn_all2 by (unfold JS.length in *; lia). reflexivity.
Qed.

Lemma chunkLoop_overlap0 (text : jsstring) (m : Z) :
  0 < m ->
  forall fuel start chunks r,
    0 <= start ->
    chunkLoop fuel text m 0 start chunks = Some r ->
    filter (fun c => negb (is_ws c)) (concat r)
    = filter (fun c => negb (is_ws c)) (concat chunks)
      ++ filter (fun c => negb (is_ws c)) (skipn (Z.to_nat start) text).
Proof.
  intros Hm. induction fuel as [|fuel IH]; intros start chunks r Hs;
    cbn [chunkLoop]; destruct (Z.ltb_spec start (JS.length text)) as [Hlt|Hge];
    try discriminate.
  - intros [= <-].
    rewrite skipn_all2 by (unfold JS.length in *; lia).
    rewrite app_nil_r. reflexivity.
  - intros Hr.
    pose proof (nextStart_advances text m 0 start ltac:(lia)
                  ltac:(pose proof (Z.div_pos m 2); lia)) as Hadv.
    assert (Hn : 0 <= nextStart text m 0 start) by lia.
    rewrite (IH _ _ _ Hn Hr).
    rewrite concat_app, !filter_app. cbn [concat]. rewrite app_nil_r.
    rewrite <- app_assoc. f_equal.
    unfold chunkAt. rewrite filter_trim, <- filter_app.
    f_equal. unfold nextStart in *. rewrite Z.sub_0_r in *.
    apply slice_then_rest. lia.
  - intros [= <-].
    rewrite skipn_all2 by (unfold JS.length in *; lia).
    rewrite app_nil_r. reflexivity.
Qed.

Lemma concat_filter_nonEmpty (chunks : list jsstring) :
  concat (filter nonEmpty chunks) = concat chunks.
Proof.
  induction chunks as [|c r IH]; [reflexivity|]. cbn [filter concat].
  unfold nonEmpty at 1. destruct (Z.gtb_spec (JS.length c) 0).
  - cbn [concat]. rewrite IH. reflexivity.
  - destruct c; [exact IH|]. unfold JS.length in *.
    cbn [List.length] in *. lia.
Qed.

(** What the chunks keep of the text when there is no overlap. *)
Lemma chunkText_kept_text (text : jsstring) (maxChunkSize : Z)
    (fuel : nat) (chunks : list jsstring) :
  0 < maxChunkSize ->
  chunkText fuel text maxChunkSize 0 = Some chunks ->
  filter (fun c => negb (is_ws c)) (concat chunks)
  = filter (fun c => negb (is_ws c)) text
  /\ (Forall (fun c => is_ws c = false) text -> concat chunks = text).
Proof.
  intros Hm. unfold chunkText.
  destruct (chunkLoop fuel text maxChunkSize 0 0 []) as [r|] eqn:Hr;
    [|discriminate].
  intros [= <-]. rewrite concat_filter_nonEmpty.
  pose proof (chunkLoop_overlap0 text maxChunkSize Hm fuel 0 [] r
                ltac:(lia) Hr) as Hkeep.
  cbn [concat filter app Z.to_nat skipn] in Hkeep.
  split; [exact Hkeep|]. intros Hsolid.
  assert (Hid : forall s : jsstring, Forall (fun c => is_ws c = false) s ->
            filter (fun c => negb (is_ws c)) s = s).
  { induction 1 as [|c s Hc _ IH]; [reflexivity|].
    cbn [filter]. rewrite Hc. cbn [negb]. rewrite IH. reflexivity. }
  rewrite <- (Hid text Hsolid), <- Hkeep. symmetry. apply Hid.
  apply Forall_concat.
  apply (chunkLoop_invariant text maxChunkSize 0
           (Forall (fun c => is_ws c = false)) (fun _ => True))
    with (4 := Hr); [|exact I|constructor].
  intros start _ _. split; [|exact I].
  unfold chunkAt, trim, trimEnd.
  assert (Hts : forall s : jsstring, Forall (fun c => is_ws c = false) s ->
            Forall (fun c => is_ws c = false) (trimStart s)).
  { induction 1 as [|c s Hc Hs IH]; [constructor|].
    cbn [trimStart]. rewrite Hc. constructor; assumption. }
  apply Forall_rev, Hts, Forall_rev, Hts, slice_forall. exact Hsolid.
Qed.

(** X7: without overlap the chunker returns, and its chunks lose nothing
    but white space: the code units of the chunks that are no white space
    are those of the text, in the same order and as often; a text without
    white space is the concatenation of its chunks. *)
Theorem chunkText_without_overlap (text : jsstring) (maxChunkSize : Z)
    (fuel : nat) :
  0 < maxChunkSize ->
  (List.length text <= fuel)%nat ->
  exists chunks,
    chunkText fuel text maxChunkSize 0 = Some chunks
    /\ filter (fun c => negb (is_ws c)) (concat chunks)
       = filter (fun c => negb (is_ws c)) text
    /\ (Forall (fun c => is_ws c = false) text -> concat chunks = text).
Proof.
  intros Hm Hfuel.
  destruct (chunkText_returns text maxChunkSize 0 fuel) as [chunks Hc];
    [lia | pose proof (Z.div_pos maxChunkSize 2); lia | exact Hfuel |].
  exists chunks. split; [exact Hc|].
  exact (chunkText_kept_text text maxChunkSize fuel chunks Hm Hc).
Qed.

Lemma chunkText_without_overlap_witness :
  exists chunks,
    chunkText 15 (lit "aaaa. bbbbbbbbb") 4 0 = Some chunks
    /\ filter (fun c => negb (is_ws c)) (concat chunks)
       = filter (fun c => negb (is_ws c)) (lit "aaaa. bbbbbbbbb")
    /\ (Forall (fun c => is_ws c = false) (lit "aaaa. bbbbbbbbb") ->
        concat chunks = lit "aaaa. bbbbbbbbb").
Proof.
  apply (chunkText_without_overlap (lit "aaaa. bbbbbbbbb") 4 15).
  - lia.
  - vm_compute. lia.
Defined.

(** ** [storeContext] and its presets *)

Lemma set_keys_NoDup (k : jsstring) (v : jsvalue) (o : jsobject) :
  NoDup (map fst o) -> NoDup (map fst (Obj.set k v o)).
Proof.
  induction o as [|[k0 v0] o IH]; intros Hnd; cbn [Obj.set map fst].
  - constructor; [intros []|constructor].
  - destruct (JS.eqb k k0) eqn:E; [exact Hnd|].
    inversion Hnd as [|? ? Hnotin Hrest]; subst.
    cbn [map fst]. constructor; [|apply IH; exact Hrest].
    intros Hin. apply Hnotin. clear - Hin E.
    induction o as [|[k1 v1] o IHo]; cbn [Obj.set map fst] in *.
    + destruct Hin as [<-|[]]. rewrite eqb_refl in E. discriminate.
    + destruct (JS.eqb k k1); cbn [map fst] in Hin.
      * exact Hin.
      * destruct Hin as [H|H]; [left; exact H | right; exact (IHo H)].
Qed.

Lemma spread_keys_NoDup (source target : jsobject) :
  NoDup (map fst target) -> NoDup (map fst (spread source target)).
Proof.
  unfold spread. revert target.
  induction source as [|[k v] source IH]; intros target Hnd; [exact Hnd|].
  cbn [fold_left fst snd]. apply IH, set_keys_NoDup, Hnd.
Qed.

Lemma set_fresh (k : jsstring) (v : jsvalue) (o : jsobject) :
  ~ In k (map fst o) -> Obj.set k v o = o ++ [(k, v)].
Proof.
  induction o as [|[k0 v0] o IH]; intros Hnotin; [reflexivity|].
  cbn [Obj.set app]. cbn [map fst] in Hnotin.
  destruct (JS.eqb k k0) eqn:E.
  - apply eqb_eq in E. subst k0. exfalso. apply Hnotin. left. reflexivity.
  - rewrite IH; [reflexivity|]. intros H. apply Hnotin. right. exact H.
Qed.

(** Spreading an object whose keys are distinct and new adds its
    properties in their order; spreading it into [{}] copies it. *)
Lemma spread_fresh (source : jsobject) :
  NoDup (map fst source) ->
  forall target,
    (forall k, In k (map fst source) -> ~ In k (map fst target)) ->
    spread source target = target ++ source.
Proof.
  unfold spread.
  induction source as [|[k v] source IH]; intros Hnd target Hnew.
  - rewrite app_nil_r. reflexivity.
  - inversion Hnd as [|? ? Hnotin Hrest]; subst.
    cbn [fold_left fst snd].
    rewrite set_fresh by (apply Hnew; left; reflexivity).
    rewrite IH; [rewrite <- app_assoc; reflexivity | exact Hrest |].
    intros k0 Hk0. rewrite map_app, in_app_iff. cbn [map fst In].
    intros [H | [<- | []]].
    + exact (Hnew k0 (or_intror Hk0) H).
    + exact (Hnotin Hk0).
Qed.

Lemma spread_copy (o : jsobject) :
  NoDup (map fst o) -> spread o [] = o.
Proof.
  intros Hnd. rewrite (spread_fresh o Hnd []); [reflexivity|].
  intros k _ [].
Qed.

Section StoreEffects.

Variable embedding : Type.
Variable dateISO : nat -> jsstring.
Variable generateEmbeddings : list jsstring -> list embedding.

(** What one call of [storeContext] does: it returns the ids of the
    vectors it assembled, in order; it sends these vectors, in batches,
    and nothing else; it reads the clock once per chunk. *)
Lemma storeContext_effect (text : jsstring) (metadata : jsobject)
    (w : Context.world embedding) :
  exists chunks vectors batches,
    chunkText_default text = Some chunks
    /\ Context.storeContext dateISO generateEmbeddings text metadata w
       = Some (map (@Context.id embedding) vectors,
               Context.mkWorld (Context.upserts w ++ batches)
                 (Context.queries w)
                 (Context.clockReads w + List.length chunks))
    /\ concat batches = vectors
    /\ List.length vectors = List.length chunks
    /\ forall k v,
         nth_error vectors k = Some v ->
         exists chunk,
           nth_error chunks k = Some chunk
           /\ Context.metadata v
              = chunkMetadata metadata (List.length chunks) chunk k
                  (dateISO (Context.clockReads w + k))
           /\ Context.id v
              = Context.generateId chunk
                  (Obj.set (lit "chunkIndex") (Context.natNum k)
                     (spread metadata [])).
Proof.
  destruct (chunkText_default_returns text) as [chunks Hc].
  destruct (mapWithIndex_assemble embedding dateISO metadata
              (generateEmbeddings chunks) (List.length chunks) chunks 0%nat w)
    as (vectors & Hasm & Hlen & Hnth).
  destruct (upsertLoop_batches embedding vectors (List.length vectors) 0%nat
              (Context.mkWorld (Context.upserts w) (Context.queries w)
                 (Context.clockReads w + List.length chunks)))
    as (batches & Hup & Hcat & _); [lia|].
  exists chunks, vectors, batches.
  split; [exact Hc|]. split; [|split; [exact Hcat|split; [exact Hlen|]]].
  - unfold Context.storeContext, Context.bind, Context.orDiverge.
    rewrite Hc. unfold Context.assembleAll. rewrite Hasm.
    unfold Context.upsertAll. rewrite Hup. reflexivity.
  - exact Hnth.
Qed.

End StoreEffects.

(** *** Texts without white space: where the chunks end, and how many
    there are *)

Lemma lastIndexOf_absent (s search : jsstring) (position : Z) (c : N) :
  In c search -> ~ In c s -> lastIndexOf s search position = -1.
Proof.
  intros Hin Hout.
  destruct (lastIndexOf_spec s search position)
    as [E | [_ (before & after & Hs & _)]]; [exact E|].
  exfalso. apply Hout. rewrite Hs.
  apply in_or_app. right. apply in_or_app. left. exact Hin.
Qed.

Lemma findBreak_solid (text : jsstring) (start m stop : Z) :
  Forall (fun c => is_ws c = false) text -> 0 <= start -> 0 < m ->
  findBreak text start m stop breakPoints = stop.
Proof.
  intros Hsolid Hs Hm.
  pose proof breakPoints_end_blank as Hbl.
  induction Hbl as [|bp bps (b & w & Hbp & Hw & _) _ IH]; [reflexivity|].
  cbn [findBreak].
  rewrite (lastIndexOf_absent text bp stop w).
  - destruct (Z.gtb_spec (2 * -1) (2 * start + m)); [lia | exact IH].
  - rewrite Hbp. apply in_or_app. right. left. reflexivity.
  - intros Hin. rewrite Forall_forall in Hsolid.
    rewrite (Hsolid w Hin) in Hw. discriminate Hw.
Qed.

(** Without white space there is no break point: every chunk ends with
    its window. *)
Lemma chunkEnd_solid (text : jsstring) (m start : Z) :
  Forall (fun c => is_ws c = false) text -> 0 <= start -> 0 < m ->
  chunkEnd text m start = start + m.
Proof.
  intros Hsolid Hs Hm. unfold chunkEnd. cbv zeta.
  destruct (start + m <? JS.length text); [|reflexivity].
  apply findBreak_solid; assumption.
Qed.

Lemma slice_length_inside (s : jsstring) (a b : Z) :
  0 <= a <= b -> a <= JS.length s ->
  JS.length (slice s a b) = Z.min b (JS.length s) - a.
Proof.
  intros Hab Ha. unfold slice, slice_bound, JS.length in *. cbv zeta.
  rewrite length_firstn, length_skipn.
  destruct (Z.ltb_spec a 0); [lia|]. destruct (Z.ltb_spec b 0); lia.
Qed.

(** The loop over a text without white space runs once per step of
    [m - o] code units and keeps a chunk each time. *)
Lemma chunkLoop_solid (text : jsstring) (m o : Z) :
  Forall (fun c => is_ws c = false) text -> 0 <= o < m ->
  forall (n fuel : nat) (start : Z) (chunks : list jsstring),
    0 <= start ->
    JS.length text <= start + Z.of_nat n * (m - o) ->
    ((0 < n)%nat -> start + (Z.of_nat n - 1) * (m - o) < JS.length text) ->
    (n <= fuel)%nat ->
    exists r,
      chunkLoop fuel text m o start chunks = Some (chunks ++ r)
      /\ List.length r = n
      /\ Forall (fun c => nonEmpty c = true) r.
Proof.
  intros Hsolid Ho. induction n as [|n IH]; intros fuel start chunks Hs Hhi Hlo Hf.
  - exists []. rewrite app_nil_r. split; [|split; [reflexivity|constructor]].
    destruct fuel; cbn [chunkLoop];
      destruct (Z.ltb_spec start (JS.length text)); solve [lia | reflexivity].
  - assert (Hin : start < JS.length text).
    { specialize (Hlo ltac:(lia)). nia. }
    destruct fuel as [|fuel]; [lia|]. cbn [chunkLoop].
    destruct (Z.ltb_spec start (JS.length text)); [|lia].
    assert (Hnext : nextStart text m o start = start + (m - o)).
    { unfold nextStart. rewrite chunkEnd_solid by (assumption || lia). lia. }
    rewrite Hnext.
    destruct (IH fuel (start + (m - o))
                (chunks ++ [chunkAt text m start])) as (r & Hr & Hlen & Hall);
      [lia | nia | intros Hn; nia | lia |].
    exists (chunkAt text m start :: r).
    split; [rewrite Hr, <- app_assoc; reflexivity|].
    split; [cbn [List.length]; rewrite Hlen; reflexivity|].
    constructor; [|exact Hall].
    unfold chunkAt. rewrite chunkEnd_solid by (assumption || lia).
    rewrite trim_solid by (apply slice_forall; exact Hsolid).
    unfold nonEmpty. rewrite slice_length_inside by lia.
    apply Z.gtb_lt. lia.
Qed.

Lemma filter_all (A : Type) (f : A -> bool) (l : list A) :
  Forall (fun x => f x = true) l -> filter f l = l.
Proof.
  induction 1 as [|x l Hx _ IH]; [reflexivity|].
  cbn [filter]. rewrite Hx, IH. reflexivity.
Qed.

(** With the defaults a text of 225000 code units without white space is
    cut into 250 chunks. *)
Lemma chunkText_default_250 (text : jsstring) :
  Forall (fun c => is_ws c = false) text ->
  JS.length text = 225000 ->
  exists chunks,
    chunkText_default text = Some chunks /\ List.length chunks = 250%nat.
Proof.
  intros Hsolid Hlen.
  destruct (chunkLoop_solid text 1000 100 Hsolid ltac:(lia)
              250%nat (List.length text) 0 [])
    as (r & Hr & Hcount & Hall).
  - lia.
  - rewrite Hlen. reflexivity.
  - intros _. rewrite Hlen. reflexivity.
  - unfold JS.length in Hlen. lia.
  - exists r. unfold chunkText_default, chunkText. rewrite Hr.
    cbn [app option_map]. rewrite (filter_all _ _ _ Hall).
    split; [reflexivity | exact Hcount].
Qed.

Lemma batches_of_250 (A : Type) (vectors : list A)
    (batches : list (list A)) :
  List.length batches = 3%nat ->
  (forall k b, nth_error batches k = Some b ->
     b = firstn 100 (skipn (0 + 100 * k) vectors)) ->
  List.length vectors = 250%nat ->
  map (@List.length A) batches = [100; 100; 50]%nat.
Proof.
  intros Hlen Hnth Hn.
  destruct batches as [|b0 [|b1 [|b2 [|b3 bs]]]]; try discriminate.
  pose proof (Hnth 0%nat b0 eq_refl) as H0.
  pose proof (Hnth 1%nat b1 eq_refl) as H1.
  pose proof (Hnth 2%nat b2 eq_refl) as H2.
  cbn [map]. subst b0 b1 b2.
  rewrite !length_firstn, !length_skipn, Hn. reflexivity.
Qed.

(** C4: for every list of [n] assembled vectors the upsert loop of
    [storeContext] returns after exactly [ceil(n / 100)] calls of
    [index.upsert], each with at least one and at most 100 vectors; the
    batches in call order rebuild the list, and for 250 vectors their
    sizes are 100, 100, 50.  The second part is the whole call:
    [storeContext] assembles one vector per chunk, which sends nothing to
    the index, and then adds these batches, and no other, to what the
    index was sent before, so that a text of 250 chunks is stored by
    three upserts of sizes 100, 100, 50.  The third part gives texts that
    have 250 chunks. *)
Theorem storeContext_batches (embedding : Type)
    (dateISO : nat -> jsstring)
    (generateEmbeddings : list jsstring -> list embedding) :
  (forall (vectors : list (Context.vector embedding))
          (w : Context.world embedding),
     exists batches,
       Context.upsertAll vectors w
       = Some (tt, Context.mkWorld (Context.upserts w ++ batches)
                     (Context.queries w) (Context.clockReads w))
       /\ List.length batches = ((List.length vectors + 99) / 100)%nat
       /\ Forall (fun b => (1 <= List.length b <= 100)%nat) batches
       /\ concat batches = vectors
       /\ (List.length vectors = 250%nat ->
           map (@List.length (Context.vector embedding)) batches
           = [100; 100; 50]%nat))
  /\ (forall text metadata (w : Context.world embedding),
        exists chunks vectors batches,
          chunkText_default text = Some chunks
          /\ List.length vectors = List.length chunks
          /\ Context.assembleAll dateISO generateEmbeddings metadata chunks w
             = Some (vectors,
                     Context.mkWorld (Context.upserts w) (Context.queries w)
                       (Context.clockReads w + List.length chunks))
          /\ Context.storeContext dateISO generateEmbeddings text metadata w
             = Some (map (@Context.id embedding) vectors,
                     Context.mkWorld (Context.upserts w ++ batches)
                       (Context.queries w)
                       (Context.clockReads w + List.length chunks))
          /\ List.length batches = ((List.length chunks + 99) / 100)%nat
          /\ Forall (fun b => (1 <= List.length b <= 100)%nat) batches
          /\ concat batches = vectors
          /\ (List.length chunks = 250%nat ->
              map (@List.length (Context.vector embedding)) batches
              = [100; 100; 50]%nat))
  /\ (forall text,
        Forall (fun c => is_ws c = false) text ->
        JS.length text = 225000 ->
        exists chunks,
          chunkText_default text = Some chunks
          /\ List.length chunks = 250%nat).
Proof.
  split; [|split; [|exact chunkText_default_250]].
  - intros vectors w.
    destruct (upsertLoop_batches embedding vectors (List.length vectors)
                0%nat w)
      as (batches & Hrun & Hcat & Hall & Hlen & Hnth); [lia|].
    exists batches. split; [exact Hrun|].
    rewrite Nat.sub_0_r in Hlen. split; [exact Hlen|].
    split; [exact Hall|]. split; [exact Hcat|].
    intros Hn. rewrite Hn in Hlen.
    exact (batches_of_250 _ vectors batches Hlen Hnth Hn).
  - intros text metadata w.
    destruct (chunkText_default_returns text) as [chunks Hc].
    destruct (mapWithIndex_assemble embedding dateISO metadata
                (generateEmbeddings chunks) (List.length chunks) chunks
                0%nat w)
      as (vectors & Hasm & Hsame & _).
    destruct (upsertLoop_batches embedding vectors (List.length vectors)
                0%nat
                (Context.mkWorld (Context.upserts w) (Context.queries w)
                   (Context.clockReads w + List.length chunks)))
      as (batches & Hup & Hcat & Hall & Hlen & Hnth); [lia|].
    exists chunks, vectors, batches.
    rewrite Nat.sub_0_r, Hsame in Hlen.
    split; [exact Hc|]. split; [exact Hsame|]. split; [exact Hasm|].
    split; [|split; [exact Hlen|split; [exact Hall|split; [exact Hcat|]]]].
    + unfold Context.storeContext, Context.bind, Context.orDiverge.
      rewrite Hc. unfold Context.assembleAll. rewrite Hasm.
      unfold Context.upsertAll. rewrite Hup. reflexivity.
    + intros Hn. rewrite Hn in Hlen.
      apply (batches_of_250 _ vectors batches Hlen Hnth). congruence.
Qed.

(** 225000 letters are such a text. *)
Example solid_text_of_250_chunks :
  Forall (fun c => is_ws c = false) (repeat 97%N (Z.to_nat 225000))
  /\ JS.length (repeat 97%N (Z.to_nat 225000)) = 225000.
Proof.
  split.
  - apply Forall_forall. intros c Hc. apply repeat_spec in Hc. subst c.
    reflexivity.
  - unfold JS.length. rewrite repeat_length. apply Z2Nat.id. lia.
Qed.

Lemma nth_error_same_length_ext (A : Type) (l1 l2 : list A) :
  List.length l1 = List.length l2 ->
  (forall k a b, nth_error l1 k = Some a -> nth_error l2 k = Some b -> a = b) ->
  l1 = l2.
Proof.
  revert l2. induction l1 as [|x l1 IH]; intros [|y l2] Hlen Hnth;
    try discriminate; [reflexivity|].
  f_equal.
  - apply (Hnth 0%nat); reflexivity.
  - apply IH; [simpl in Hlen; lia|].
    intros k a b Ha Hb. apply (Hnth (S k)); assumption.
Qed.

(** X8: the ids [storeContext] returns are settled by the text and the
    metadata alone: two calls with the same text and metadata return the
    same ids, whatever the clock, the embedding provider and the index
    held before.  There is one id per chunk, the ids are those of the
    vectors sent to the index, in order, no query is sent, and the clock
    is read once per chunk. *)
Theorem storeContext_ids_stable (embedding1 embedding2 : Type)
    (dateISO1 dateISO2 : nat -> jsstring)
    (generateEmbeddings1 : list jsstring -> list embedding1)
    (generateEmbeddings2 : list jsstring -> list embedding2)
    (text : jsstring) (metadata : jsobject)
    (w1 : Context.world embedding1) (w2 : Context.world embedding2) :
  exists chunks ids batches1 batches2,
    chunkText_default text = Some chunks
    /\ List.length ids = List.length chunks
    /\ Context.storeContext dateISO1 generateEmbeddings1 text metadata w1
       = Some (ids,
               Context.mkWorld (Context.upserts w1 ++ batches1)
                 (Context.queries w1)
                 (Context.clockReads w1 + List.length chunks))
    /\ Context.storeContext dateISO2 generateEmbeddings2 text metadata w2
       = Some (ids,
               Context.mkWorld (Context.upserts w2 ++ batches2)
                 (Context.queries w2)
                 (Context.clockReads w2 + List.length chunks))
    /\ map (@Context.id embedding1) (concat batches1) = ids
    /\ map (@Context.id embedding2) (concat batches2) = ids.
Proof.
  destruct (storeContext_effect embedding1 dateISO1 generateEmbeddings1
              text metadata w1)
    as (chunks & vs1 & bs1 & Hc & Hrun1 & Hcat1 & Hlen1 & Hnth1).
  destruct (storeContext_effect embedding2 dateISO2 generateEmbeddings2
              text metadata w2)
    as (chunks' & vs2 & bs2 & Hc' & Hrun2 & Hcat2 & Hlen2 & Hnth2).
  rewrite Hc in Hc'. injection Hc' as <-.
  assert (Hids : map (@Context.id embedding2) vs2
                 = map (@Context.id embedding1) vs1).
  { apply nth_error_same_length_ext.
    - rewrite !length_map. congruence.
    - intros k a b Ha Hb. rewrite nth_error_map in Ha, Hb.
      destruct (nth_error vs2 k) as [v2|] eqn:E2; [|discriminate].
      destruct (nth_error vs1 k) as [v1|] eqn:E1; [|discriminate].
      injection Ha as <-. injection Hb as <-.
      destruct (Hnth1 k v1 E1) as (c1 & Hc1 & _ & ->).
      destruct (Hnth2 k v2 E2) as (c2 & Hc2 & _ & ->).
      congruence. }
  exists chunks, (map (@Context.id embedding1) vs1), bs1, bs2.
  split; [exact Hc|]. split; [rewrite length_map; exact Hlen1|].
  split; [exact Hrun1|]. split; [rewrite <- Hids; exact Hrun2|].
  split; [rewrite Hcat1; reflexivity | rewrite Hcat2; exact Hids].
Qed.

Section PresetFacts.

Variable embedding : Type.
Variable dateISO : nat -> jsstring.
Variable generateEmbeddings : list jsstring -> list embedding.

(** Two fields a preset puts on top of the caller's metadata reach every
    vector of the call. *)
Lemma storeContext_forced_fields (k1 k2 : jsstring) (v1 v2 : jsvalue)
    (text : jsstring) (metadata : jsobject) (w : Context.world embedding) :
  k1 <> k2 ->
  ~ In k1 [lit "text"; lit "chunkIndex"; lit "totalChunks"; lit "timestamp"] ->
  ~ In k2 [lit "text"; lit "chunkIndex"; lit "totalChunks"; lit "timestamp"] ->
  exists ids batches w',
    Context.storeContext dateISO generateEmbeddings text
      (Obj.set k2 v2 (Obj.set k1 v1 (spread metadata []))) w
    = Some (ids, w')
    /\ Context.upserts w' = Context.upserts w ++ batches
    /\ Forall (fun v =>
                 Obj.get k1 (Context.metadata v) = Some v1
                 /\ Obj.get k2 (Context.metadata v) = Some v2)
         (concat batches).
Proof.
  intros Hne H1 H2.
  set (md := Obj.set k2 v2 (Obj.set k1 v1 (spread metadata []))).
  destruct (storeContext_effect embedding dateISO generateEmbeddings
              text md w)
    as (chunks & vs & bs & Hc & Hrun & Hcat & Hlen & Hnth).
  do 3 eexists. split; [exact Hrun|]. split; [reflexivity|].
  rewrite Hcat. apply Forall_forall. intros v Hv.
  apply In_nth_error in Hv. destruct Hv as [k Hk].
  destruct (Hnth k v Hk) as (chunk & _ & -> & _).
  assert (Hcopy : spread md [] = md).
  { apply spread_copy. unfold md.
    apply set_keys_NoDup, set_keys_NoDup, spread_keys_NoDup. constructor. }
  unfold chunkMetadata. rewrite Hcopy.
  cbn [In] in H1, H2.
  split.
  - rewrite !get_set_other by (intros E; apply H1; auto).
    unfold md. rewrite get_set_other by exact Hne. apply get_set_same.
  - rewrite !get_set_other by (intros E; apply H2; auto).
    unfold md. apply get_set_same.
Qed.

End PresetFacts.

(** X9: [storeConversation] and [storeDocumentation] put their type, and
    the role or the title, on every vector they send, also when the
    caller's metadata holds other values under these keys. *)
Theorem presets_force_their_fields (embedding : Type)
    (dateISO : nat -> jsstring)
    (generateEmbeddings : list jsstring -> list embedding)
    (label content : jsstring) (metadata : jsobject)
    (w : Context.world embedding) :
  (exists ids batches w',
     Presets.storeConversation dateISO generateEmbeddings label content
       metadata w = Some (ids, w')
     /\ Context.upserts w' = Context.upserts w ++ batches
     /\ Forall (fun v =>
                  Obj.get (lit "type") (Context.metadata v)
                  = Some (JStr (lit "conversation"))
                  /\ Obj.get (lit "role") (Context.metadata v)
                     = Some (JStr label))
          (concat batches))
  /\ (exists ids batches w',
        Presets.storeDocumentation dateISO generateEmbeddings label content
          metadata w = Some (ids, w')
        /\ Context.upserts w' = Context.upserts w ++ batches
        /\ Forall (fun v =>
                     Obj.get (lit "type") (Context.metadata v)
                     = Some (JStr (lit "documentation"))
                     /\ Obj.get (lit "title") (Context.metadata v)
                        = Some (JStr label))
             (concat batches)).
Proof.
  split.
  - apply storeContext_forced_fields; [discriminate| |];
      cbn [In]; intros H; repeat destruct H as [H|H]; try discriminate H;
      exact H.
  - apply storeContext_forced_fields; [discriminate| |];
      cbn [In]; intros H; repeat destruct H as [H|H]; try discriminate H;
      exact H.
Qed.

(** ** [getRelevantContext] *)

Section RelevantFacts.

Variables embedding score : Type.
Variable generateEmbedding : jsstring -> embedding.
Variable indexAnswer :
  Context.queryRequest embedding -> list (Context.indexMatch score).

(** The four buckets hold every result once. *)
Lemma buckets_permutation (results : list (Context.searchResult score)) :
  Permutation
    (filter (inBucket score Context.Conversation) results
     ++ filter (inBucket score Context.Code) results
     ++ filter (inBucket score Context.Documentation) results
     ++ filter (inBucket score Context.Other) results)
    results.
Proof.
  induction results as [|r results IH]; [constructor|].
  remember (filter (inBucket score Context.Conversation) results) as fc.
  remember (filter (inBucket score Context.Code) results) as fk.
  remember (filter (inBucket score Context.Documentation) results) as fd.
  remember (filter (inBucket score Context.Other) results) as fo.
  cbn [filter]. rewrite <- Heqfc, <- Heqfk, <- Heqfd, <- Heqfo.
  unfold inBucket. destruct (bucketOf score r).
  - cbn [app]. apply perm_skip, IH.
  - symmetry. apply Permutation_cons_app. symmetry. exact IH.
  - rewrite app_assoc. symmetry. apply Permutation_cons_app.
    rewrite <- app_assoc. symmetry. exact IH.
  - rewrite !app_assoc. symmetry. apply Permutation_cons_app.
    rewrite <- !app_assoc. symmetry. exact IH.
Qed.

(** X10: when no result has a type that names a property of
    [Object.prototype], [getRelevantContext] returns: [all] holds the
    results in the order of the index, each bucket of [grouped] holds the
    results of its type in that order ([other] those of every type that is
    no bucket, and those without a type), and the four buckets together
    hold every result exactly once. *)
Theorem getRelevantContext_groups (q : jsstring) (o : Context.options)
    (w : Context.world embedding) :
  let request :=
    Context.searchRequest generateEmbedding q (Some (Context.buildFilter o))
      (match Context.optTopK o with Some k => k | None => 10 end) in
  let results := map (@Context.toResult score) (indexAnswer request) in
  Forall (fun r => Context.lookupGrouped (Context.typeKey r)
                   <> Context.Inherited) results ->
  exists g,
    Context.getRelevantContext generateEmbedding indexAnswer q o w
    = Some (Context.Returned
              (Context.mkRelevant results g
                 (Context.formatContextForPrompt results)),
            Context.mkWorld (Context.upserts w)
              (Context.queries w ++ [request]) (Context.clockReads w))
    /\ Context.conversation g
       = filter (inBucket score Context.Conversation) results
    /\ Context.code g = filter (inBucket score Context.Code) results
    /\ Context.documentation g
       = filter (inBucket score Context.Documentation) results
    /\ Context.other g = filter (inBucket score Context.Other) results
    /\ Permutation
         (Context.conversation g ++ Context.code g
          ++ Context.documentation g ++ Context.other g)
         results.
Proof.
  intros request results Hall.
  eexists. split.
  - unfold Context.getRelevantContext, Context.bind, Context.searchContext,
      Context.bind, Context.query, Context.ret.
    fold request. fold results.
    rewrite (groupResults_partition score results Hall). reflexivity.
  - cbn [Context.conversation Context.code Context.documentation
         Context.other].
    repeat split. apply buckets_permutation.
Qed.

End RelevantFacts.

Lemma getRelevantContext_groups_witness :
  exists g,
    Context.getRelevantContext (fun _ => tt)
      (fun _ => [typed 1 "code"; typed 2 "weird"; typed 3 "code"])
      (lit "query") (Context.mkOptions None None None)
      (Context.mkWorld [] [] 0)
    = Some (Context.Returned
              (Context.mkRelevant
                 (map (@Context.toResult nat)
                    [typed 1 "code"; typed 2 "weird"; typed 3 "code"])
                 g
                 (Context.formatContextForPrompt
                    (map (@Context.toResult nat)
                       [typed 1 "code"; typed 2 "weird"; typed 3 "code"]))),
            Context.mkWorld [] [Context.mkQuery tt 10 None true] 0)
    /\ Context.code g
       = map (@Context.toResult nat) [typed 1 "code"; typed 3 "code"]
    /\ Context.other g = map (@Context.toResult nat) [typed 2 "weird"].
Proof.
  destruct (getRelevantContext_groups unit nat (fun _ => tt)
              (fun _ => [typed 1 "code"; typed 2 "weird"; typed 3 "code"])
              (lit "query") (Context.mkOptions None None None)
              (Context.mkWorld [] [] 0))
    as (g & Hrun & _ & Hcode & _ & Hother & _).
  - repeat constructor; vm_compute; discriminate.
  - exists g. split; [exact Hrun|]. split; [exact Hcode | exact Hother].
Defined.

(** X11: [getRelevantContext] sends one query, for the embedding of the
    query text and with [topK] 10 unless the options give another.  The
    query is unfiltered exactly when the options name no project (none,
    [null] or the empty string) and no type (none or an empty array);
    otherwise the filter holds the project as it is and the types under
    [$in], and nothing else. *)
Theorem getRelevantContext_request (embedding score : Type)
    (generateEmbedding : jsstring -> embedding)
    (indexAnswer :
       Context.queryRequest embedding -> list (Context.indexMatch score))
    (q : jsstring) (o : Context.options) (w : Context.world embedding) :
  exists request out,
    Context.getRelevantContext generateEmbedding indexAnswer q o w
    = Some (out,
            Context.mkWorld (Context.upserts w)
              (Context.queries w ++ [request]) (Context.clockReads w))
    /\ Context.queryVector request = generateEmbedding q
    /\ Context.topK request
       = match Context.optTopK o with Some k => k | None => 10 end
    /\ Context.includeMetadata request = true
    /\ Context.filter request
       = match Context.optProject o, Context.optTypes o with
         | (None | Some []), (None | Some []) => None
         | (None | Some []), Some (t :: ts) =>
             Some [(lit "type", Context.FIn (t :: ts))]
         | Some (c :: p), (None | Some []) =>
             Some [(lit "project", Context.FValue (JStr (c :: p)))]
         | Some (c :: p), Some (t :: ts) =>
             Some [(lit "project", Context.FValue (JStr (c :: p)));
                   (lit "type", Context.FIn (t :: ts))]
         end.
Proof.
  do 2 eexists. split; [reflexivity|].
  do 3 (split; [reflexivity|]).
  destruct o as [[[|c p]|] [[|t ts]|] k]; reflexivity.
Qed.

(** ** The MCP server: the cached search *)

Section SearchCacheFacts.

Variables embedding score : Type.
Variable dateNow : nat -> Z.
Variable embeddingsCreate : jsstring -> embedding.
Variable indexAnswer :
  McpSearch.request embedding -> list (Context.indexMatch score).

Abbreviation searchContext' :=
  (McpSearch.searchContext dateNow embeddingsCreate indexAnswer).

(** A search whose key is cached and has not expired returns the cached
    results: it reads the clock once and does nothing else. *)
Lemma searchContext_hit (q : jsstring) (p : option jsstring) (k : Z)
    (st : McpSearch.state embedding score)
    (it : Mcp.item (list (McpSearch.formatted score))) :
  Mcp.mapGet (McpSearch.cacheKey q p k) (McpSearch.searchCache st) = Some it ->
  dateNow (Mcp.clockReads (McpSearch.server st)) <= Mcp.expiresAt it ->
  searchContext' q p k st
  = (Mcp.value it,
     McpSearch.mkState (Mcp.tick (McpSearch.server st))
       (McpSearch.searchCache st) (McpSearch.queries st)).
Proof.
  intros Hget Hfresh. unfold McpSearch.searchContext, Mcp.getCached.
  cbv zeta. rewrite Hget.
  destruct (Z.gtb_spec (dateNow (Mcp.clockReads (McpSearch.server st)))
              (Mcp.expiresAt it)); [lia | reflexivity].
Qed.

(** After a search its key is cached with the results it returned. *)
Lemma searchContext_caches (q : jsstring) (p : option jsstring) (k : Z)
    (st : McpSearch.state embedding score) :
  exists it,
    Mcp.mapGet (McpSearch.cacheKey q p k)
      (McpSearch.searchCache (snd (searchContext' q p k st))) = Some it
    /\ Mcp.value it = fst (searchContext' q p k st).
Proof.
  unfold McpSearch.searchContext, Mcp.getCached. cbv zeta.
  set (key := McpSearch.cacheKey q p k).
  destruct (Mcp.mapGet key (McpSearch.searchCache st)) as [it0|] eqn:Hget.
  - destruct (dateNow (Mcp.clockReads (McpSearch.server st))
              >? Mcp.expiresAt it0).
    + destruct (Mcp.generateEmbedding dateNow embeddingsCreate q
                  (Mcp.tick (McpSearch.server st))) as [e s2].
      cbn [fst snd McpSearch.searchCache]. unfold Mcp.setCache.
      rewrite mapGet_mapSet_same. eexists. split; reflexivity.
    + cbn [fst snd McpSearch.searchCache]. exists it0.
      split; [exact Hget | reflexivity].
  - destruct (Mcp.generateEmbedding dateNow embeddingsCreate q
                (McpSearch.server st)) as [e s2].
    cbn [fst snd McpSearch.searchCache]. unfold Mcp.setCache.
    rewrite mapGet_mapSet_same. eexists. split; reflexivity.
Qed.

End SearchCacheFacts.

(** X12: a search leaves its results in the cache under its key, and a
    later search with the same key (the query, the project or [all], and
    [topK], joined by colons) made before the entry expires returns these
    results again: it sends no query to the index, asks for no embedding,
    and changes neither cache; it only reads the clock once. *)
Theorem searchContext_repeat_is_cached (embedding score : Type)
    (dateNow : nat -> Z) (embeddingsCreate : jsstring -> embedding)
    (indexAnswer :
       McpSearch.request embedding -> list (Context.indexMatch score))
    (q q' : jsstring) (p p' : option jsstring) (k k' : Z)
    (st : McpSearch.state embedding score) :
  McpSearch.cacheKey q' p' k' = McpSearch.cacheKey q p k ->
  let first := McpSearch.searchContext dateNow embeddingsCreate indexAnswer
                 q p k st in
  exists it,
    Mcp.mapGet (McpSearch.cacheKey q p k) (McpSearch.searchCache (snd first))
    = Some it
    /\ Mcp.value it = fst first
    /\ (dateNow (Mcp.clockReads (McpSearch.server (snd first)))
        <= Mcp.expiresAt it ->
        McpSearch.searchContext dateNow embeddingsCreate indexAnswer
          q' p' k' (snd first)
        = (fst first,
           McpSearch.mkState (Mcp.tick (McpSearch.server (snd first)))
             (McpSearch.searchCache (snd first))
             (McpSearch.queries (snd first)))).
Proof.
  intros Hkey first.
  destruct (searchContext_caches embedding score dateNow embeddingsCreate
              indexAnswer q p k st) as (it & Hget & Hval).
  fold first in Hget, Hval.
  exists it. split; [exact Hget|]. split; [exact Hval|].
  intros Hfresh. rewrite <- Hval.
  apply searchContext_hit; [rewrite Hkey; exact Hget | exact Hfresh].
Qed.

Lemma searchContext_repeat_is_cached_witness :
  exists it,
    Mcp.mapGet (lit "q:all:5")
      (McpSearch.searchCache
         (snd (McpSearch.searchContext Z.of_nat (fun _ => tt)
                 (fun _ => [typed 1 "code"]) (lit "q") None 5
                 (McpSearch.mkState (Mcp.mkServer [] [] 0 0) [] []))))
    = Some it
    /\ Mcp.expiresAt it = 300001.
Proof.
  destruct (searchContext_repeat_is_cached unit nat Z.of_nat (fun _ => tt)
              (fun _ => [typed 1 "code"])
              (lit "q") (lit "q") None (Some (lit "all")) 5 5
              (McpSearch.mkState (Mcp.mkServer [] [] 0 0) [] []))
    as (it & Hget & _).
  - reflexivity.
  - exists it. split; [exact Hget|].
    vm_compute in Hget. injection Hget as <-. reflexivity.
Defined.

(** X13: [all] is also the key of a search without a project.  After a
    search without project, a search for the project named [all] made
    before the entry expires returns the unfiltered results of the first
    and sends no query, while on its own it asks the index for the
    records whose project is [all]. *)
Theorem searchContext_project_all_unfiltered (embedding score : Type)
    (dateNow : nat -> Z) (embeddingsCreate : jsstring -> embedding)
    (indexAnswer :
       McpSearch.request embedding -> list (Context.indexMatch score))
    (q : jsstring) (k : Z) (st : McpSearch.state embedding score) :
  Mcp.mapGet (McpSearch.cacheKey q None k) (McpSearch.searchCache st) = None ->
  (forall n, dateNow (S n) <= dateNow n + Mcp.CACHE_TTL) ->
  let search := McpSearch.searchContext dateNow embeddingsCreate indexAnswer in
  let first := search q None k st in
  let second := search q (Some (lit "all")) k (snd first) in
  let alone := search q (Some (lit "all")) k st in
  exists e,
    fst first
    = map (@McpSearch.format score)
        (indexAnswer (McpSearch.mkRequest e k None true))
    /\ McpSearch.queries (snd first)
       = McpSearch.queries st ++ [McpSearch.mkRequest e k None true]
    /\ fst second = fst first
    /\ McpSearch.queries (snd second) = McpSearch.queries (snd first)
    /\ fst alone
       = map (@McpSearch.format score)
           (indexAnswer (McpSearch.mkRequest e k (Some (lit "all")) true))
    /\ McpSearch.queries (snd alone)
       = McpSearch.queries st
         ++ [McpSearch.mkRequest e k (Some (lit "all")) true].
Proof.
  intros Hcold Hclock search first second alone.
  assert (Hkey : McpSearch.cacheKey q (Some (lit "all")) k
                 = McpSearch.cacheKey q None k) by reflexivity.
  assert (Hfirst : exists e s2,
            Mcp.generateEmbedding dateNow embeddingsCreate q
              (McpSearch.server st) = (e, s2)
            /\ first
               = (map (@McpSearch.format score)
                    (indexAnswer (McpSearch.mkRequest e k None true)),
                  McpSearch.mkState (Mcp.tick s2)
                    (Mcp.setCache (McpSearch.searchCache st)
                       (McpSearch.cacheKey q None k)
                       (map (@McpSearch.format score)
                          (indexAnswer (McpSearch.mkRequest e k None true)))
                       (dateNow (Mcp.clockReads s2)))
                    (McpSearch.queries st
                     ++ [McpSearch.mkRequest e k None true]))).
  { unfold first, search, McpSearch.searchContext, Mcp.getCached.
    cbv zeta. rewrite Hcold.
    destruct (Mcp.generateEmbedding dateNow embeddingsCreate q
                (McpSearch.server st)) as [e s2].
    exists e, s2. split; reflexivity. }
  destruct Hfirst as (e & s2 & Hgen & Hfirst).
  exists e. rewrite Hfirst. cbn [fst snd McpSearch.queries].
  split; [reflexivity|]. split; [reflexivity|].
  assert (Hsecond : second
            = (fst first,
               McpSearch.mkState (Mcp.tick (McpSearch.server (snd first)))
                 (McpSearch.searchCache (snd first))
                 (McpSearch.queries (snd first)))).
  { unfold second, search. rewrite Hfirst. cbn [fst snd].
    apply (searchContext_hit embedding score dateNow embeddingsCreate
             indexAnswer q (Some (lit "all")) k _
             (Mcp.mkItem _ (dateNow (Mcp.clockReads s2) + Mcp.CACHE_TTL))).
    - rewrite Hkey. cbn [McpSearch.searchCache]. unfold Mcp.setCache.
      apply mapGet_mapSet_same.
    - cbn [McpSearch.server Mcp.tick Mcp.clockReads Mcp.expiresAt].
      apply Hclock. }
  rewrite Hsecond, Hfirst. cbn [fst snd McpSearch.queries].
  split; [reflexivity|]. split; [reflexivity|].
  unfold alone, search, McpSearch.searchContext, Mcp.getCached.
  cbv zeta. rewrite Hkey, Hcold, Hgen. cbn [fst snd McpSearch.queries].
  split; reflexivity.
Qed.

Lemma searchContext_project_all_unfiltered_witness :
  exists e,
    fst (McpSearch.searchContext Z.of_nat (fun _ => tt)
           (fun r : McpSearch.request unit =>
              match McpSearch.filter r with
              | None => [typed 1 "code"; typed 2 "code"]
              | Some _ => []
              end)
           (lit "q") None 5
           (McpSearch.mkState (Mcp.mkServer [] [] 0 0) [] []))
    = map (@McpSearch.format nat)
        ((fun r : McpSearch.request unit =>
            match McpSearch.filter r with
            | None => [typed 1 "code"; typed 2 "code"]
            | Some _ => []
            end) (McpSearch.mkRequest e 5 None true)).
Proof.
  destruct (searchContext_project_all_unfiltered unit nat Z.of_nat
              (fun _ => tt)
              (fun r : McpSearch.request unit =>
                 match McpSearch.filter r with
                 | None => [typed 1 "code"; typed 2 "code"]
                 | Some _ => []
                 end)
              (lit "q") 5
              (McpSearch.mkState (Mcp.mkServer [] [] 0 0) [] []))
    as (e & Hfirst & _).
  - reflexivity.
  - intros n. unfold Mcp.CACHE_TTL. lia.
  - exists e. exact Hfirst.
Defined.

Lemma given_idempotent (p : option jsstring) :
  McpSearch.given (McpSearch.given p) = McpSearch.given p.
Proof.
  destruct p as [[|c p]|]; reflexivity.
Qed.

(** X14: the [pinecone_search] tool sends at most one query per call, and
    never asks the index for more than 20 results: the query carries
    [topK] 5 when the argument is missing or 0 and the smaller of the
    argument and 20 otherwise; it is filtered by the project exactly when
    a project that is not the empty string was given. *)
Theorem searchTool_request (embedding score : Type)
    (dateNow : nat -> Z) (embeddingsCreate : jsstring -> embedding)
    (indexAnswer :
       McpSearch.request embedding -> list (Context.indexMatch score))
    (q : jsstring) (p : option jsstring) (topK : option Z)
    (st : McpSearch.state embedding score) :
  let after := snd (McpSearch.searchTool dateNow embeddingsCreate indexAnswer
                      q p topK st) in
  McpSearch.queries after = McpSearch.queries st
  \/ exists request,
       McpSearch.queries after = McpSearch.queries st ++ [request]
       /\ McpSearch.topK request <= 20
       /\ McpSearch.topK request
          = match topK with
            | None | Some 0 => 5
            | Some n => Z.min n 20
            end
       /\ McpSearch.includeMetadata request = true
       /\ McpSearch.filter request
          = match p with
            | None | Some [] => None
            | Some (c :: r) => Some (c :: r)
            end.
Proof.
  cbv zeta. unfold McpSearch.searchTool, McpSearch.searchContext,
    Mcp.getCached. cbv zeta. rewrite given_idempotent.
  set (key := McpSearch.cacheKey q (McpSearch.given p)
                (McpSearch.toolTopK topK)).
  assert (Hreq : forall e : embedding,
            let request := McpSearch.mkRequest e (McpSearch.toolTopK topK)
                             (McpSearch.given p) true in
            McpSearch.topK request <= 20
            /\ McpSearch.topK request
               = match topK with
                 | None | Some 0 => 5
                 | Some n => Z.min n 20
                 end
            /\ McpSearch.includeMetadata request = true
            /\ McpSearch.filter request
               = match p with
                 | None | Some [] => None
                 | Some (c :: r) => Some (c :: r)
                 end).
  { intros e. cbn [McpSearch.topK McpSearch.includeMetadata McpSearch.filter].
    unfold McpSearch.toolTopK.
    split; [lia|]. split; [destruct topK as [[| |]|]; reflexivity|].
    split; [reflexivity|]. destruct p as [[|c r]|]; reflexivity. }
  destruct (Mcp.mapGet key (McpSearch.searchCache st)) as [it|].
  - destruct (dateNow (Mcp.clockReads (McpSearch.server st))
              >? Mcp.expiresAt it).
    + destruct (Mcp.generateEmbedding dateNow embeddingsCreate q
                  (Mcp.tick (McpSearch.server st))) as [e s2].
      right. eexists. split; [reflexivity | apply Hreq].
    + left. reflexivity.
  - destruct (Mcp.generateEmbedding dateNow embeddingsCreate q
                (McpSearch.server st)) as [e s2].
    right. eexists. split; [reflexivity | apply Hreq].
Qed.

(** ** The MCP server: the embedding cache and the record of [indexText] *)

Section EntryFacts.

Variable V : Type.
Variable P : jsstring * V -> Prop.

Lemma mapGet_Forall (m : Mcp.jsmap V) (k : jsstring) (v : V) :
  Forall P m -> Mcp.mapGet k m = Some v -> P (k, v).
Proof.
  induction 1 as [|[k0 v0] m H0 _ IH]; cbn [Mcp.mapGet]; [discriminate|].
  destruct (JS.eqb k k0) eqn:E; [|exact IH].
  intros [= <-]. apply eqb_eq in E. subst k0. exact H0.
Qed.

Lemma mapDelete_Forall (m : Mcp.jsmap V) (k : jsstring) :
  Forall P m -> Forall P (Mcp.mapDelete k m).
Proof.
  induction 1 as [|[k0 v0] m H0 Hm IH]; cbn [Mcp.mapDelete]; [constructor|].
  destruct (JS.eqb k k0); [exact Hm | constructor; assumption].
Qed.

Lemma mapSet_Forall (m : Mcp.jsmap V) (k : jsstring) (v : V) :
  P (k, v) -> Forall P m -> Forall P (Mcp.mapSet k v m).
Proof.
  intros Hkv. induction 1 as [|[k0 v0] m H0 Hm IH]; cbn [Mcp.mapSet].
  - constructor; [exact Hkv | constructor].
  - destruct (JS.eqb k k0) eqn:E.
    + apply eqb_eq in E. subst k0. constructor; assumption.
    + constructor; assumption.
Qed.

End EntryFacts.

(** X15: the embedding cache is transparent.  When every entry of the
    cache holds what the provider gives for its key, [generateEmbedding]
    returns what the provider gives for the text, whether it finds the
    text cached, expired or not at all, and the cache it leaves has the
    same property. *)
Theorem generateEmbedding_transparent (embedding : Type)
    (dateNow : nat -> Z) (embeddingsCreate : jsstring -> embedding)
    (text : jsstring) (s : Mcp.server embedding) :
  Forall (fun kv => Mcp.value (snd kv) = embeddingsCreate (fst kv))
    (Mcp.embeddingCache s) ->
  fst (Mcp.generateEmbedding dateNow embeddingsCreate text s)
  = embeddingsCreate text
  /\ Forall (fun kv => Mcp.value (snd kv) = embeddingsCreate (fst kv))
       (Mcp.embeddingCache
          (snd (Mcp.generateEmbedding dateNow embeddingsCreate text s))).
Proof.
  intros Hco. unfold Mcp.generateEmbedding, Mcp.getCached.
  assert (Hset : forall (c : Mcp.cache embedding) now,
            Forall (fun kv => Mcp.value (snd kv) = embeddingsCreate (fst kv))
              c ->
            Forall (fun kv => Mcp.value (snd kv) = embeddingsCreate (fst kv))
              (Mcp.setCache c text (embeddingsCreate text) now)).
  { intros c now Hc. unfold Mcp.setCache.
    apply mapSet_Forall; [reflexivity|].
    destruct (Mcp.mapSize c >? 100); [|exact Hc].
    destruct (Mcp.firstKey c); [apply mapDelete_Forall|]; exact Hc. }
  destruct (Mcp.mapGet text (Mcp.embeddingCache s)) as [it|] eqn:Hget.
  - destruct (dateNow (Mcp.clockReads s) >? Mcp.expiresAt it).
    + cbn [fst snd Mcp.embeddingCache Mcp.tick Mcp.withCache].
      split; [reflexivity|]. apply Hset, mapDelete_Forall, Hco.
    + cbn [fst snd Mcp.embeddingCache Mcp.tick Mcp.withCache].
      split; [|exact Hco].
      exact (mapGet_Forall _ _ _ _ _ Hco Hget).
  - cbn [fst snd Mcp.embeddingCache Mcp.tick Mcp.withCache].
    split; [reflexivity|]. apply Hset, Hco.
Qed.

Lemma generateEmbedding_transparent_witness :
  fst (Mcp.generateEmbedding Z.of_nat (fun t => List.length t) (lit "abc")
         (snd (Mcp.generateEmbedding Z.of_nat (fun t => List.length t)
                 (lit "abc") (Mcp.mkServer [] [] 0 0))))
  = 3%nat.
Proof.
  apply (generateEmbedding_transparent nat Z.of_nat (fun t => List.length t)
           (lit "abc")
           (snd (Mcp.generateEmbedding Z.of_nat (fun t => List.length t)
                   (lit "abc") (Mcp.mkServer [] [] 0 0)))).
  repeat constructor.
Defined.





(** ** The scripts: [parseArgs] *)

Lemma slice_after_dashes (key : jsstring) :
  slice (lit "--" ++ key) 2 (JS.length (lit "--" ++ key)) = key.
Proof.
  unfold slice, slice_bound, JS.length. cbv zeta.
  change (lit "--" ++ key) with (45%N :: 45%N :: key).
  cbn [List.length].
  destruct (Z.ltb_spec 2 0); [lia|].
  destruct (Z.ltb_spec (Z.of_nat (S (S (List.length key)))) 0); [lia|].
  rewrite Z.min_id. rewrite (Z.min_l 2) by lia.
  change (Z.to_nat 2) with 2%nat. cbn [skipn].
  replace (Z.to_nat (Z.of_nat (S (S (List.length key))) - 2))
    with (List.length key) by lia.
  apply firstn_all.
Qed.

Lemma startsWith_dashes (arg : jsstring) :
  Cli.startsWith arg (lit "--") = true ->
  arg = lit "--" ++ slice arg 2 (JS.length arg).
Proof.
  intros H. destruct (is_prefix_app _ _ H) as [post ->].
  rewrite slice_after_dashes. reflexivity.
Qed.

Lemma mapGet_assign (key k : jsstring) (a : Cli.argValue)
    (result : Cli.parsed) :
  Mcp.mapGet k (Cli.assign key a result)
  = if JS.eqb key (lit "__proto__") then Mcp.mapGet k result
    else if JS.eqb k key then Some a
    else Mcp.mapGet k result.
Proof.
  unfold Cli.assign. destruct (JS.eqb key (lit "__proto__")); [reflexivity|].
  destruct (JS.eqb k key) eqn:E.
  - apply eqb_eq in E. subst k. apply mapGet_mapSet_same.
  - apply eqb_neq in E. apply mapGet_mapSet_other. exact E.
Qed.

Section ParseFacts.

Variable all : list jsstring.

(** What holds of every parsed argument. *)
Let sound (result : Cli.parsed) : Prop :=
  forall k a,
    Mcp.mapGet k result = Some a ->
    k <> lit "__proto__"
    /\ In (lit "--" ++ k) all
    /\ match a with
       | Cli.ArgTrue => True
       | Cli.ArgValue v =>
           v <> [] /\ Cli.startsWith v (lit "--") = false /\ In v all
       end.

Lemma assign_sound (arg : jsstring) (a : Cli.argValue)
    (result : Cli.parsed) :
  In arg all -> Cli.startsWith arg (lit "--") = true ->
  match a with
  | Cli.ArgTrue => True
  | Cli.ArgValue v =>
      v <> [] /\ Cli.startsWith v (lit "--") = false /\ In v all
  end ->
  sound result ->
  sound (Cli.assign (slice arg 2 (JS.length arg)) a result).
Proof.
  intros Hin Hflag Ha Hres k a' Hget. rewrite mapGet_assign in Hget.
  destruct (JS.eqb (slice arg 2 (JS.length arg)) (lit "__proto__")) eqn:Ep;
    [exact (Hres k a' Hget)|].
  destruct (JS.eqb k (slice arg 2 (JS.length arg))) eqn:E;
    [|exact (Hres k a' Hget)].
  injection Hget as <-. apply eqb_eq in E. subst k.
  apply eqb_neq in Ep. split; [exact Ep|].
  rewrite <- (startsWith_dashes arg Hflag). split; [exact Hin | exact Ha].
Qed.

Lemma parseLoop_sound :
  forall n argv result,
    (List.length argv <= n)%nat -> incl argv all -> sound result ->
    sound (Cli.parseLoop argv result).
Proof.
  induction n as [|n IH]; intros [|arg rest] result Hn Hincl Hres;
    cbn [Cli.parseLoop]; try exact Hres; cbn [List.length] in Hn; [lia|].
  assert (Harg : In arg all) by (apply Hincl; left; reflexivity).
  assert (Hrest : incl rest all)
    by (intros x Hx; apply Hincl; right; exact Hx).
  destruct (Cli.startsWith arg (lit "--")) eqn:Hflag;
    [|apply IH; [lia | exact Hrest | exact Hres]].
  destruct rest as [|value rest'].
  - apply assign_sound; auto.
  - destruct (negb (JS.eqb value []) && negb (Cli.startsWith value (lit "--")))
      eqn:Hvalue.
    + apply andb_true_iff in Hvalue. destruct Hvalue as [Hv1 Hv2].
      apply negb_true_iff in Hv1, Hv2. apply eqb_neq in Hv1.
      apply IH; [cbn [List.length] in Hn; lia | |].
      * intros x Hx. apply Hrest. right. exact Hx.
      * apply assign_sound; auto.
        split; [exact Hv1|]. split; [exact Hv2|].
        apply Hrest. left. reflexivity.
    + apply IH; [lia | exact Hrest |]. apply assign_sound; auto.
Qed.

End ParseFacts.

(** X17: what [parseArgs] binds comes from the command line: a key is
    bound only when the argument [--key] occurs, never the key
    [__proto__], and a value that is not [true] is an argument that is
    not empty and does not start with two dashes. *)
Theorem parseArgs_sound (argv : list jsstring) (key : jsstring)
    (a : Cli.argValue) :
  Mcp.mapGet key (Cli.parseArgs argv) = Some a ->
  key <> lit "__proto__"
  /\ In (lit "--" ++ key) argv
  /\ match a with
     | Cli.ArgTrue => True
     | Cli.ArgValue v =>
         v <> [] /\ Cli.startsWith v (lit "--") = false /\ In v argv
     end.
Proof.
  apply (parseLoop_sound argv (List.length argv) argv []).
  - lia.
  - intros x Hx. exact Hx.
  - intros k a' Hget. discriminate Hget.
Qed.

Lemma parseArgs_sound_witness :
  lit "project" <> lit "__proto__"
  /\ In (lit "--" ++ lit "project")
       [lit "--file"; lit "a.md"; lit "--project"; lit "p"; lit "--auto"]
  /\ lit "p" <> []
  /\ Cli.startsWith (lit "p") (lit "--") = false
  /\ In (lit "p")
       [lit "--file"; lit "a.md"; lit "--project"; lit "p"; lit "--auto"].
Proof.
  apply (parseArgs_sound
           [lit "--file"; lit "a.md"; lit "--project"; lit "p"; lit "--auto"]
           (lit "project") (Cli.ArgValue (lit "p"))).
  reflexivity.
Defined.

Lemma commandLine_head (kvs : list (jsstring * Cli.argValue)) :
  commandLine kvs = []
  \/ exists key rest, commandLine kvs = (lit "--" ++ key) :: rest.
Proof.
  destruct kvs as [|[k [|v]] kvs]; [left; reflexivity| |];
    right; unfold commandLine; cbn [flat_map spell snd fst app];
    eexists _, _; reflexivity.
Qed.

Lemma parseLoop_commandLine (kvs : list (jsstring * Cli.argValue)) :
  Forall speakable kvs ->
  forall result,
    Cli.parseLoop (commandLine kvs) result
    = fold_left (fun r kv => Mcp.mapSet (fst kv) (snd kv) r) kvs result.
Proof.
  induction 1 as [|[k a] kvs [Hk Ha] _ IH]; intros result; [reflexivity|].
  cbn [fst snd] in Hk, Ha. cbn [fold_left fst snd].
  assert (Hassign : forall a', Cli.assign k a' result
                               = Mcp.mapSet k a' result).
  { intros a'. unfold Cli.assign. apply eqb_neq in Hk. rewrite Hk.
    reflexivity. }
  assert (Hflag : Cli.startsWith (lit "--" ++ k) (lit "--") = true).
  { unfold Cli.startsWith. change (lit "--" ++ k) with (45%N :: 45%N :: k).
    reflexivity. }
  unfold commandLine. cbn [flat_map]. fold (commandLine kvs).
  destruct a as [|v]; unfold spell; cbn [snd fst app].
  - cbn [Cli.parseLoop]. rewrite Hflag, slice_after_dashes.
    destruct (commandLine_head kvs) as [Hnil | (k' & rest & Hcons)].
    + rewrite Hnil. rewrite Hnil in IH. cbn [Cli.parseLoop] in IH.
      rewrite Hassign. apply IH.
    + rewrite Hcons.
      assert (Hnext : negb (JS.eqb (lit "--" ++ k') [])
                      && negb (Cli.startsWith (lit "--" ++ k') (lit "--"))
                      = false).
      { unfold Cli.startsWith.
        change (lit "--" ++ k') with (45%N :: 45%N :: k'). reflexivity. }
      rewrite Hnext, <- Hcons, Hassign. apply IH.
  - cbn [Cli.parseLoop]. rewrite Hflag, slice_after_dashes.
    destruct Ha as [Hv1 Hv2]. apply eqb_neq in Hv1. rewrite Hv1, Hv2.
    cbn [negb andb]. rewrite Hassign. apply IH.
Qed.

Lemma mapGet_fold_other (k : jsstring)
    (kvs : list (jsstring * Cli.argValue)) :
  ~ In k (map fst kvs) ->
  forall result,
    Mcp.mapGet k
      (fold_left (fun r kv => Mcp.mapSet (fst kv) (snd kv) r) kvs result)
    = Mcp.mapGet k result.
Proof.
  induction kvs as [|[k0 a0] kvs IH]; intros Hnotin result; [reflexivity|].
  cbn [map fst In] in Hnotin. cbn [fold_left fst snd].
  rewrite IH by (intros H; apply Hnotin; right; exact H).
  apply mapGet_mapSet_other. intros ->. apply Hnotin. left. reflexivity.
Qed.

(** X18: [parseArgs] reads back what a command line spells.  For
    arguments whose keys are not [__proto__] and whose values are neither
    empty nor start with two dashes, written as [--key value], or as
    [--key] alone for [true], the parsed object binds every key to its
    last value and binds no other key. *)
Theorem parseArgs_round_trip (kvs : list (jsstring * Cli.argValue)) :
  Forall speakable kvs ->
  (forall before key a after,
     kvs = before ++ (key, a) :: after ->
     ~ In key (map fst after) ->
     Mcp.mapGet key (Cli.parseArgs (commandLine kvs)) = Some a)
  /\ (forall key,
        ~ In key (map fst kvs) ->
        Mcp.mapGet key (Cli.parseArgs (commandLine kvs)) = None).
Proof.
  intros Hsp. unfold Cli.parseArgs.
  rewrite (parseLoop_commandLine kvs Hsp). split.
  - intros before key a after -> Hlast.
    rewrite fold_left_app. cbn [fold_left fst snd].
    rewrite mapGet_fold_other by exact Hlast.
    apply mapGet_mapSet_same.
  - intros key Hnotin. rewrite mapGet_fold_other by exact Hnotin.
    reflexivity.
Qed.

Lemma parseArgs_round_trip_witness :
  Mcp.mapGet (lit "repo")
    (Cli.parseArgs [lit "--repo"; lit "old"; lit "--auto"; lit "--repo";
                    lit "new"])
  = Some (Cli.ArgValue (lit "new"))
  /\ Mcp.mapGet (lit "auto")
       (Cli.parseArgs [lit "--repo"; lit "old"; lit "--auto"; lit "--repo";
                       lit "new"])
     = Some Cli.ArgTrue.
Proof.
  destruct (parseArgs_round_trip
              [(lit "repo", Cli.ArgValue (lit "old"));
               (lit "auto", Cli.ArgTrue);
               (lit "repo", Cli.ArgValue (lit "new"))]) as [Hlast _].
  - repeat constructor; try discriminate.
  - split.
    + apply (Hlast [(lit "repo", Cli.ArgValue (lit "old"));
                    (lit "auto", Cli.ArgTrue)]
               (lit "repo") (Cli.ArgValue (lit "new")) []).
      * reflexivity.
      * intros [].
    + apply (Hlast [(lit "repo", Cli.ArgValue (lit "old"))]
               (lit "auto") Cli.ArgTrue
               [(lit "repo", Cli.ArgValue (lit "new"))]).
      * reflexivity.
      * cbn [map fst In]. intros [H|[]]. discriminate H.
Defined.

(** ** [getLanguageFromPath] *)

Lemma afterLastDot_plain (s segment : jsstring) :
  ~ In 46%N s -> Presets.afterLastDot s segment = segment.
Proof.
  revert segment. induction s as [|c r IH]; intros segment Hnodot;
    [reflexivity|].
  cbn [Presets.afterLastDot]. cbn [In] in Hnodot.
  destruct (N.eqb_spec c 46) as [->|_]; [exfalso; apply Hnodot; auto|].
  apply IH. intros H. apply Hnodot. right. exact H.
Qed.

Lemma afterLastDot_extension (path ext segment : jsstring) :
  ~ In 46%N ext ->
  Presets.afterLastDot (path ++ 46%N :: ext) segment = ext.
Proof.
  intros Hnodot. revert segment.
  induction path as [|c r IH]; intros segment.
  - cbn [app Presets.afterLastDot]. rewrite N.eqb_refl.
    apply afterLastDot_plain. exact Hnodot.
  - cbn [app Presets.afterLastDot].
    destruct (c =? 46)%N; apply IH.
Qed.

(** X19: [getLanguageFromPath] looks at nothing but what follows the last
    dot of the path, so that a path without a dot is read as an extension
    ([js] is JavaScript as [src/app.js] is); and an extension that names a
    property of [Object.prototype] gives what the table inherits, which is
    no language name. *)
Theorem getLanguageFromPath_extension
    (toLowerCase : jsstring -> jsstring) (path ext : jsstring) :
  ~ In 46%N ext ->
  Presets.getLanguageFromPath toLowerCase (path ++ lit "." ++ ext)
  = Presets.getLanguageFromPath toLowerCase ext
  /\ (In (toLowerCase ext) Context.objectPrototypeKeys ->
      Presets.getLanguageFromPath toLowerCase (path ++ lit "." ++ ext)
      = Presets.InheritedValue).
Proof.
  intros Hnodot. unfold Presets.getLanguageFromPath, Presets.lastSegment.
  cbv zeta. change (lit "." ++ ext) with (46%N :: ext).
  rewrite (afterLastDot_extension path ext _ Hnodot).
  rewrite (afterLastDot_plain ext ext Hnodot).
  split; [reflexivity|].
  intros Hin. unfold Context.objectPrototypeKeys in Hin. cbn [map In] in Hin.
  repeat (destruct Hin as [<- | Hin]; [reflexivity|]). destruct Hin.
Qed.

Lemma getLanguageFromPath_extension_witness :
  Presets.getLanguageFromPath (fun s => s) (lit "src/app" ++ lit "." ++ lit "js")
  = Presets.getLanguageFromPath (fun s => s) (lit "js")
  /\ (In (lit "js") Context.objectPrototypeKeys ->
      Presets.getLanguageFromPath (fun s => s)
        (lit "src/app" ++ lit "." ++ lit "js")
      = Presets.InheritedValue).
Proof.
  apply (getLanguageFromPath_extension (fun s => s) (lit "src/app") (lit "js")).
  cbn [lit In]. intros [H|[H|[]]]; discriminate H.
Defined.

(** X20: storing a text that is empty or holds white space only sends
    nothing to the index and returns no id: there is no chunk, so no
    vector is assembled, the clock is not read and [index.upsert] is not
    called. *)
Theorem storeContext_blank_text (embedding : Type)
    (dateISO : nat -> jsstring)
    (generateEmbeddings : list jsstring -> list embedding)
    (text : jsstring) (metadata : jsobject) (w : Context.world embedding) :
  Forall (fun c => is_ws c = true) text ->
  Context.storeContext dateISO generateEmbeddings text metadata w
  = Some ([], w).
Proof.
  intros Hws. destruct (chunkText_default_returns text) as [chunks Hc].
  assert (Hnone : chunks = [])
    by exact (chunkText_blank_chunks text 1000 100 _ chunks Hws Hc).
  subst chunks.
  unfold Context.storeContext, Context.bind, Context.orDiverge.
  rewrite Hc. destruct w. reflexivity.
Qed.

Lemma storeContext_blank_text_witness :
  Context.storeContext (fun _ => lit "now") (fun chunks => map (fun _ => tt) chunks)
    [32%N; LF; 9%N] [(lit "project", JStr (lit "p"))]
    (Context.mkWorld [] [] 0)
  = Some ([], Context.mkWorld [] [] 0).
Proof.
  apply (storeContext_blank_text unit (fun _ => lit "now")
           (fun chunks => map (fun _ => tt) chunks)
           [32%N; LF; 9%N] [(lit "project", JStr (lit "p"))]
           (Context.mkWorld [] [] 0)).
  repeat constructor.
Defined.
